(** * RAGE9 engine: a shallow embedding of [src/main.cpp]

    The simulation core of the engine (entity store, input map, particle
    pool, collision pass, fixed-step loop, camera) is transcribed as Rocq
    functions over explicit state.  C++ [float] and [double] are IEEE-754
    binary32 and binary64 data, computed with the Standard Library's
    executable specification [SpecFloat]; [int] is a [Z] with its 32-bit
    wrap-around written out; the [unordered_map]s are stdpp [gmap]s and the
    [vector]s are lists. *)

From Stdlib Require Import ZArith Lia Floats.SpecFloat.
From stdpp Require Import base option list gmap strings fin_maps.

Open Scope Z_scope.

(* ------------------------------------------------------------------ *)
(** ** Machine numbers *)

(** [int]: two's-complement 32 bits.  Signed overflow is undefined in C++;
    the wrap-around below is what the usual targets do. *)
Definition INT_MIN : Z := - 2 ^ 31.
Definition INT_MAX : Z := 2 ^ 31 - 1.
Definition wrap32 (z : Z) : Z := (z + 2 ^ 31) mod 2 ^ 32 - 2 ^ 31.

(** C++ [%] on [int] truncates toward zero: [Z.rem]. *)
Definition int_rem (a b : Z) : Z := Z.rem a b.

(** [float] (binary32).  Every operation rounds to nearest, ties to even. *)
Module F32.
Definition prec : Z := 24.
Definition emax : Z := 128.
Definition add := SFadd prec emax.
Definition sub := SFsub prec emax.
Definition mul := SFmul prec emax.
Definition div := SFdiv prec emax.
Definition valid := valid_binary prec emax.
(** conversion of an [int] *)
Definition ofZ (z : Z) : spec_float := binary_normalize prec emax z 0 false.
(** conversion of a [double] (rounds) *)
Definition ofDouble (x : spec_float) : spec_float :=
  match x with
  | S754_finite s m e => binary_round prec emax s m e
  | _ => x
  end.
(** the literal [n/d] with [n] and [d] exactly representable, e.g.
    [0.12f] is [lit 12 100] *)
Definition lit (n d : Z) : spec_float := div (ofZ n) (ofZ d).
Definition zero : spec_float := S754_zero false.
Definition one : spec_float := ofZ 1.
End F32.

(** [double] (binary64). *)
Module F64.
Definition prec : Z := 53.
Definition emax : Z := 1024.
Definition add := SFadd prec emax.
Definition sub := SFsub prec emax.
Definition mul := SFmul prec emax.
Definition div := SFdiv prec emax.
Definition valid := valid_binary prec emax.
Definition ofZ (z : Z) : spec_float := binary_normalize prec emax z 0 false.
(** promotion of a [float]: exact, only the representation is widened *)
Definition ofFloat (x : spec_float) : spec_float :=
  match x with
  | S754_finite s m e => binary_round prec emax s m e
  | _ => x
  end.
Definition lit (n d : Z) : spec_float := div (ofZ n) (ofZ d).
Definition zero : spec_float := S754_zero false.
End F64.

Abbreviation float := spec_float.
Abbreviation double := spec_float.

(** The comparisons of C++ ([<], [>], [>=]); each is false on a NaN. *)
Definition flt (a b : spec_float) : bool := SFltb a b.
Definition fgt (a b : spec_float) : bool := SFltb b a.
Definition fge (a b : spec_float) : bool := SFleb b a.
Definition fabs (a : spec_float) : spec_float := SFabs a.

(** Mixed [float]/[double] arithmetic: the [float] operand is promoted, the
    operation is done in [double]; a store into a [float] rounds back. *)
Definition fmul_d (f : float) (d : double) : double := F64.mul (F64.ofFloat f) d.
(** [f += d] for a [float] lvalue [f] and a [double] [d] *)
Definition fadd_assign_d (f : float) (d : double) : float :=
  F32.ofDouble (F64.add (F64.ofFloat f) d).

(* ------------------------------------------------------------------ *)
(** ** Components *)

Record Transform := mkTransform {
  tr_x : float; tr_y : float; tr_rot : float; tr_sx : float; tr_sy : float }.

Record Sprite := mkSprite {
  sp_tex : string; sp_sx : Z; sp_sy : Z; sp_sw : Z; sp_sh : Z;
  sp_centered : bool; sp_layer : float }.

Record Animation := mkAnimation {
  frameCount : Z; frameTime : float; loop : bool; current : Z; timer : double }.

Record AnimatedSprite := mkAnimatedSprite { as_sprite : Sprite; anim : Animation }.

Record Physics := mkPhysics {
  vx : float; vy : float; ax : float; ay : float; mass : float;
  gravity : float; onGround : bool }.

Record Collider := mkCollider {
  cl_w : float; cl_h : float; offx : float; offy : float; isStatic : bool }.

(** The closures stored in [Script::onUpdate], defunctionalised: the two
    lambdas of [createDemoScene].  [PlayerControl pid] captures [pid]; the
    collectibles' lambda has an empty body. *)
Variant UpdateFn := PlayerControl (pid : Z) | CollectibleIdle (id : Z).
(** No [onStart] callback is ever installed. *)
Variant StartFn : Set := .

Record Script := mkScript { onUpdate : option UpdateFn; onStart : option StartFn }.
Record CameraComp := mkCameraComp { lerp : float; zoom : float }.
Record UIComp := mkUIComp { ui_text : string; fontID : Z }.

(** A [shared_ptr<Component>] slot.  The dynamic type is the constructor. *)
Inductive Component :=
| CTransform (t : Transform)
| CSprite (s : Sprite)
| CAnimatedSprite (s : AnimatedSprite)
| CPhysics (p : Physics)
| CCollider (c : Collider)
| CScript (s : Script)
| CCamera (c : CameraComp)
| CUI (u : UIComp).

(** Default member initialisers. *)
Definition Transform0 : Transform :=
  mkTransform F32.zero F32.zero F32.zero F32.one F32.one.
Definition Sprite0 : Sprite := mkSprite "" 0 0 0 0 true F32.zero.
Definition Animation0 : Animation :=
  mkAnimation 1 (F32.lit 1 10) true 0 F64.zero.
Definition AnimatedSprite0 : AnimatedSprite := mkAnimatedSprite Sprite0 Animation0.
Definition Physics0 : Physics :=
  mkPhysics F32.zero F32.zero F32.zero F32.zero F32.one (F32.ofZ 900) false.
Definition CameraComp0 : CameraComp := mkCameraComp (F32.lit 12 100) F32.one.

(* ------------------------------------------------------------------ *)
(** ** World: the entity store *)

Module World.

Record t := mk {
  nextId : Z;
  entities : list Z;
  components : gmap Z (gmap string Component) }.

Definition empty : t := mk 1 [] ∅.

Definition create (w : t) : Z * t :=
  (nextId w, mk (wrap32 (nextId w + 1)) (entities w ++ [nextId w]) (components w)).

Definition destroy (id : Z) (w : t) : t :=
  mk (nextId w) (filter (λ e, e ≠ id) (entities w)) (delete id (components w)).

(** [components[id][name] = comp] *)
Definition add (id : Z) (name : string) (comp : Component) (w : t) : t :=
  mk (nextId w) (entities w)
     (<[id := <[name := comp]> (default ∅ (components w !! id))]> (components w)).

(** The untyped lookup behind [get<T>]. *)
Definition get (w : t) (id : Z) (name : string) : option Component :=
  components w !! id ≫= (λ m, m !! name).

Definition all (w : t) : list Z := entities w.

End World.

(** [get<T>(id, name)] returns null for an absent slot and otherwise casts
    the slot with [static_pointer_cast<T>], without a check: when the
    object stored is not a [T] the cast is undefined.  The typed getters
    answer [None] for an absent slot and also for a slot of another dynamic
    type, so they describe the source only on stores on which the casts
    made are valid; [castsValid], further down, says which stores these are
    for a fixed update.  In particular [getAnimatedSprite] answers [None]
    for a plain [Sprite], where the source obtains a non-null pointer to an
    object that is not an [AnimatedSprite]. *)
Definition getTransform (w : World.t) (id : Z) : option Transform :=
  match World.get w id "transform" with Some (CTransform t) => Some t | _ => None end.
Definition getPhysics (w : World.t) (id : Z) : option Physics :=
  match World.get w id "physics" with Some (CPhysics p) => Some p | _ => None end.
Definition getCollider (w : World.t) (id : Z) : option Collider :=
  match World.get w id "collider" with Some (CCollider c) => Some c | _ => None end.
Definition getScript (w : World.t) (id : Z) : option Script :=
  match World.get w id "script" with Some (CScript s) => Some s | _ => None end.
Definition getAnimatedSprite (w : World.t) (id : Z) : option AnimatedSprite :=
  match World.get w id "sprite" with Some (CAnimatedSprite s) => Some s | _ => None end.
Definition getSprite (w : World.t) (id : Z) : option Sprite :=
  match World.get w id "sprite" with
  | Some (CSprite s) => Some s
  | Some (CAnimatedSprite s) => Some (as_sprite s)
  | _ => None
  end.

(** Writes through the pointer a typed getter returned: the object stored in
    the slot is updated in place; nothing happens for a null pointer.  For a
    slot of another dynamic type the source writes through an invalid
    pointer, which is undefined; the model leaves the store as it is and
    describes the source only where [castsValid] holds. *)
Definition modTransform (f : Transform → Transform) (id : Z) (w : World.t) : World.t :=
  match getTransform w id with
  | Some t => World.add id "transform" (CTransform (f t)) w
  | None => w
  end.
Definition modPhysics (f : Physics → Physics) (id : Z) (w : World.t) : World.t :=
  match getPhysics w id with
  | Some p => World.add id "physics" (CPhysics (f p)) w
  | None => w
  end.
Definition modAnimatedSprite (f : AnimatedSprite → AnimatedSprite) (id : Z)
    (w : World.t) : World.t :=
  match getAnimatedSprite w id with
  | Some s => World.add id "sprite" (CAnimatedSprite (f s)) w
  | None => w
  end.

(** Field assignments. *)
Definition set_tr_x (v : float) (t : Transform) : Transform :=
  mkTransform v (tr_y t) (tr_rot t) (tr_sx t) (tr_sy t).
Definition set_tr_y (v : float) (t : Transform) : Transform :=
  mkTransform (tr_x t) v (tr_rot t) (tr_sx t) (tr_sy t).
Definition set_vx (v : float) (p : Physics) : Physics :=
  mkPhysics v (vy p) (ax p) (ay p) (mass p) (gravity p) (onGround p).
Definition set_vy (v : float) (p : Physics) : Physics :=
  mkPhysics (vx p) v (ax p) (ay p) (mass p) (gravity p) (onGround p).
Definition set_onGround (b : bool) (p : Physics) : Physics :=
  mkPhysics (vx p) (vy p) (ax p) (ay p) (mass p) (gravity p) b.
Definition set_frameTime (v : float) (a : Animation) : Animation :=
  mkAnimation (frameCount a) v (loop a) (current a) (timer a).
Definition set_timer (v : double) (a : Animation) : Animation :=
  mkAnimation (frameCount a) (frameTime a) (loop a) (current a) v.
Definition set_current (v : Z) (a : Animation) : Animation :=
  mkAnimation (frameCount a) (frameTime a) (loop a) v (timer a).
Definition set_anim (a : Animation) (s : AnimatedSprite) : AnimatedSprite :=
  mkAnimatedSprite (as_sprite s) a.

(* ------------------------------------------------------------------ *)
(** ** Input *)

(** [SDL_Scancode] values used by the engine (SDL_scancode.h). *)
Definition SDL_SCANCODE_A : Z := 4.
Definition SDL_SCANCODE_D : Z := 7.
Definition SDL_SCANCODE_W : Z := 26.
Definition SDL_SCANCODE_SPACE : Z := 44.
Definition SDL_SCANCODE_RIGHT : Z := 79.
Definition SDL_SCANCODE_LEFT : Z := 80.

(** The events [SDL_PollEvent] hands to [InputState::update]. *)
Variant Event :=
| EQuit
| EKeyDown (scancode : Z)
| EKeyUp (scancode : Z)
| EMouseButtonDown (button : Z)
| EMouseButtonUp (button : Z)
| EMouseMotion (x y : Z)
| EOther.

Module InputState.

Record t := mk {
  keys : gmap Z bool;
  mouseButtons : gmap Z bool;
  mouseX : Z; mouseY : Z;
  quit : bool }.

Definition init : t := mk ∅ ∅ 0 0 false.

Definition handle (st : t) (e : Event) : t :=
  match e with
  | EQuit => mk (keys st) (mouseButtons st) (mouseX st) (mouseY st) true
  | EKeyDown s => mk (<[s := true]> (keys st)) (mouseButtons st) (mouseX st) (mouseY st) (quit st)
  | EKeyUp s => mk (<[s := false]> (keys st)) (mouseButtons st) (mouseX st) (mouseY st) (quit st)
  | EMouseButtonDown b => mk (keys st) (<[b := true]> (mouseButtons st)) (mouseX st) (mouseY st) (quit st)
  | EMouseButtonUp b => mk (keys st) (<[b := false]> (mouseButtons st)) (mouseX st) (mouseY st) (quit st)
  | EMouseMotion x y => mk (keys st) (mouseButtons st) x y (quit st)
  | EOther => st
  end.

(** [update] drains the event queue. *)
Definition update (evs : list Event) (st : t) : t := foldl handle st evs.

Definition down (st : t) (s : Z) : bool :=
  match keys st !! s with Some b => b | None => false end.

End InputState.

Module InputMap.

(** [unordered_map<string,SDL_Scancode>]: one scancode per action. *)
Abbreviation t := (gmap string Z).

Definition empty : t := ∅.

(** [map[action] = key] *)
Definition bind (action : string) (key : Z) (m : t) : t := <[action := key]> m.

Definition actionDown (st : InputState.t) (m : t) (action : string) : bool :=
  match m !! action with
  | None => false
  | Some key => InputState.down st key
  end.

End InputMap.

(* ------------------------------------------------------------------ *)
(** ** Particles *)

Record Particle := mkParticle {
  p_x : float; p_y : float; p_vx : float; p_vy : float; life : float; age : float }.

Module ParticleSystem.

Abbreviation t := (list Particle).

(** [pool.resize(maxP)] value-initialises the slots; every [age] is then
    set to [1e9f]. *)
Definition init (maxP : Z) : t :=
  replicate (Z.to_nat maxP)
    (mkParticle F32.zero F32.zero F32.zero F32.zero F32.zero (F32.ofZ 1000000000)).

(** A slot is free when [age >= life]. *)
Definition isFree (p : Particle) : bool := fge (age p) (life p).
(** A slot is simulated and drawn when [age < life]. *)
Definition isLive (p : Particle) : bool := flt (age p) (life p).

(** [findFree] from slot index [i] on: the first free index, or [-1]. *)
Fixpoint findFreeFrom (i : Z) (pool : t) : Z :=
  match pool with
  | [] => -1
  | p :: rest => if isFree p then i else findFreeFrom (i + 1) rest
  end.
Definition findFree (pool : t) : Z := findFreeFrom 0 pool.

Section Emit.
(** The C library: [rand] with its hidden state, [RAND_MAX], [cosf] and
    [sinf]. *)
Context {Rng : Type}.
Variable rand : Rng → Z * Rng.
Variable RAND_MAX : Z.
Variables cosf sinf : float → float.

(** One iteration of the body of [emit] past the [break] test. *)
Definition spawn (x y : float) (g : Rng) : Particle * Rng :=
  let '(r1, g) := rand g in
  let ang := F32.mul (F32.div (F32.ofZ r1) (F32.ofZ RAND_MAX)) (F32.lit 628318 100000) in
  let '(r2, g) := rand g in
  let sp := F32.add (F32.ofZ 50)
              (F32.mul (F32.div (F32.ofZ r2) (F32.ofZ RAND_MAX)) (F32.ofZ 200)) in
  let '(r3, g) := rand g in
  let lf := F32.ofZ (300 + int_rem r3 800) in
  (mkParticle x y (F32.mul (cosf ang) sp) (F32.mul (sinf ang) sp) lf F32.zero, g).

(** [emit(x, y, n)]: [k] iterations are left. *)
Fixpoint emitLoop (k : nat) (x y : float) (st : t * Rng) : t * Rng :=
  match k with
  | O => st
  | S k' =>
      let idx := findFree (fst st) in
      if idx <? 0 then st
      else
        let '(p, g) := spawn x y (snd st) in
        emitLoop k' x y (<[Z.to_nat idx := p]> (fst st), g)
  end.

Definition emit (x y : float) (n : Z) (st : t * Rng) : t * Rng :=
  emitLoop (Z.to_nat n) x y st.
End Emit.

Definition step (dt : double) (p : Particle) : Particle :=
  if isLive p then
    let age' := fadd_assign_d (age p) (F64.mul dt (F64.ofFloat (F32.ofZ 1000))) in
    let vy' := fadd_assign_d (p_vy p) (fmul_d (F32.ofZ 300) dt) in
    let x' := fadd_assign_d (p_x p) (fmul_d (p_vx p) dt) in
    let y' := fadd_assign_d (p_y p) (fmul_d vy' dt) in
    mkParticle x' y' (p_vx p) vy' (life p) age'
  else p.

Definition update (dt : double) (pool : t) : t := map (step dt) pool.

End ParticleSystem.

(* ------------------------------------------------------------------ *)
(** ** Engine *)

Record AABB := mkAABB { bx_x : float; bx_y : float; bx_w : float; bx_h : float }.

Module Engine.

(** The members the simulation reads and writes.  The SDL window and
    renderer, the textures and the debug counters fed by the wall clock
    are outside the simulated state; of the audio only the loaded sound
    ids and the sounds handed to the mixer are kept. *)
Record t := mk {
  screenW : Z; screenH : Z;
  world : World.t;
  particles : ParticleSystem.t;
  input : InputState.t;
  inputMap : InputMap.t;
  sounds : gset string;
  played : list string;
  running : bool;
  camX : float; camY : float }.

Definition set_world (w : World.t) (e : t) : t :=
  mk (screenW e) (screenH e) w (particles e) (input e) (inputMap e)
     (sounds e) (played e) (running e) (camX e) (camY e).
Definition set_particles (p : ParticleSystem.t) (e : t) : t :=
  mk (screenW e) (screenH e) (world e) p (input e) (inputMap e)
     (sounds e) (played e) (running e) (camX e) (camY e).
Definition set_input (i : InputState.t) (e : t) : t :=
  mk (screenW e) (screenH e) (world e) (particles e) i (inputMap e)
     (sounds e) (played e) (running e) (camX e) (camY e).
Definition set_played (l : list string) (e : t) : t :=
  mk (screenW e) (screenH e) (world e) (particles e) (input e) (inputMap e)
     (sounds e) l (running e) (camX e) (camY e).
Definition set_running (b : bool) (e : t) : t :=
  mk (screenW e) (screenH e) (world e) (particles e) (input e) (inputMap e)
     (sounds e) (played e) b (camX e) (camY e).
Definition set_cam (x y : float) (e : t) : t :=
  mk (screenW e) (screenH e) (world e) (particles e) (input e) (inputMap e)
     (sounds e) (played e) (running e) x y.

(** The bindings made by [init], in order. *)
Definition initBindings : InputMap.t :=
  InputMap.bind "jump" SDL_SCANCODE_SPACE
    (InputMap.bind "right" SDL_SCANCODE_RIGHT
      (InputMap.bind "right" SDL_SCANCODE_D
        (InputMap.bind "left" SDL_SCANCODE_LEFT
          (InputMap.bind "left" SDL_SCANCODE_A InputMap.empty)))).

(** State after the constructor and [init]. *)
Definition init (w h : Z) : t :=
  mk w h World.empty (ParticleSystem.init 2048) InputState.init initBindings
     ∅ [] false F32.zero F32.zero.

(** *** Collision *)

(** [{ t->x - c->w/2.0f + c->offx, t->y - c->h/2.0f + c->offy, c->w, c->h }] *)
Definition box (t : Transform) (c : Collider) : AABB :=
  mkAABB (F32.add (F32.sub (tr_x t) (F32.div (cl_w c) (F32.ofZ 2))) (offx c))
         (F32.add (F32.sub (tr_y t) (F32.div (cl_h c) (F32.ofZ 2))) (offy c))
         (cl_w c) (cl_h c).

Definition aabbIntersect (a b : AABB) : bool :=
  negb (flt (F32.add (bx_x a) (bx_w a)) (bx_x b)
        || flt (F32.add (bx_x b) (bx_w b)) (bx_x a)
        || flt (F32.add (bx_y a) (bx_h a)) (bx_y b)
        || flt (F32.add (bx_y b) (bx_h b)) (bx_y a)).

Definition half : float := F32.lit 1 2.

Definition delta_x (aa bb : AABB) : float :=
  F32.sub (F32.add (bx_x bb) (F32.mul (bx_w bb) half))
          (F32.add (bx_x aa) (F32.mul (bx_w aa) half)).
Definition delta_y (aa bb : AABB) : float :=
  F32.sub (F32.add (bx_y bb) (F32.mul (bx_h bb) half))
          (F32.add (bx_y aa) (F32.mul (bx_h aa) half)).
Definition overlapX (aa bb : AABB) : float :=
  F32.sub (F32.div (F32.add (bx_w aa) (bx_w bb)) (F32.ofZ 2)) (fabs (delta_x aa bb)).
Definition overlapY (aa bb : AABB) : float :=
  F32.sub (F32.div (F32.add (bx_h aa) (bx_h bb)) (F32.ofZ 2)) (fabs (delta_y aa bb)).

(** [d > 0 ? 1.0f : -1.0f] *)
Definition signOf (d : float) : float :=
  if fgt d F32.zero then F32.ofZ 1 else F32.ofZ (-1).

Definition sub_x (d : float) (t : Transform) : Transform :=
  set_tr_x (F32.sub (tr_x t) d) t.
Definition add_x (d : float) (t : Transform) : Transform :=
  set_tr_x (F32.add (tr_x t) d) t.
Definition sub_y (d : float) (t : Transform) : Transform :=
  set_tr_y (F32.sub (tr_y t) d) t.
Definition add_y (d : float) (t : Transform) : Transform :=
  set_tr_y (F32.add (tr_y t) d) t.

(** The branch [overlapX < overlapY] of [resolveCollision]. *)
Definition resolveX (aid bid : Z) (ac bc : Collider) (aa bb : AABB)
    (w : World.t) : World.t :=
  let sign := signOf (delta_x aa bb) in
  let ov := overlapX aa bb in
  let w :=
    if negb (isStatic ac) && negb (isStatic bc) then
      modTransform (add_x (F32.mul (F32.mul sign ov) half)) bid
        (modTransform (sub_x (F32.mul (F32.mul sign ov) half)) aid w)
    else if negb (isStatic ac) then modTransform (sub_x (F32.mul sign ov)) aid w
    else if negb (isStatic bc) then modTransform (add_x (F32.mul sign ov)) bid w
    else w in
  modPhysics (set_vx (F32.ofZ 0)) bid (modPhysics (set_vx (F32.ofZ 0)) aid w).

(** The [else] branch of [resolveCollision]. *)
Definition resolveY (aid bid : Z) (ac bc : Collider) (aa bb : AABB)
    (w : World.t) : World.t :=
  let sign := signOf (delta_y aa bb) in
  let ov := overlapY aa bb in
  let w :=
    if negb (isStatic ac) && negb (isStatic bc) then
      modTransform (add_y (F32.mul (F32.mul sign ov) half)) bid
        (modTransform (sub_y (F32.mul (F32.mul sign ov) half)) aid w)
    else if negb (isStatic ac) then modTransform (sub_y (F32.mul sign ov)) aid w
    else if negb (isStatic bc) then modTransform (add_y (F32.mul sign ov)) bid w
    else w in
  let w :=
    modPhysics (λ p, set_vy (F32.ofZ 0)
                       (if fgt sign (F32.ofZ 0) then set_onGround true p else p)) aid w in
  modPhysics (λ p, set_vy (F32.ofZ 0)
                     (if flt sign (F32.ofZ 0) then set_onGround true p else p)) bid w.

Definition resolveCollision (aid bid : Z) (aa bb : AABB) (w : World.t) : World.t :=
  match getCollider w aid, getTransform w aid, getCollider w bid, getTransform w bid with
  | Some ac, Some _, Some bc, Some _ =>
      if flt (overlapX aa bb) (overlapY aa bb)
      then resolveX aid bid ac bc aa bb w
      else resolveY aid bid ac bc aa bb w
  | _, _, _, _ => w
  end.

(** The inner loop of [collisionSolve] for a fixed [a]: [bs] are the
    entities [ents[j]], [j > i].  [aa] was computed when the outer
    iteration began and is not refreshed. *)
Fixpoint solveInner (a : Z) (aa : AABB) (bs : list Z) (w : World.t) : World.t :=
  match bs with
  | [] => w
  | b :: bs' =>
      let w' :=
        match getCollider w b, getTransform w b with
        | Some bc, Some bt =>
            let bb := box bt bc in
            if aabbIntersect aa bb then resolveCollision a b aa bb w else w
        | _, _ => w
        end in
      solveInner a aa bs' w'
  end.

Fixpoint solveOuter (ents : list Z) (w : World.t) : World.t :=
  match ents with
  | [] => w
  | a :: rest =>
      let w' :=
        match getCollider w a, getTransform w a with
        | Some ac, Some at_ => solveInner a (box at_ ac) rest w
        | _, _ => w
        end in
      solveOuter rest w'
  end.

Definition collisionSolve (w : World.t) : World.t := solveOuter (World.all w) w.

(** *** Scripts *)

(** [playSound(getSound(id))]: a sound that did not load is a null
    pointer and nothing is played. *)
Definition playSound (id : string) (e : t) : t :=
  if decide (id ∈ sounds e) then set_played (played e ++ [id]) e else e.

(** The player-control lambda of [createDemoScene]. *)
Definition playerControl (pid : Z) (e : t) : t :=
  match getTransform (world e) pid, getPhysics (world e) pid with
  | Some _, Some ph =>
      let speed := F32.ofZ 240 in
      let down := InputState.down (input e) in
      let left := down SDL_SCANCODE_LEFT || down SDL_SCANCODE_A in
      let right := down SDL_SCANCODE_RIGHT || down SDL_SCANCODE_D in
      let vx' := if left then SFopp speed else if right then speed else F32.ofZ 0 in
      let e := set_world (modPhysics (set_vx vx') pid (world e)) e in
      let e :=
        if (down SDL_SCANCODE_SPACE || down SDL_SCANCODE_W) && onGround ph then
          playSound "jump"
            (set_world (modPhysics (λ p, set_onGround false (set_vy (F32.ofZ (-420)) p))
                          pid (world e)) e)
        else e in
      set_world
        (modAnimatedSprite
           (λ s, set_anim (set_frameTime
                             (if fgt (fabs vx') (F32.ofZ 1)
                              then F32.lit 12 100 else F32.lit 4 10) (anim s)) s)
           pid (world e)) e
  | _, _ => e
  end.

(** [sc->onUpdate(id, dt)] *)
Definition callUpdate (f : UpdateFn) (id : Z) (dt : double) (e : t) : t :=
  match f with
  | PlayerControl pid => playerControl pid e
  | CollectibleIdle _ => e
  end.

Definition scriptStep (dt : double) (e : t) (id : Z) : t :=
  match getScript (world e) id with
  | Some sc => match onUpdate sc with Some f => callUpdate f id dt e | None => e end
  | None => e
  end.

(** *** Physics integration *)

Definition integrate (dt : double) (w : World.t) (id : Z) : World.t :=
  match getPhysics w id, getTransform w id with
  | Some ph, Some tr =>
      let vy1 := fadd_assign_d (vy ph) (fmul_d (gravity ph) dt) in
      let vx1 := fadd_assign_d (vx ph) (fmul_d (ax ph) dt) in
      let vy2 := fadd_assign_d vy1 (fmul_d (ay ph) dt) in
      let w := modPhysics (λ p, set_vy vy2 (set_vx vx1 p)) id w in
      modTransform (λ t, set_tr_y (fadd_assign_d (tr_y t) (fmul_d vy2 dt))
                           (set_tr_x (fadd_assign_d (tr_x t) (fmul_d vx1 dt)) t)) id w
  | _, _ => w
  end.

(** *** Animation *)

(** [(current + 1) % max(1, frameCount)] *)
Definition nextFrame (a : Animation) : Z :=
  int_rem (wrap32 (current a + 1)) (Z.max 1 (frameCount a)).

(** The body of the animation loop for one [Animation]. *)
Definition advance (dt : double) (a : Animation) : Animation :=
  let a := set_timer (F64.add (timer a) dt) a in
  if fge (timer a) (F64.ofFloat (frameTime a))
  then set_current (nextFrame a) (set_timer (F64.ofZ 0) a)
  else a.

Definition animate (dt : double) (w : World.t) (id : Z) : World.t :=
  modAnimatedSprite (λ s, set_anim (advance dt (anim s)) s) id w.

(** *** The fixed update *)

Definition runScripts (dt : double) (e : t) : t :=
  foldl (scriptStep dt) e (World.all (world e)).
Definition integrateAll (dt : double) (w : World.t) : World.t :=
  foldl (integrate dt) w (World.all w).
Definition animateAll (dt : double) (w : World.t) : World.t :=
  foldl (animate dt) w (World.all w).

Definition fixedUpdate (dt : double) (e : t) : t :=
  (* scripts *)
  let e := runScripts dt e in
  (* integrate physics *)
  let w := integrateAll dt (world e) in
  (* collision detection/resolution *)
  let w := collisionSolve w in
  (* animations *)
  let w := animateAll dt w in
  (* update particle system *)
  set_particles (ParticleSystem.update dt (particles e)) (set_world w e).

(** *** Camera and rendering *)

(** The first entity with both a Physics and a Transform. *)
Fixpoint findTracked (w : World.t) (ents : list Z) : option Transform :=
  match ents with
  | [] => None
  | id :: rest =>
      match getPhysics w id, getTransform w id with
      | Some _, Some tr => Some tr
      | _, _ => findTracked w rest
      end
  end.

Definition lerpStep (cam target : float) : float :=
  F32.add cam (F32.mul (F32.sub target cam) (F32.lit 12 100)).

Definition computeCamera (e : t) : t :=
  match findTracked (world e) (World.all (world e)) with
  | Some tr =>
      let targetX := F32.sub (tr_x tr) (F32.div (F32.ofZ (screenW e)) (F32.ofZ 2)) in
      let targetY := F32.sub (tr_y tr) (F32.div (F32.ofZ (screenH e)) (F32.ofZ 2)) in
      set_cam (lerpStep (camX e) targetX) (lerpStep (camY e) targetY) e
  | None => e
  end.

(** [render]: of what it does only [computeCamera] changes the state; the
    draw calls go to the SDL renderer. *)
Definition render (e : t) : t := computeCamera e.

(** *** The main loop *)

(** [1.0/60.0] and [0.25] *)
Definition fixedDt : double := F64.div (F64.ofZ 1) (F64.ofZ 60).
Definition maxAccum : double := F64.lit 25 100.

(** [if(accumulator > maxAccum) accumulator = maxAccum;] *)
Definition clamp (acc : double) : double := if fgt acc maxAccum then maxAccum else acc.

(** [while(accumulator >= fixedDt){ fixedUpdate(fixedDt); accumulator -= fixedDt; }]
    With the accumulator left and the engine, the loop returns the number
    of fixed updates it ran; [None] when the fuel did not suffice. *)
Fixpoint fixedLoop (fuel : nat) (acc : double) (e : t) : option (double * t * nat) :=
  if fge acc fixedDt then
    match fuel with
    | O => None
    | S fuel' =>
        match fixedLoop fuel' (F64.sub acc fixedDt) (fixedUpdate fixedDt e) with
        | Some (acc', e', n) => Some (acc', e', S n)
        | None => None
        end
    end
  else Some (acc, e, O).

(** What one iteration of the [while(running)] loop receives from the
    outside: the pending events and the time since the previous frame. *)
Record FrameInput := mkFrameInput { events : list Event; elapsed : double }.

(** One iteration of [while(running)] in [run]. *)
Definition frame (fuel : nat) (fi : FrameInput) (st : double * t)
    : option (double * t * nat) :=
  let '(accumulator, e) := st in
  let e := set_input (InputState.update (events fi) (input e)) e in
  let e := if InputState.quit (input e) then set_running false e else e in
  let accumulator := clamp (F64.add accumulator (elapsed fi)) in
  match fixedLoop fuel accumulator e with
  | Some (acc', e', n) => Some (acc', render e', n)
  | None => None
  end.

(** [run] over the frames the outside supplies, until [running] is false. *)
Fixpoint runFrames (fuel : nat) (fis : list FrameInput) (st : double * t)
    : option (double * t) :=
  match fis with
  | [] => Some st
  | fi :: rest =>
      if running (snd st) then
        match frame fuel fi st with
        | Some (acc', e', _) => runFrames fuel rest (acc', e')
        | None => None
        end
      else Some st
  end.

Definition run (fuel : nat) (fis : list FrameInput) (e : t) : option (double * t) :=
  runFrames fuel fis (F64.ofZ 0, set_running true e).

End Engine.

(* ------------------------------------------------------------------ *)
(** ** Observations and example states used by the properties *)

(** The state in which only key A is held. *)
Definition only_A_held : InputState.t :=
  InputState.update [EKeyDown SDL_SCANCODE_A] InputState.init.

(** A dead particle (age 301 ms of a life of 300 ms) and a live one. *)
Definition deadParticle : Particle :=
  mkParticle (F32.ofZ 3) (F32.ofZ 4) (F32.ofZ 5) (F32.ofZ 6) (F32.ofZ 300) (F32.ofZ 301).
Definition liveParticle : Particle :=
  mkParticle (F32.ofZ 3) (F32.ofZ 4) (F32.ofZ 5) (F32.ofZ 6) (F32.ofZ 300) (F32.ofZ 0).

(** Two 10x10 boxes, a moving one at (0,0) and a static one at (8,8): the
    overlap is 2 on both axes. *)
Definition tie_ac : Collider := mkCollider (F32.ofZ 10) (F32.ofZ 10) F32.zero F32.zero false.
Definition tie_bc : Collider := mkCollider (F32.ofZ 10) (F32.ofZ 10) F32.zero F32.zero true.
Definition tie_bt : Transform := mkTransform (F32.ofZ 8) (F32.ofZ 8) F32.zero F32.one F32.one.
Definition tie_ap : Physics :=
  mkPhysics (F32.ofZ 5) (F32.ofZ 7) F32.zero F32.zero F32.one (F32.ofZ 900) false.

Definition tieWorld : World.t :=
  let '(a, w) := World.create World.empty in
  let w := World.add a "transform" (CTransform Transform0) w in
  let w := World.add a "collider" (CCollider tie_ac) w in
  let w := World.add a "physics" (CPhysics tie_ap) w in
  let '(b, w) := World.create w in
  let w := World.add b "transform" (CTransform tie_bt) w in
  World.add b "collider" (CCollider tie_bc) w.

Definition tie_aa : AABB := Engine.box Transform0 tie_ac.
Definition tie_bb : AABB := Engine.box tie_bt tie_bc.

(** Two overlapping static 10x10 boxes at (0,0) and (8,6), each with a
    Physics component that moves. *)
Definition st_ac : Collider := mkCollider (F32.ofZ 10) (F32.ofZ 10) F32.zero F32.zero true.
Definition st_bt : Transform := mkTransform (F32.ofZ 8) (F32.ofZ 6) F32.zero F32.one F32.one.
Definition st_p : Physics :=
  mkPhysics (F32.ofZ 5) (F32.ofZ 7) F32.zero F32.zero F32.one (F32.ofZ 900) false.

Definition staticWorld : World.t :=
  let '(a, w) := World.create World.empty in
  let w := World.add a "transform" (CTransform Transform0) w in
  let w := World.add a "collider" (CCollider st_ac) w in
  let w := World.add a "physics" (CPhysics st_p) w in
  let '(b, w) := World.create w in
  let w := World.add b "transform" (CTransform st_bt) w in
  let w := World.add b "collider" (CCollider st_ac) w in
  World.add b "physics" (CPhysics st_p) w.

Definition st_aa : AABB := Engine.box Transform0 st_ac.
Definition st_bb : AABB := Engine.box st_bt st_ac.

(** An engine whose only entity carries an animated sprite of four frames
    shown 0.1 s each, at frame [c0] with the timer at 0. *)
Definition animSprite (c0 : Z) : AnimatedSprite :=
  mkAnimatedSprite Sprite0 (mkAnimation 4 (F32.lit 1 10) true c0 F64.zero).

Definition animEngine (c0 : Z) : Engine.t :=
  let '(id, w) := World.create World.empty in
  Engine.set_world (World.add id "sprite" (CAnimatedSprite (animSprite c0)) w)
    (Engine.init 1280 720).

(** The frame shown after [n] fixed updates of 1/60 s. *)
Definition currentAfter (n : nat) (c0 : Z) : option Z :=
  (λ s, current (anim s))
    <$> getAnimatedSprite
          (Engine.world (Nat.iter n (Engine.fixedUpdate Engine.fixedDt) (animEngine c0))) 1.

(** An animation with no frames, at index 7, whose timer is at 0.1 s. *)
Definition emptyAnim : Animation := mkAnimation 0 (F32.lit 1 10) true 7 (F64.lit 1 10).

(** The camera position. *)
Definition cam (e : Engine.t) : spec_float * spec_float := (Engine.camX e, Engine.camY e).

(** The entities before the tracked one lack a Physics or a Transform. *)
Definition untracked (w : World.t) (id : Z) : Prop :=
  getPhysics w id = None ∨ getTransform w id = None.

(** An engine with a 1280x720 viewport, the camera at (0,0) and one body
    at (740,460): the camera target is (100,100). *)
Definition camEngine : Engine.t :=
  let '(id, w) := World.create World.empty in
  let w := World.add id "transform"
             (CTransform (mkTransform (F32.ofZ 740) (F32.ofZ 460) F32.zero F32.one F32.one)) w in
  let w := World.add id "physics" (CPhysics Physics0) w in
  Engine.set_world w (Engine.init 1280 720).

(** The numbers of dead ([age >= life]) and of live ([age < life]) slots. *)
Definition deadCount (pool : ParticleSystem.t) : nat :=
  length (List.filter ParticleSystem.isFree pool).
Definition liveCount (pool : ParticleSystem.t) : nat :=
  length (List.filter ParticleSystem.isLive pool).

(** A linear congruential generator standing for [rand], and the identity
    standing for [cosf] and [sinf]. *)
Definition lcg (g : Z) : Z * Z := (g mod 2 ^ 31, (g * 1103515245 + 12345) mod 2 ^ 31).

(** The contact of two boxes in the words of the specification.  Screen
    coordinates: y grows downwards, so the lower of two bodies is the one
    with the greater centre y. *)
Module Contact.

Definition left (b : AABB) : float := bx_x b.
Definition right (b : AABB) : float := F32.add (bx_x b) (bx_w b).
Definition top (b : AABB) : float := bx_y b.
Definition bottom (b : AABB) : float := F32.add (bx_y b) (bx_h b).
Definition centreX (b : AABB) : float := F32.add (bx_x b) (F32.mul (bx_w b) (F32.lit 1 2)).
Definition centreY (b : AABB) : float := F32.add (bx_y b) (F32.mul (bx_h b) (F32.lit 1 2)).

(** The box of a body: the collider's extent centred on the transform,
    shifted by the collider's offset. *)
Definition boxOf (t : Transform) (c : Collider) : AABB :=
  mkAABB (F32.add (F32.sub (tr_x t) (F32.div (cl_w c) (F32.ofZ 2))) (offx c))
         (F32.add (F32.sub (tr_y t) (F32.div (cl_h c) (F32.ofZ 2))) (offy c))
         (cl_w c) (cl_h c).

(** Neither box lies wholly to one side of the other. *)
Definition touching (a b : AABB) : bool :=
  negb (flt (right a) (left b)) && negb (flt (right b) (left a))
  && negb (flt (bottom a) (top b)) && negb (flt (bottom b) (top a)).

(** The centre-to-centre delta from A to B, and the overlap on each axis:
    half the sum of the extents less the distance of the centres. *)
Definition dx (a b : AABB) : float := F32.sub (centreX b) (centreX a).
Definition dy (a b : AABB) : float := F32.sub (centreY b) (centreY a).
Definition depthX (a b : AABB) : float :=
  F32.sub (F32.div (F32.add (bx_w a) (bx_w b)) (F32.ofZ 2)) (fabs (dx a b)).
Definition depthY (a b : AABB) : float :=
  F32.sub (F32.div (F32.add (bx_h a) (bx_h b)) (F32.ofZ 2)) (fabs (dy a b)).


(** The direction of a delta: 1 when it is positive, else -1. *)
Definition sign (d : float) : float :=
  if fgt d F32.zero then F32.ofZ 1 else F32.ofZ (-1).

(** A transform moved by [d] along an axis, backwards or forwards. *)
Definition backX (d : float) (t : Transform) : Transform :=
  mkTransform (F32.sub (tr_x t) d) (tr_y t) (tr_rot t) (tr_sx t) (tr_sy t).
Definition forthX (d : float) (t : Transform) : Transform :=
  mkTransform (F32.add (tr_x t) d) (tr_y t) (tr_rot t) (tr_sx t) (tr_sy t).
Definition backY (d : float) (t : Transform) : Transform :=
  mkTransform (tr_x t) (F32.sub (tr_y t) d) (tr_rot t) (tr_sx t) (tr_sy t).
Definition forthY (d : float) (t : Transform) : Transform :=
  mkTransform (tr_x t) (F32.add (tr_y t) d) (tr_rot t) (tr_sx t) (tr_sy t).

(** B's centre is below A's. *)
Definition below (a b : AABB) : bool := fgt (dy a b) F32.zero.
(** B's centre is above A's. *)
Definition above (a b : AABB) : bool := flt (dy a b) F32.zero.

End Contact.

(** A call [resolveCollision(a, b, aa, bb)] of a collision pass. *)
Record Call := mkCall { call_a : Z; call_b : Z; call_aa : AABB; call_bb : AABB }.

(** A call carried out. *)
Definition replay (w : World.t) (c : Call) : World.t :=
  Engine.resolveCollision (call_a c) (call_b c) (call_aa c) (call_bb c) w.

(** The calls of a pass as the specification describes the scan: over the
    entities in order, each body A with a collider and a transform against
    every later body B with both, A's box taken when its turn begins and
    B's when the pair is tested; a pair whose boxes touch is resolved
    before the next one is tested. *)
Fixpoint innerCalls (a : Z) (aa : AABB) (bs : list Z) (w : World.t) : list Call :=
  match bs with
  | [] => []
  | b :: bs' =>
      match getCollider w b, getTransform w b with
      | Some bc, Some bt =>
          let bb := Contact.boxOf bt bc in
          if Contact.touching aa bb
          then mkCall a b aa bb
               :: innerCalls a aa bs' (Engine.resolveCollision a b aa bb w)
          else innerCalls a aa bs' w
      | _, _ => innerCalls a aa bs' w
      end
  end.

Fixpoint outerCalls (ents : list Z) (w : World.t) : list Call :=
  match ents with
  | [] => []
  | a :: rest =>
      match getCollider w a, getTransform w a with
      | Some ac, Some at_ =>
          let calls := innerCalls a (Contact.boxOf at_ ac) rest w in
          calls ++ outerCalls rest (foldl replay w calls)
      | _, _ => outerCalls rest w
      end
  end.

Definition passCalls (w : World.t) : list Call := outerCalls (World.all w) w.




(** Two coincident moving 10x10 boxes, each with a Physics component. *)
Definition levelWorld : World.t :=
  let '(a, w) := World.create World.empty in
  let w := World.add a "transform" (CTransform Transform0) w in
  let w := World.add a "collider" (CCollider tie_ac) w in
  let w := World.add a "physics" (CPhysics tie_ap) w in
  let '(b, w) := World.create w in
  let w := World.add b "transform" (CTransform Transform0) w in
  let w := World.add b "collider" (CCollider tie_ac) w in
  World.add b "physics" (CPhysics tie_ap) w.

(** The positional correction of a resolved pair along one axis, for a
    signed depth [d]: when both bodies move each takes half of it, A
    against the direction of the delta and B along it; when exactly one
    moves it takes all of it; a static body stays. *)
Definition correctedA (sub : float → Transform → Transform) (d : float)
    (ac bc : Collider) (t : Transform) : Transform :=
  if isStatic ac then t
  else if isStatic bc then sub d t
  else sub (F32.mul d (F32.lit 1 2)) t.
Definition correctedB (add : float → Transform → Transform) (d : float)
    (ac bc : Collider) (t : Transform) : Transform :=
  if isStatic bc then t
  else if isStatic ac then add d t
  else add (F32.mul d (F32.lit 1 2)) t.


(** The accumulator of [fixedLoop] on its own. *)
Fixpoint accLoop (fuel : nat) (acc : spec_float) : option (spec_float * nat) :=
  if fge acc Engine.fixedDt then
    match fuel with
    | O => None
    | S fuel' =>
        match accLoop fuel' (F64.sub acc Engine.fixedDt) with
        | Some (acc', n) => Some (acc', S n)
        | None => None
        end
    end
  else Some (acc, O).

(** [1.0/60.0] is [4803839602528529 * 2^-58]; [0.25] is [2^52 * 2^-54]. *)
Definition fixedDt_m : positive := 4803839602528529.

(** After [k] subtractions the accumulator, in units of [2^-58], is at most
    [2^56 - k * (fixedDt_m - 8)]: each subtraction removes [fixedDt_m] and
    rounding gives back at most 8. *)
Definition accInv (k : Z) (a : spec_float) : Prop :=
  ∃ m e, a = S754_finite false m e
         ∧ Z.pos (digits2_pos m) = 53 ∧ -58 ≤ e
         ∧ Z.pos m * 2 ^ (e + 58) ≤ 2 ^ 56 - k * (Z.pos fixedDt_m - 8).

(* ------------------------------------------------------------------ *)
(** ** Invariants and observations of the rest of the program *)

(** The entity list has no duplicate and every id in it was handed out
    before [nextId]. *)
Definition storeOk (w : World.t) : Prop :=
  NoDup (World.entities w) ∧ Forall (λ id, id < World.nextId w) (World.entities w).

(** The state of one key after a list of events, from its state before:
    only the events of that key matter. *)
Definition keyAfter (s : Z) (b : bool) (e : Event) : bool :=
  match e with
  | EKeyDown s' => if decide (s' = s) then true else b
  | EKeyUp s' => if decide (s' = s) then false else b
  | _ => b
  end.
Definition isQuit (e : Event) : bool := match e with EQuit => true | _ => false end.

(** What a collision pass may do to a Physics component: zero [vx] or
    [vy] and set [onGround]; and to a Transform: move it. *)
Definition velocityZeroed (p p' : Physics) : Prop :=
  (vx p' = vx p ∨ vx p' = F32.zero) ∧ (vy p' = vy p ∨ vy p' = F32.zero)
  ∧ ax p' = ax p ∧ ay p' = ay p ∧ mass p' = mass p ∧ gravity p' = gravity p
  ∧ (onGround p = true → onGround p' = true).
Definition onlyMoved (t t' : Transform) : Prop :=
  tr_rot t' = tr_rot t ∧ tr_sx t' = tr_sx t ∧ tr_sy t' = tr_sy t.
Definition passRel (id : Z) (w w' : World.t) : Prop :=
  option_Forall2 velocityZeroed (getPhysics w id) (getPhysics w' id)
  ∧ option_Forall2 onlyMoved (getTransform w id) (getTransform w' id).

(** No two different entities of the store have intersecting boxes. *)
Definition noOverlap (w : World.t) : Prop :=
  ∀ a b ac ta bc tb,
    a ∈ World.entities w → b ∈ World.entities w → a ≠ b →
    getCollider w a = Some ac → getTransform w a = Some ta →
    getCollider w b = Some bc → getTransform w b = Some tb →
    Engine.aabbIntersect (Engine.box ta ac) (Engine.box tb bc) = false.

(** Two 10x10 moving boxes 100 apart. *)
Definition apartWorld : World.t :=
  let '(a, w) := World.create World.empty in
  let w := World.add a "transform" (CTransform Transform0) w in
  let w := World.add a "collider" (CCollider tie_ac) w in
  let w := World.add a "physics" (CPhysics tie_ap) w in
  let '(b, w) := World.create w in
  let w := World.add b "transform"
             (CTransform (mkTransform (F32.ofZ 100) (F32.ofZ 0) F32.zero F32.one F32.one)) w in
  World.add b "collider" (CCollider tie_ac) w.

(** One step of the integrator on a Physics component and on the Transform
    beside it, as [fixedUpdate] writes them. *)
Definition integratedPhysics (dt : spec_float) (ph : Physics) : Physics :=
  let vy1 := fadd_assign_d (vy ph) (fmul_d (gravity ph) dt) in
  let vx1 := fadd_assign_d (vx ph) (fmul_d (ax ph) dt) in
  let vy2 := fadd_assign_d vy1 (fmul_d (ay ph) dt) in
  set_vy vy2 (set_vx vx1 ph).
Definition integratedTransform (dt : spec_float) (ph : Physics) (tr : Transform) : Transform :=
  set_tr_y (fadd_assign_d (tr_y tr) (fmul_d (vy (integratedPhysics dt ph)) dt))
    (set_tr_x (fadd_assign_d (tr_x tr) (fmul_d (vx (integratedPhysics dt ph)) dt)) tr).

(** The engine as a frame leaves it for the fixed updates: the events are
    applied and a pending quit clears [running]. *)
Definition afterInput (fi : Engine.FrameInput) (e : Engine.t) : Engine.t :=
  let e := Engine.set_input (InputState.update (Engine.events fi) (Engine.input e)) e in
  if InputState.quit (Engine.input e) then Engine.set_running false e else e.

(** The keys of the player script. *)
Definition leftHeld (st : InputState.t) : bool :=
  InputState.down st SDL_SCANCODE_LEFT || InputState.down st SDL_SCANCODE_A.
Definition rightHeld (st : InputState.t) : bool :=
  InputState.down st SDL_SCANCODE_RIGHT || InputState.down st SDL_SCANCODE_D.
Definition jumpHeld (st : InputState.t) : bool :=
  InputState.down st SDL_SCANCODE_SPACE || InputState.down st SDL_SCANCODE_W.

(** A player standing on the ground with RIGHT, LEFT and SPACE held. *)
Definition playerEngine : Engine.t :=
  let '(id, w) := World.create World.empty in
  let w := World.add id "transform" (CTransform Transform0) w in
  let w := World.add id "physics" (CPhysics (set_onGround true Physics0)) w in
  let w := World.add id "sprite" (CAnimatedSprite (animSprite 0)) w in
  let w := World.add id "script" (CScript (mkScript (Some (PlayerControl id)) None)) w in
  Engine.set_input
    (InputState.update
       [EKeyDown SDL_SCANCODE_RIGHT; EKeyDown SDL_SCANCODE_LEFT; EKeyDown SDL_SCANCODE_SPACE]
       InputState.init)
    (Engine.set_world w (Engine.init 1280 720)).

(* ------------------------------------------------------------------ *)
(** ** The demo scene *)

(** One ground tile of [createDemoScene]: a 64x64 static box with a sprite,
    centred in cell [(cx, cy)]. *)
Definition addTile (w : World.t) (cx cy : Z) : World.t :=
  let '(id, w) := World.create w in
  let w := World.add id "transform"
             (CTransform (mkTransform (F32.ofZ (cx * 64 + 64 / 2)) (F32.ofZ (cy * 64 + 64 / 2))
                            F32.zero F32.one F32.one)) w in
  let w := World.add id "sprite"
             (CSprite (mkSprite "tiles" 0 0 64 64 true F32.zero)) w in
  World.add id "collider"
    (CCollider (mkCollider (F32.ofZ 64) (F32.ofZ 64) F32.zero F32.zero true)) w.

(** The player: Transform at (100,100), a four-frame sprite, Physics, a
    40x40 moving collider and the control script. *)
Definition addPlayer (w : World.t) : World.t :=
  let '(pid, w) := World.create w in
  let w := World.add pid "transform"
             (CTransform (mkTransform (F32.ofZ 100) (F32.ofZ 100) F32.zero F32.one F32.one)) w in
  let w := World.add pid "sprite"
             (CAnimatedSprite
                (mkAnimatedSprite (mkSprite "player" 0 0 48 48 true F32.zero)
                   (mkAnimation 4 (F32.lit 12 100) true 0 F64.zero))) w in
  let w := World.add pid "physics"
             (CPhysics (mkPhysics (F32.ofZ 0) (F32.ofZ 0) F32.zero F32.zero F32.one
                          (F32.ofZ 900) false)) w in
  let w := World.add pid "collider"
             (CCollider (mkCollider (F32.ofZ 40) (F32.ofZ 40) F32.zero F32.zero false)) w in
  World.add pid "script" (CScript (mkScript (Some (PlayerControl pid)) None)) w.

Definition addCamera (w : World.t) : World.t :=
  let '(camId, w) := World.create w in
  let w := World.add camId "transform"
             (CTransform (mkTransform (F32.ofZ 0) (F32.ofZ 0) F32.zero F32.one F32.one)) w in
  World.add camId "camera" (CCamera (mkCameraComp (F32.lit 12 100) F32.one)) w.

(** Collectible [i]: a 32x32 moving collider at [(400 + i*80, 200)] with a
    sprite and a script that does nothing. *)
Definition addCollectible (w : World.t) (i : Z) : World.t :=
  let '(id, w) := World.create w in
  let w := World.add id "transform"
             (CTransform (mkTransform (F32.ofZ (400 + i * 80)) (F32.ofZ 200)
                            F32.zero F32.one F32.one)) w in
  let w := World.add id "sprite" (CSprite (mkSprite "tiles" 0 0 32 32 true F32.zero)) w in
  let w := World.add id "collider"
             (CCollider (mkCollider (F32.ofZ 32) (F32.ofZ 32) F32.zero F32.zero false)) w in
  World.add id "script" (CScript (mkScript (Some (CollectibleIdle id)) None)) w.

(** The scene [createDemoScene] builds in the store: 20x4 ground tiles
    (columns outermost), the player, the camera entity and five
    collectibles. *)
Definition demoWorld (w : World.t) : World.t :=
  let w := foldl (λ w cx, foldl (λ w cy, addTile w cx cy) w (seqZ 8 4)) w (seqZ 0 20) in
  let w := addPlayer w in
  let w := addCamera w in
  foldl addCollectible w (seqZ 0 5).

(** [createDemoScene]; the background music, when loaded, is handed to the
    mixer. *)
Definition createDemoScene (e : Engine.t) : Engine.t :=
  Engine.playSound "bg" (Engine.set_world (demoWorld (Engine.world e)) e).

(** The engine as [main] has it when [run] starts. *)
Definition demoEngine : Engine.t := createDemoScene (Engine.init 1280 720).

(** The entities of the store, in order, that carry a Physics; a static
    collider; a moving collider. *)
Definition withPhysics (w : World.t) : list Z :=
  filter (λ id, is_Some (getPhysics w id)) (World.entities w).
Definition withCollider (static : bool) (w : World.t) : list Z :=
  filter (λ id, isStatic <$> getCollider w id = Some static) (World.entities w).

(* ------------------------------------------------------------------ *)
(** ** The unchecked casts *)

(** [World::get<T>] returns [static_pointer_cast<T>] of the slot without
    looking at the object in it (line 168); for an object that is not a
    [T] the cast is undefined, and so is all that follows it.  The typed
    getters of the model answer [None] there, so the model describes the
    program on the stores on which no such cast is made, and only on
    them.  A fixed update casts, for every listed entity, "script" to
    [Script], "physics" to [Physics], "transform" to [Transform],
    "collider" to [Collider] and "sprite" to [AnimatedSprite]; the player
    script casts "transform", "physics" and "sprite" of the player it
    captured.  A slot is valid for a cast when it is absent (the getter
    returns null before casting) or holds an object of the target type. *)
Definition validTransform (w : World.t) (id : Z) : bool :=
  match World.get w id "transform" with
  | Some (CTransform _) | None => true
  | Some _ => false
  end.
Definition validPhysics (w : World.t) (id : Z) : bool :=
  match World.get w id "physics" with
  | Some (CPhysics _) | None => true
  | Some _ => false
  end.
Definition validCollider (w : World.t) (id : Z) : bool :=
  match World.get w id "collider" with
  | Some (CCollider _) | None => true
  | Some _ => false
  end.
Definition validScript (w : World.t) (id : Z) : bool :=
  match World.get w id "script" with
  | Some (CScript _) | None => true
  | Some _ => false
  end.
(** A plain [Sprite] is not an [AnimatedSprite]. *)
Definition validAnimatedSprite (w : World.t) (id : Z) : bool :=
  match World.get w id "sprite" with
  | Some (CAnimatedSprite _) | None => true
  | Some _ => false
  end.

(** The casts of the loops of [fixedUpdate] over entity [id]. *)
Definition loopCastsValid (w : World.t) (id : Z) : bool :=
  validScript w id && validPhysics w id && validTransform w id
  && validCollider w id && validAnimatedSprite w id.

(** The casts of the player script for the player it captured. *)
Definition playerCastsValid (w : World.t) (pid : Z) : bool :=
  validTransform w pid && validPhysics w pid && validAnimatedSprite w pid.

(** The players captured by the script of entity [id], if it has one. *)
Definition capturedBy (w : World.t) (id : Z) : list Z :=
  match getScript w id with
  | Some sc =>
      match onUpdate sc with
      | Some (PlayerControl pid) => [pid]
      | _ => []
      end
  | None => []
  end.

(** Every cast of a fixed update is valid. *)
Definition castsValid (w : World.t) : bool :=
  forallb (loopCastsValid w) (World.all w)
  && forallb (playerCastsValid w) (concat (map (capturedBy w) (World.all w))).

(** The entities whose "sprite" slot the animation loop casts to an
    [AnimatedSprite] it is not. *)
Definition miscastSprites (w : World.t) : list Z :=
  List.filter (λ id, negb (validAnimatedSprite w id)) (World.all w).

(** [fixedUpdate] after its script loop. *)
Definition afterScripts (dt : double) (e : Engine.t) : Engine.t :=
  Engine.set_particles (ParticleSystem.update dt (Engine.particles e))
    (Engine.set_world
       (Engine.animateAll dt
          (Engine.collisionSolve (Engine.integrateAll dt (Engine.world e)))) e).

(** What a fixed update leaves as it was, for entity [id]. *)
Definition keptByUpdate (id : Z) (e e' : Engine.t) : Prop :=
  World.entities (Engine.world e') = World.entities (Engine.world e)
  ∧ World.nextId (Engine.world e') = World.nextId (Engine.world e)
  ∧ getCollider (Engine.world e') id = getCollider (Engine.world e) id
  ∧ getScript (Engine.world e') id = getScript (Engine.world e) id
  ∧ Engine.input e' = Engine.input e
  ∧ Engine.inputMap e' = Engine.inputMap e
  ∧ Engine.running e' = Engine.running e
  ∧ (Engine.screenW e', Engine.screenH e') = (Engine.screenW e, Engine.screenH e)
  ∧ Engine.sounds e' = Engine.sounds e.

(** The world the animation loop of the first fixed update of the demo
    scene starts from. *)
Definition demoAtAnimation : World.t :=
  Engine.collisionSolve
    (Engine.integrateAll Engine.fixedDt
       (Engine.world (Engine.runScripts Engine.fixedDt demoEngine))).

(* ------------------------------------------------------------------ *)
(** ** Text files: [Config] and [Tilemap] *)

From Stdlib Require Import Ascii.

(** A [std::string] is a list of characters; [readFileAll] is the text the
    file system hands over ([""] for a file that cannot be opened). *)
Abbreviation text := (list Ascii.ascii).

Module Str.

Definition NL : Ascii.ascii := "010"%char.

(** [while (getline(is, line, delim))]: the pieces between delimiters; a
    piece is also delivered when the text ends without a delimiter, but
    not an empty one at the very end. *)
Fixpoint getlineAll (delim : Ascii.ascii) (cur : text) (s : text) : list text :=
  match s with
  | [] => match cur with [] => [] | _ => [rev cur] end
  | c :: s' =>
      if Ascii.eqb c delim then rev cur :: getlineAll delim [] s'
      else getlineAll delim (c :: cur) s'
  end.
Definition getlines (s : text) : list text := getlineAll NL [] s.

(** The characters of [" \t\r\n"]. *)
Definition isBlank (c : Ascii.ascii) : bool :=
  Ascii.eqb c " " || Ascii.eqb c "009" || Ascii.eqb c "013" || Ascii.eqb c "010".

(** [s.find_first_not_of(" \t\r\n")], counting from index [i]. *)
Fixpoint find_first_not_of (i : nat) (s : text) : option nat :=
  match s with
  | [] => None
  | c :: s' => if isBlank c then find_first_not_of (S i) s' else Some i
  end.

(** [s.find_last_not_of(" \t\r\n")]: [best] is the last index found so far. *)
Fixpoint find_last_not_of (i : nat) (best : option nat) (s : text) : option nat :=
  match s with
  | [] => best
  | c :: s' => find_last_not_of (S i) (if isBlank c then best else Some i) s'
  end.

(** [s.substr(a, n)] and [s.substr(a)] *)
Definition substr (a n : nat) (s : text) : text := take n (drop a s).
Definition substrFrom (a : nat) (s : text) : text := drop a s.

(** [s.find(c)] *)
Fixpoint find (c : Ascii.ascii) (i : nat) (s : text) : option nat :=
  match s with
  | [] => None
  | d :: s' => if Ascii.eqb d c then Some i else find c (S i) s'
  end.

End Str.

(** What [std::stoi] does: a value, or one of its two exceptions. *)
Variant StoiResult := StoiOk (v : Z) | invalid_argument | out_of_range.

(** [isspace] in the C locale. *)
Definition isspace (c : Ascii.ascii) : bool :=
  let n := Z.of_nat (Ascii.nat_of_ascii c) in (n =? 32) || ((9 <=? n) && (n <=? 13)).

Definition digitVal (c : Ascii.ascii) : option Z :=
  let n := Z.of_nat (Ascii.nat_of_ascii c) in
  if (48 <=? n) && (n <=? 57) then Some (n - 48) else None.

(** The value of the longest run of decimal digits at the head of [s],
    continuing [acc]; [None] when [s] does not start with a digit and
    [started] is false. *)
Fixpoint digitsVal (started : bool) (acc : Z) (s : text) : option Z :=
  match s with
  | [] => if started then Some acc else None
  | c :: s' =>
      match digitVal c with
      | Some d => digitsVal true (acc * 10 + d) s'
      | None => if started then Some acc else None
      end
  end.

(** The white space [strtol] skips first. *)
Fixpoint skipSpace (s : text) : text :=
  match s with
  | c :: r => if isspace c then skipSpace r else s
  | [] => []
  end.

(** [strtol(s, &end, 10)] before any range check: leading white space, an
    optional sign, digits. *)
Definition parseLong (s : text) : option Z :=
  let s := skipSpace s in
  match s with
  | c :: r =>
      if Ascii.eqb c "-" then Z.opp <$> digitsVal false 0 r
      else if Ascii.eqb c "+" then digitsVal false 0 r
      else digitsVal false 0 s
  | [] => None
  end.

(** [std::stoi(s)] *)
Definition stoi (s : text) : StoiResult :=
  match parseLong s with
  | None => invalid_argument
  | Some v => if (INT_MIN <=? v) && (v <=? INT_MAX) then StoiOk v else out_of_range
  end.

(** [atoi(s)]: [(int) strtol(s, NULL, 10)], 0 when nothing converts.  Out
    of the range of [long] [strtol] saturates; the C standard leaves [atoi]
    undefined there and the conversion to [int] is the usual truncation. *)
Definition atoi (s : text) : Z :=
  match parseLong s with
  | None => 0
  | Some v => wrap32 (Z.max (- 2 ^ 63) (Z.min (2 ^ 63 - 1) v))
  end.

Module Config.

(** [unordered_map<string,string> data] *)
Abbreviation t := (gmap string string).

Definition empty : t := ∅.

(** The [trim] lambda of [Config::load]. *)
Definition trim (s : text) : text :=
  match Str.find_first_not_of 0 s with
  | None => []
  | Some a =>
      match Str.find_last_not_of 0 None s with
      | Some b => Str.substr a (b - a + 1) s
      | None => []
      end
  end.

(** The body of the [while (getline(iss, line))] loop of [load]. *)
Definition loadLine (data : t) (line : text) : t :=
  let line := trim line in
  match line with
  | [] => data
  | c :: _ =>
      if Ascii.eqb c "#" then data
      else
        match Str.find "=" 0 line with
        | None => data
        | Some eq =>
            let k := trim (Str.substr 0 eq line) in
            let v := trim (Str.substrFrom (eq + 1) line) in
            <[String.string_of_list_ascii k := String.string_of_list_ascii v]> data
        end
  end.

(** [load], given the text [readFileAll] returned. *)
Definition load (txt : text) (data : t) : bool * t :=
  match txt with
  | [] => (false, data)
  | _ => (true, foldl loadLine data (Str.getlines txt))
  end.

Definition get (k : string) (def : string) (data : t) : string :=
  match data !! k with Some v => v | None => def end.

Definition getInt (k : string) (def : Z) (data : t) : StoiResult :=
  match String.list_ascii_of_string (get k "" data) with
  | [] => StoiOk def
  | s => stoi s
  end.

End Config.

Module Tilemap.

Record t := mk { rows : Z; cols : Z; data : list (list Z) }.

Definition empty : t := mk 0 0 [].

(** The body of the outer loop of [loadCSV]. *)
Definition loadRow (tm : t) (line : text) : t :=
  match line with
  | [] => tm
  | _ =>
      let row := map atoi (Str.getlineAll "," [] line) in
      mk (wrap32 (rows tm + 1))
         (if cols tm =? 0 then wrap32 (Z.of_nat (length row)) else cols tm)
         (data tm ++ [row])
  end.

Definition loadCSV (txt : text) (tm : t) : bool * t :=
  match txt with
  | [] => (false, tm)
  | _ => (true, foldl loadRow (mk 0 0 []) (Str.getlines txt))
  end.

(** [get(r, c)]; [None] is a read past the end of a vector, which the
    source does not guard against. *)
Definition get (r c : Z) (tm : t) : option Z :=
  if (r <? 0) || (rows tm <=? r) || (c <? 0) || (cols tm <=? c) then Some 0
  else data tm !! Z.to_nat r ≫= (λ row, row !! Z.to_nat c).

End Tilemap.

(** Texts for the examples. *)
Definition txt (s : string) : text := String.list_ascii_of_string s.

(* ------------------------------------------------------------------ *)
(** ** Resources and audio *)

(** What the image and mixer libraries hand back: a surface with its size,
    and opaque handles for a texture, a chunk and a piece of music.  A
    null pointer is [None]. *)
Record Surface := { surf_id : Z; surf_w : Z; surf_h : Z }.
Record Texture := { tex : Z; tex_w : Z; tex_h : Z }.
Record Sound := { chunk : option Z; music : option Z }.

Module ResourceManager.

Record t := mk {
  textures : gmap string Texture;
  sounds : gmap string Sound;
  audioEnabled : bool }.

(** As constructed: nothing loaded, [audioEnabled = true]. *)
Definition fresh : t := mk ∅ ∅ true.

Definition setAudioEnabled (v : bool) (rm : t) : t :=
  mk (textures rm) (sounds rm) v.

Definition getTexture (id : string) (rm : t) : option Texture := textures rm !! id.
Definition getSound (id : string) (rm : t) : option Sound := sounds rm !! id.

Section Loaders.

(** The files as the libraries find them. *)
Variable IMG_Load : string → option Surface.
Variable SDL_CreateTextureFromSurface : Surface → option Z.
Variable Mix_LoadMUS : string → option Z.
Variable Mix_LoadWAV : string → option Z.

Definition loadTexture (id path : string) (rm : t) : option Texture * t :=
  match textures rm !! id with
  | Some t => (Some t, rm)
  | None =>
      match IMG_Load path with
      | None => (None, rm)
      | Some surf =>
          match SDL_CreateTextureFromSurface surf with
          | None => (None, rm)
          | Some h =>
              let t := Build_Texture h (surf_w surf) (surf_h surf) in
              (Some t, mk (<[id := t]> (textures rm)) (sounds rm) (audioEnabled rm))
          end
      end
  end.

Definition loadSound (id path : string) (mus : bool) (rm : t) : option Sound * t :=
  if negb (audioEnabled rm) then (None, rm)
  else
    match sounds rm !! id with
    | Some s => (Some s, rm)
    | None =>
        let s := if mus then Build_Sound None (Mix_LoadMUS path)
                 else Build_Sound (Mix_LoadWAV path) None in
        if (mus && negb (bool_decide (is_Some (music s))))
           || (negb mus && negb (bool_decide (is_Some (chunk s))))
        then (None, rm)
        else (Some s, mk (textures rm) (<[id := s]> (sounds rm)) (audioEnabled rm))
    end.

(** [Engine::loadDefaultAssets] on the engine's resource manager. *)
Definition loadDefaultAssets (audioAvailable : bool) (rm : t) : t :=
  let rm := snd (loadTexture "player" "assets/player.png" rm) in
  let rm := snd (loadTexture "tiles" "assets/tiles.png" rm) in
  let rm := snd (loadTexture "font" "assets/font.png" rm) in
  if audioAvailable then
    let rm := snd (loadSound "bg" "assets/bg.ogg" true rm) in
    snd (loadSound "jump" "assets/jump.wav" false rm)
  else rm.

(** The resource manager [Engine::init] and [loadDefaultAssets] leave, for
    an audio device that did or did not open. *)
Definition defaultResources (audioAvailable : bool) : t :=
  loadDefaultAssets audioAvailable (setAudioEnabled audioAvailable fresh).

End Loaders.

End ResourceManager.

Module AudioManager.

(** What reaches the mixer. *)
Variant Call := PlayChannel (chunk : Z) | PlayMusic (music : Z).

Definition playSound (s : option Sound) : list Call :=
  match s with
  | Some s => match chunk s with Some c => [PlayChannel c] | None => [] end
  | None => []
  end.

Definition playMusic (s : option Sound) : list Call :=
  match s with
  | Some s => match music s with Some m => [PlayMusic m] | None => [] end
  | None => []
  end.

End AudioManager.

(** Observations on texts. *)

(** Lines joined as a text file has them, each ended by a newline. *)
Definition unlines (ls : list text) : text :=
  concat (map (λ l, l ++ [Str.NL]) ls).

Definition allBlank (s : text) : Prop := Forall (λ c, Str.isBlank c = true) s.

(** No blank character at either end. *)
Definition trimmed (s : text) : Prop :=
  (∀ c, head s = Some c → Str.isBlank c = false)
  ∧ (∀ c, last s = Some c → Str.isBlank c = false).

(** A line [Config::load] passes over. *)
Definition ignoredLine (line : text) : Prop :=
  let l := Config.trim line in
  l = [] ∨ head l = Some "#"%char ∨ ("="%char ∉ l).

Definition chars (s : string) : text := String.list_ascii_of_string s.
Definition str (s : text) : string := String.string_of_list_ascii s.

Definition isDigit (c : Ascii.ascii) : Prop := is_Some (digitVal c).

(** The number a run of decimal digits denotes. *)
Definition decimal (ds : text) : Z :=
  foldl (λ a c, a * 10 + default 0 (digitVal c)) 0 ds.

(** The cells of a line of a CSV file. *)
Definition cells (line : text) : list text := Str.getlineAll "," [] line.

(** Blank characters that do not end a line. *)
Definition padding (p : text) : Prop := allBlank p ∧ Str.NL ∉ p.

(** What [Config::load] stores: a key and a value without blanks at their
    ends, the key without ['='] and not starting a comment. *)
Definition wellFormedEntry (k v : text) : Prop :=
  trimmed k ∧ trimmed v ∧ ("="%char ∉ k) ∧ head k ≠ Some "#"%char.

Definition configSample : text := txt "# window
width = 1280
 title=  My Game  
novalue
width=800px
empty=
".

Definition commentsOnly : text := txt "# nothing here

novalue
   
".

Definition validKey (k : text) : Prop :=
  trimmed k ∧ k ≠ [] ∧ ("="%char ∉ k) ∧ head k ≠ Some "#"%char ∧ (Str.NL ∉ k).

Definition validValue (v : text) : Prop := trimmed v ∧ (Str.NL ∉ v).

(** [ws sgn ds rest]: white space, an optional sign, decimal digits and
    whatever follows them, split where [strtol] splits. *)
Definition numeral (ws sgn ds rest : text) : Prop :=
  Forall (λ c, isspace c = true) ws
  ∧ (sgn = [] ∨ sgn = ["-"%char] ∨ sgn = ["+"%char])
  ∧ Forall isDigit ds
  ∧ (∀ c, head rest = Some c → digitVal c = None)
  ∧ (sgn = [] → ds = [] → ∀ c, head rest = Some c →
       isspace c = false ∧ c ≠ "-"%char ∧ c ≠ "+"%char).

(** The integer [std::stoi] makes of such a text. *)
Definition numeralValue (sgn ds : text) : StoiResult :=
  match ds with
  | [] => invalid_argument
  | _ =>
      let n := if decide (sgn = ["-"%char]) then - decimal ds else decimal ds in
      if (INT_MIN <=? n) && (n <=? INT_MAX) then StoiOk n else out_of_range
  end.

(** The lines of a CSV text that make a row. *)
Definition tileRows (txt : text) : list text :=
  filter (λ l, l ≠ []) (Str.getlines txt).

(** The width [loadCSV] records: the number of cells of the first row. *)
Definition tileCols (txt : text) : nat :=
  match tileRows txt with [] => 0%nat | l :: _ => length (cells l) end.

Definition tileSample : text := txt "1,2,3

4,5,6
".

Definition raggedSample : text := txt "1,2,3
4,5
".

(* ================================================================== *)
(** * Properties *)

(** ** Comparisons of floating-point data *)

Lemma SFcompare_swap (x y : spec_float) :
  SFcompare y x = CompOpp <$> SFcompare x y.
Proof.
  destruct x as [[]|[]| |[] mx ex], y as [[]|[]| |[] my ey]; try reflexivity;
    unfold SFcompare; rewrite (Z.compare_antisym ex ey);
    destruct (ex ?= ey); try reflexivity;
    cbn [CompOpp fmap option_fmap option_map];
    pose proof (Pos.compare_cont_antisym mx my Eq) as Hm; cbn [CompOpp] in Hm;
    rewrite <- Hm; destruct (Pos.compare_cont Eq mx my); reflexivity.
Qed.

Lemma fge_not_flt (a b : spec_float) : fge a b = true → flt a b = false.
Proof.
  unfold fge, flt, SFleb, SFltb. rewrite (SFcompare_swap b a).
  destruct (SFcompare b a) as [[]|]; simpl; congruence.
Qed.

Lemma feq_not_flt (a b : spec_float) : SFeqb a b = true → flt a b = false.
Proof.
  unfold flt, SFeqb, SFltb. destruct (SFcompare a b) as [[]|]; congruence.
Qed.

(** ** The input map *)

Lemma actionDown_bind (st : InputState.t) (m : InputMap.t) (action : string) (key : Z) :
  InputMap.actionDown st (InputMap.bind action key m) action = InputState.down st key.
Proof.
  unfold InputMap.actionDown, InputMap.bind. by rewrite lookup_insert_eq.
Qed.

(** An action has one bound key: a later [bind] of the same action replaces
    the earlier one, so that of the bindings of [init] "left" is down
    exactly when LEFT is. *)
Lemma bind_overwrites :
  (∀ (st : InputState.t) (m : InputMap.t) (action : string) (k1 k2 : Z),
     InputMap.actionDown st (InputMap.bind action k2 (InputMap.bind action k1 m)) action
     = InputState.down st k2)
  ∧ (∀ st : InputState.t,
       InputMap.actionDown st Engine.initBindings "left"
       = InputState.down st SDL_SCANCODE_LEFT).
Proof.
  split.
  - intros. apply actionDown_bind.
  - intros st. unfold InputMap.actionDown, Engine.initBindings, InputMap.bind.
    rewrite !lookup_insert_ne by done. by rewrite lookup_insert_eq.
Qed.

(** C8 (what the code does instead): [init] binds "left" to A and then to
    LEFT, and an action bound to several keys should be down when any of
    them is; yet with A held and LEFT released the action is not down,
    because the second [bind] replaced the first.  With LEFT held it is
    down. *)
Theorem C8_left_ignores_A :
  InputState.down only_A_held SDL_SCANCODE_A = true
  ∧ InputState.down only_A_held SDL_SCANCODE_LEFT = false
  ∧ InputMap.actionDown only_A_held
      (InputMap.bind "left" SDL_SCANCODE_LEFT
         (InputMap.bind "left" SDL_SCANCODE_A InputMap.empty)) "left" = false
  ∧ InputMap.actionDown only_A_held Engine.initBindings "left" = false
  ∧ InputMap.actionDown
      (InputState.update [EKeyDown SDL_SCANCODE_LEFT] InputState.init)
      Engine.initBindings "left" = true.
Proof. repeat split; vm_compute; reflexivity. Qed.

(** ** The particle pool: update *)

Lemma step_free (dt : spec_float) (p : Particle) :
  ParticleSystem.isFree p = true → ParticleSystem.step dt p = p.
Proof.
  intros H. unfold ParticleSystem.step, ParticleSystem.isLive.
  by rewrite (fge_not_flt _ _ H).
Qed.

(** C10: [update] leaves every dead slot ([age >= life]) as it was, for
    every [dt]; the pool keeps its size. *)
Theorem C10_update_keeps_dead_slots (dt : spec_float) (pool : ParticleSystem.t)
    (i : nat) (p : Particle) :
  pool !! i = Some p →
  ParticleSystem.isFree p = true →
  ParticleSystem.update dt pool !! i = Some p
  ∧ length (ParticleSystem.update dt pool) = length pool.
Proof.
  intros Hi Hfree. unfold ParticleSystem.update. split.
  - rewrite list_lookup_fmap, Hi. simpl. by rewrite step_free.
  - apply length_map.
Qed.

Lemma C10_witness :
  ParticleSystem.update Engine.fixedDt [liveParticle; deadParticle] !! 1%nat
  = Some deadParticle
  ∧ length (ParticleSystem.update Engine.fixedDt [liveParticle; deadParticle])
    = length [liveParticle; deadParticle].
Proof.
  apply (C10_update_keeps_dead_slots Engine.fixedDt [liveParticle; deadParticle]
           1%nat deadParticle); reflexivity.
Defined.

(** ** The entity store: reads after writes *)

Lemma get_add (w : World.t) (id id' : Z) (name name' : string) (c : Component) :
  World.get (World.add id name c w) id' name'
  = if decide (id = id' ∧ name = name') then Some c else World.get w id' name'.
Proof.
  unfold World.get, World.add; simpl.
  destruct (decide (id = id')) as [->|Hid].
  - rewrite lookup_insert_eq; simpl.
    destruct (decide (name = name')) as [->|Hn].
    + rewrite lookup_insert_eq. by rewrite decide_True.
    + rewrite lookup_insert_ne by done. rewrite decide_False by tauto.
      destruct (World.components w !! id'); simpl; [done | apply lookup_empty].
  - rewrite lookup_insert_ne by done. rewrite decide_False by tauto. done.
Qed.

Lemma get_add_other_name (w : World.t) (id id' : Z) (name name' : string) (c : Component) :
  name ≠ name' → World.get (World.add id name c w) id' name' = World.get w id' name'.
Proof. intros H. rewrite get_add. rewrite decide_False by tauto. done. Qed.

Lemma entities_add (w : World.t) (id : Z) (name : string) (c : Component) :
  World.entities (World.add id name c w) = World.entities w.
Proof. reflexivity. Qed.

Ltac unfold_getters :=
  unfold getTransform, getPhysics, getCollider, getScript, getAnimatedSprite, getSprite.

Ltac other_slot :=
  intros; unfold modTransform, modPhysics, modAnimatedSprite;
  repeat case_match; try reflexivity;
  unfold_getters; rewrite get_add_other_name by discriminate; reflexivity.

Lemma getTransform_modPhysics f id w id' :
  getTransform (modPhysics f id w) id' = getTransform w id'.
Proof. other_slot. Qed.
Lemma getCollider_modPhysics f id w id' :
  getCollider (modPhysics f id w) id' = getCollider w id'.
Proof. other_slot. Qed.
Lemma getAnimatedSprite_modPhysics f id w id' :
  getAnimatedSprite (modPhysics f id w) id' = getAnimatedSprite w id'.
Proof. other_slot. Qed.
Lemma getScript_modPhysics f id w id' :
  getScript (modPhysics f id w) id' = getScript w id'.
Proof. other_slot. Qed.
Lemma getPhysics_modTransform f id w id' :
  getPhysics (modTransform f id w) id' = getPhysics w id'.
Proof. other_slot. Qed.
Lemma getCollider_modTransform f id w id' :
  getCollider (modTransform f id w) id' = getCollider w id'.
Proof. other_slot. Qed.
Lemma getAnimatedSprite_modTransform f id w id' :
  getAnimatedSprite (modTransform f id w) id' = getAnimatedSprite w id'.
Proof. other_slot. Qed.
Lemma getScript_modTransform f id w id' :
  getScript (modTransform f id w) id' = getScript w id'.
Proof. other_slot. Qed.
Lemma getPhysics_modAnimatedSprite f id w id' :
  getPhysics (modAnimatedSprite f id w) id' = getPhysics w id'.
Proof. other_slot. Qed.
Lemma getTransform_modAnimatedSprite f id w id' :
  getTransform (modAnimatedSprite f id w) id' = getTransform w id'.
Proof. other_slot. Qed.
Lemma getCollider_modAnimatedSprite f id w id' :
  getCollider (modAnimatedSprite f id w) id' = getCollider w id'.
Proof. other_slot. Qed.
Lemma getScript_modAnimatedSprite f id w id' :
  getScript (modAnimatedSprite f id w) id' = getScript w id'.
Proof. other_slot. Qed.

Lemma getPhysics_modPhysics f id w id' :
  getPhysics (modPhysics f id w) id'
  = if decide (id = id') then f <$> getPhysics w id' else getPhysics w id'.
Proof.
  unfold modPhysics. destruct (getPhysics w id) as [p|] eqn:Hp.
  - unfold getPhysics at 1. rewrite get_add.
    destruct (decide (id = id')) as [<-|Hne].
    + rewrite decide_True by done. by rewrite Hp.
    + rewrite decide_False by tauto. done.
  - destruct (decide (id = id')) as [<-|Hne]; [by rewrite Hp | done].
Qed.

Lemma getTransform_modTransform f id w id' :
  getTransform (modTransform f id w) id'
  = if decide (id = id') then f <$> getTransform w id' else getTransform w id'.
Proof.
  unfold modTransform. destruct (getTransform w id) as [p|] eqn:Hp.
  - unfold getTransform at 1. rewrite get_add.
    destruct (decide (id = id')) as [<-|Hne].
    + rewrite decide_True by done. by rewrite Hp.
    + rewrite decide_False by tauto. done.
  - destruct (decide (id = id')) as [<-|Hne]; [by rewrite Hp | done].
Qed.

Lemma getAnimatedSprite_modAnimatedSprite f id w id' :
  getAnimatedSprite (modAnimatedSprite f id w) id'
  = if decide (id = id') then f <$> getAnimatedSprite w id' else getAnimatedSprite w id'.
Proof.
  unfold modAnimatedSprite. destruct (getAnimatedSprite w id) as [p|] eqn:Hp.
  - unfold getAnimatedSprite at 1. rewrite get_add.
    destruct (decide (id = id')) as [<-|Hne].
    + rewrite decide_True by done. by rewrite Hp.
    + rewrite decide_False by tauto. done.
  - destruct (decide (id = id')) as [<-|Hne]; [by rewrite Hp | done].
Qed.

Lemma entities_modTransform f id w :
  World.entities (modTransform f id w) = World.entities w.
Proof. unfold modTransform. by case_match. Qed.
Lemma entities_modPhysics f id w :
  World.entities (modPhysics f id w) = World.entities w.
Proof. unfold modPhysics. by case_match. Qed.
Lemma entities_modAnimatedSprite f id w :
  World.entities (modAnimatedSprite f id w) = World.entities w.
Proof. unfold modAnimatedSprite. by case_match. Qed.

Create Rewrite HintDb store.
#[global] Hint Rewrite
  getTransform_modPhysics getCollider_modPhysics getAnimatedSprite_modPhysics
  getScript_modPhysics getPhysics_modTransform getCollider_modTransform
  getAnimatedSprite_modTransform getScript_modTransform
  getPhysics_modAnimatedSprite getTransform_modAnimatedSprite
  getCollider_modAnimatedSprite getScript_modAnimatedSprite
  getPhysics_modPhysics getTransform_modTransform
  getAnimatedSprite_modAnimatedSprite
  entities_modTransform entities_modPhysics entities_modAnimatedSprite : store.

(** ** Collision resolution *)

Lemma resolveCollision_branch (w : World.t) (aid bid : Z) (aa bb : AABB)
    (ac bc : Collider) (at_ bt : Transform) :
  getCollider w aid = Some ac → getTransform w aid = Some at_ →
  getCollider w bid = Some bc → getTransform w bid = Some bt →
  Engine.resolveCollision aid bid aa bb w
  = if flt (Engine.overlapX aa bb) (Engine.overlapY aa bb)
    then Engine.resolveX aid bid ac bc aa bb w
    else Engine.resolveY aid bid ac bc aa bb w.
Proof. intros Hac Hat Hbc Hbt. unfold Engine.resolveCollision. by rewrite Hac, Hat, Hbc, Hbt. Qed.

Section Resolve.
Variables (w : World.t) (aid bid : Z) (aa bb : AABB) (ac bc : Collider).

Lemma resolveY_keeps_x (id : Z) :
  tr_x <$> getTransform (Engine.resolveY aid bid ac bc aa bb w) id
  = tr_x <$> getTransform w id.
Proof.
  unfold Engine.resolveY.
  repeat case_match; autorewrite with store; repeat case_decide;
    destruct (getTransform w id); reflexivity.
Qed.

Lemma resolveY_keeps_vx (id : Z) :
  vx <$> getPhysics (Engine.resolveY aid bid ac bc aa bb w) id
  = vx <$> getPhysics w id.
Proof.
  unfold Engine.resolveY.
  repeat case_match; autorewrite with store; repeat case_decide;
    destruct (getPhysics w id); reflexivity.
Qed.

Lemma resolveY_zeroes_vy (id : Z) (p : Physics) :
  id = aid ∨ id = bid →
  getPhysics w id = Some p →
  ∃ p', getPhysics (Engine.resolveY aid bid ac bc aa bb w) id = Some p'
        ∧ vy p' = F32.zero.
Proof.
  intros Hid Hp. unfold Engine.resolveY.
  repeat case_match; autorewrite with store; repeat case_decide;
    try (exfalso; destruct Hid; congruence);
    rewrite Hp; simpl; eexists; (split; [reflexivity | reflexivity]).
Qed.

Lemma resolveX_zeroes_vx (id : Z) (p : Physics) :
  id = aid ∨ id = bid →
  getPhysics w id = Some p →
  ∃ p', getPhysics (Engine.resolveX aid bid ac bc aa bb w) id = Some p'
        ∧ vx p' = F32.zero.
Proof.
  intros Hid Hp. unfold Engine.resolveX.
  repeat case_match; autorewrite with store; repeat case_decide;
    try (exfalso; destruct Hid; congruence);
    rewrite Hp; simpl; eexists; (split; [reflexivity | reflexivity]).
Qed.

Lemma resolveX_static_keeps_transforms (id : Z) :
  isStatic ac = true → isStatic bc = true →
  getTransform (Engine.resolveX aid bid ac bc aa bb w) id = getTransform w id.
Proof.
  intros Ha Hb. unfold Engine.resolveX. rewrite Ha, Hb. simpl.
  by autorewrite with store.
Qed.

Lemma resolveY_static_keeps_transforms (id : Z) :
  isStatic ac = true → isStatic bc = true →
  getTransform (Engine.resolveY aid bid ac bc aa bb w) id = getTransform w id.
Proof.
  intros Ha Hb. unfold Engine.resolveY. rewrite Ha, Hb. simpl.
  by autorewrite with store.
Qed.
End Resolve.

(** What the branch along Y does to the two bodies. *)
Lemma resolveY_effect (w : World.t) (aid bid : Z) (aa bb : AABB)
    (ac bc : Collider) (at_ bt : Transform) :
  getTransform w aid = Some at_ → getTransform w bid = Some bt → aid ≠ bid →
  let w' := Engine.resolveY aid bid ac bc aa bb w in
  let d := F32.mul (Engine.signOf (Engine.delta_y aa bb)) (Engine.overlapY aa bb) in
  getTransform w' aid
  = Some (if isStatic ac then at_
          else if isStatic bc then Engine.sub_y d at_
          else Engine.sub_y (F32.mul d Engine.half) at_)
  ∧ getTransform w' bid
    = Some (if isStatic bc then bt
            else if isStatic ac then Engine.add_y d bt
            else Engine.add_y (F32.mul d Engine.half) bt)
  ∧ (∀ id, id ≠ aid → id ≠ bid → getTransform w' id = getTransform w id).
Proof.
  intros Ha Hb Hne w' d. unfold w', d, Engine.resolveY.
  destruct (isStatic ac), (isStatic bc); simpl; autorewrite with store;
    repeat (case_decide; try congruence);
    rewrite ?Ha, ?Hb; simpl; (split; [reflexivity|]); (split; [reflexivity|]);
    intros id Hida Hidb; autorewrite with store;
    repeat (case_decide; try congruence); reflexivity.
Qed.

Lemma resolveX_effect (w : World.t) (aid bid : Z) (aa bb : AABB)
    (ac bc : Collider) (at_ bt : Transform) :
  getTransform w aid = Some at_ → getTransform w bid = Some bt → aid ≠ bid →
  let w' := Engine.resolveX aid bid ac bc aa bb w in
  let d := F32.mul (Engine.signOf (Engine.delta_x aa bb)) (Engine.overlapX aa bb) in
  getTransform w' aid
  = Some (if isStatic ac then at_
          else if isStatic bc then Engine.sub_x d at_
          else Engine.sub_x (F32.mul d Engine.half) at_)
  ∧ getTransform w' bid
    = Some (if isStatic bc then bt
            else if isStatic ac then Engine.add_x d bt
            else Engine.add_x (F32.mul d Engine.half) bt)
  ∧ (∀ id, id ≠ aid → id ≠ bid → getTransform w' id = getTransform w id).
Proof.
  intros Ha Hb Hne w' d. unfold w', d, Engine.resolveX.
  destruct (isStatic ac), (isStatic bc); simpl; autorewrite with store;
    repeat (case_decide; try congruence);
    rewrite ?Ha, ?Hb; simpl; (split; [reflexivity|]); (split; [reflexivity|]);
    intros id Hida Hidb; autorewrite with store;
    repeat (case_decide; try congruence); reflexivity.
Qed.

(** The branch along X leaves the vertical velocity and the ground flag of
    every Physics as they were. *)
Lemma resolveX_keeps_vy (w : World.t) (aid bid : Z) (aa bb : AABB)
    (ac bc : Collider) (id : Z) :
  (λ p, (vy p, onGround p)) <$> getPhysics (Engine.resolveX aid bid ac bc aa bb w) id
  = (λ p, (vy p, onGround p)) <$> getPhysics w id.
Proof.
  unfold Engine.resolveX.
  repeat case_match; autorewrite with store; repeat case_decide;
    destruct (getPhysics w id); reflexivity.
Qed.

(** The Physics of either body after the branch along Y. *)
Lemma resolveY_physics (w : World.t) (aid bid : Z) (aa bb : AABB)
    (ac bc : Collider) :
  aid ≠ bid →
  let w' := Engine.resolveY aid bid ac bc aa bb w in
  let below := fgt (Engine.delta_y aa bb) F32.zero in
  getPhysics w' aid
  = (λ p, set_vy F32.zero (if below then set_onGround true p else p))
      <$> getPhysics w aid
  ∧ getPhysics w' bid
    = (λ p, set_vy F32.zero (if below then p else set_onGround true p))
        <$> getPhysics w bid
  ∧ (∀ id, id ≠ aid → id ≠ bid → getPhysics w' id = getPhysics w id).
Proof.
  intros Hne w' below. unfold w', below, Engine.resolveY, Engine.signOf.
  destruct (fgt (Engine.delta_y aa bb) F32.zero);
    change (fgt (F32.ofZ 1) (F32.ofZ 0)) with true;
    change (flt (F32.ofZ 1) (F32.ofZ 0)) with false;
    change (fgt (F32.ofZ (-1)) (F32.ofZ 0)) with false;
    change (flt (F32.ofZ (-1)) (F32.ofZ 0)) with true;
    cbv zeta; cbv iota;
    destruct (isStatic ac), (isStatic bc); simpl; autorewrite with store;
    repeat (case_decide; try congruence);
    (split; [by destruct (getPhysics w aid)|]);
    (split; [by destruct (getPhysics w bid)|]);
    intros id Hida Hidb; autorewrite with store;
    repeat (case_decide; try congruence); reflexivity.
Qed.

Lemma resolveX_physics (w : World.t) (aid bid : Z) (aa bb : AABB)
    (ac bc : Collider) :
  aid ≠ bid →
  let w' := Engine.resolveX aid bid ac bc aa bb w in
  getPhysics w' aid = set_vx F32.zero <$> getPhysics w aid
  ∧ getPhysics w' bid = set_vx F32.zero <$> getPhysics w bid
  ∧ (∀ id, id ≠ aid → id ≠ bid → getPhysics w' id = getPhysics w id).
Proof.
  intros Hne w'. unfold w', Engine.resolveX.
  destruct (isStatic ac), (isStatic bc); simpl; autorewrite with store;
    repeat (case_decide; try congruence);
    (split; [by destruct (getPhysics w aid)|]);
    (split; [by destruct (getPhysics w bid)|]);
    intros id Hida Hidb; autorewrite with store;
    repeat (case_decide; try congruence); reflexivity.
Qed.

Lemma resolveX_keeps_y (w : World.t) (aid bid : Z) (aa bb : AABB)
    (ac bc : Collider) (id : Z) :
  tr_y <$> getTransform (Engine.resolveX aid bid ac bc aa bb w) id
  = tr_y <$> getTransform w id.
Proof.
  unfold Engine.resolveX.
  repeat case_match; autorewrite with store; repeat case_decide;
    destruct (getTransform w id); reflexivity.
Qed.

(** C1 (as amended): the axis is chosen by the strict test
    [overlapX < overlapY] alone.  When the overlaps are equal the test
    fails.  Whenever it fails the pair is resolved along Y: the bodies are
    moved apart along y by the signed overlap (halved when both move, none
    for a static body), no x and no vx changes, and the vy of both is
    zeroed.  Only when it holds, that is when the X overlap is strictly
    smaller, is the pair resolved along X: the bodies are moved apart
    along x, the vx of both is zeroed, and no y, vy or ground flag
    changes.  Overlaps, deltas and displacements are those of the
    specification ([Contact]). *)
Theorem C1_tie_resolves_along_Y (w : World.t) (aid bid : Z) (aa bb : AABB)
    (ac bc : Collider) (at_ bt : Transform) :
  getCollider w aid = Some ac → getTransform w aid = Some at_ →
  getCollider w bid = Some bc → getTransform w bid = Some bt →
  aid ≠ bid →
  let w' := Engine.resolveCollision aid bid aa bb w in
  let ovX := Contact.depthX aa bb in
  let ovY := Contact.depthY aa bb in
  (SFeqb ovX ovY = true → flt ovX ovY = false)
  ∧ (flt ovX ovY = false →
       let d := F32.mul (Contact.sign (Contact.dy aa bb)) ovY in
       getTransform w' aid = Some (correctedA Contact.backY d ac bc at_)
       ∧ getTransform w' bid = Some (correctedB Contact.forthY d ac bc bt)
       ∧ (∀ id, id ≠ aid → id ≠ bid → getTransform w' id = getTransform w id)
       ∧ (∀ id, tr_x <$> getTransform w' id = tr_x <$> getTransform w id)
       ∧ (∀ id, vx <$> getPhysics w' id = vx <$> getPhysics w id)
       ∧ (∀ id p, id = aid ∨ id = bid → getPhysics w id = Some p →
            ∃ p', getPhysics w' id = Some p' ∧ vy p' = F32.zero))
  ∧ (flt ovX ovY = true →
       let d := F32.mul (Contact.sign (Contact.dx aa bb)) ovX in
       getTransform w' aid = Some (correctedA Contact.backX d ac bc at_)
       ∧ getTransform w' bid = Some (correctedB Contact.forthX d ac bc bt)
       ∧ (∀ id, id ≠ aid → id ≠ bid → getTransform w' id = getTransform w id)
       ∧ (∀ id, tr_y <$> getTransform w' id = tr_y <$> getTransform w id)
       ∧ (∀ id, (λ p, (vy p, onGround p)) <$> getPhysics w' id
                = (λ p, (vy p, onGround p)) <$> getPhysics w id)
       ∧ (∀ id p, id = aid ∨ id = bid → getPhysics w id = Some p →
            ∃ p', getPhysics w' id = Some p' ∧ vx p' = F32.zero)).
Proof.
  intros Hac Hat Hbc Hbt Hne w' ovX ovY.
  assert (Hw : w' = if flt ovX ovY
                    then Engine.resolveX aid bid ac bc aa bb w
                    else Engine.resolveY aid bid ac bc aa bb w)
    by (by apply (resolveCollision_branch w aid bid aa bb ac bc at_ bt)).
  split; [apply feq_not_flt|]. split.
  - intros Hflt. rewrite Hflt in Hw. rewrite Hw. cbv zeta.
    destruct (resolveY_effect w aid bid aa bb ac bc at_ bt Hat Hbt Hne)
      as (Ea & Eb & Eo).
    split; [exact Ea|]. split; [exact Eb|]. split; [exact Eo|].
    split; [apply resolveY_keeps_x|]. split; [apply resolveY_keeps_vx|].
    apply resolveY_zeroes_vy.
  - intros Hflt. rewrite Hflt in Hw. rewrite Hw. cbv zeta.
    destruct (resolveX_effect w aid bid aa bb ac bc at_ bt Hat Hbt Hne)
      as (Ea & Eb & Eo).
    split; [exact Ea|]. split; [exact Eb|]. split; [exact Eo|].
    split; [apply resolveX_keeps_y|]. split; [apply resolveX_keeps_vy|].
    apply resolveX_zeroes_vx.
Qed.

Lemma C1_witness :
  let w' := Engine.resolveCollision 1 2 tie_aa tie_bb tieWorld in
  flt (Contact.depthX tie_aa tie_bb) (Contact.depthY tie_aa tie_bb) = false
  ∧ getTransform w' 1
    = Some (Contact.backY (F32.mul (Contact.sign (Contact.dy tie_aa tie_bb))
                             (Contact.depthY tie_aa tie_bb)) Transform0)
  ∧ getTransform w' 2 = Some tie_bt
  ∧ (∀ id, vx <$> getPhysics w' id = vx <$> getPhysics tieWorld id).
Proof.
  destruct (C1_tie_resolves_along_Y tieWorld 1 2 tie_aa tie_bb tie_ac tie_bc
              Transform0 tie_bt) as (Htie & HY & _);
    try (vm_compute; reflexivity); [discriminate|].
  assert (Hflt : flt (Contact.depthX tie_aa tie_bb) (Contact.depthY tie_aa tie_bb)
                 = false) by (apply Htie; vm_compute; reflexivity).
  destruct (HY Hflt) as (Ea & Eb & _ & _ & Evx & _).
  cbv zeta. split; [exact Hflt|]. split; [exact Ea|]. split; [exact Eb|]. exact Evx.
Defined.

(** The X overlap strictly smaller: the moving body of [tieWorld] against
    a box at (9,8), overlaps 1 and 2, is moved along x and keeps its y. *)
Example strictly_smaller_resolves_along_X :
  let bb := Engine.box (mkTransform (F32.ofZ 9) (F32.ofZ 8) F32.zero F32.one F32.one)
              tie_bc in
  let w := World.add 2 "transform"
             (CTransform (mkTransform (F32.ofZ 9) (F32.ofZ 8) F32.zero F32.one F32.one))
             tieWorld in
  Contact.depthX tie_aa bb = F32.ofZ 1 ∧ Contact.depthY tie_aa bb = F32.ofZ 2
  ∧ getTransform (Engine.resolveCollision 1 2 tie_aa bb w) 1
    = Some (mkTransform (F32.ofZ (-1)) F32.zero F32.zero F32.one F32.one)
  ∧ vx <$> getPhysics (Engine.resolveCollision 1 2 tie_aa bb w) 1 = Some F32.zero
  ∧ vy <$> getPhysics (Engine.resolveCollision 1 2 tie_aa bb w) 1 = Some (F32.ofZ 7).
Proof. vm_compute. repeat split; reflexivity. Qed.

(** C1 (counterexample): the pair intersects with equal overlaps, yet the
    moving body keeps its x and its vx; it is its y that is corrected and
    its vy that is zeroed. *)
Lemma C1_counterexample :
  World.entities tieWorld = [1; 2]
  ∧ getTransform tieWorld 1 = Some Transform0 ∧ getCollider tieWorld 1 = Some tie_ac
  ∧ getTransform tieWorld 2 = Some tie_bt ∧ getCollider tieWorld 2 = Some tie_bc
  ∧ getPhysics tieWorld 1 = Some tie_ap
  ∧ Engine.aabbIntersect tie_aa tie_bb = true
  ∧ Engine.overlapX tie_aa tie_bb = F32.ofZ 2
  ∧ Engine.overlapY tie_aa tie_bb = F32.ofZ 2
  ∧ let w' := Engine.resolveCollision 1 2 tie_aa tie_bb tieWorld in
    getTransform w' 1 = Some (mkTransform F32.zero (F32.ofZ (-2)) F32.zero F32.one F32.one)
    ∧ getPhysics w' 1
      = Some (mkPhysics (F32.ofZ 5) F32.zero F32.zero F32.zero F32.one (F32.ofZ 900) true)
    ∧ vx <$> getPhysics w' 1 ≠ Some F32.zero
    ∧ Engine.collisionSolve tieWorld = w'.
Proof. vm_compute. repeat split; try reflexivity. discriminate. Qed.

(** C7: for a pair whose colliders are both static, [resolveCollision]
    leaves every Transform as it was, and still zeroes the velocity along
    the resolved axis (vx when [overlapX < overlapY], vy otherwise) of the
    Physics component of either entity. *)
Theorem C7_static_pair_keeps_positions (w : World.t) (aid bid : Z) (aa bb : AABB)
    (ac bc : Collider) (at_ bt : Transform) :
  getCollider w aid = Some ac → getTransform w aid = Some at_ →
  getCollider w bid = Some bc → getTransform w bid = Some bt →
  isStatic ac = true → isStatic bc = true →
  let w' := Engine.resolveCollision aid bid aa bb w in
  (∀ id, getTransform w' id = getTransform w id)
  ∧ (∀ id p, id = aid ∨ id = bid → getPhysics w id = Some p →
       ∃ p', getPhysics w' id = Some p'
             ∧ (if flt (Engine.overlapX aa bb) (Engine.overlapY aa bb)
                then vx p' else vy p') = F32.zero).
Proof.
  intros Hac Hat Hbc Hbt Hsa Hsb w'. unfold w'.
  rewrite (resolveCollision_branch w aid bid aa bb ac bc at_ bt) by done.
  destruct (flt (Engine.overlapX aa bb) (Engine.overlapY aa bb)); split.
  - intros id. by apply resolveX_static_keeps_transforms.
  - apply resolveX_zeroes_vx.
  - intros id. by apply resolveY_static_keeps_transforms.
  - apply resolveY_zeroes_vy.
Qed.

Lemma C7_witness :
  let w' := Engine.resolveCollision 1 2 st_aa st_bb staticWorld in
  (∀ id, getTransform w' id = getTransform staticWorld id)
  ∧ (∀ id p, id = 1 ∨ id = 2 → getPhysics staticWorld id = Some p →
       ∃ p', getPhysics w' id = Some p'
             ∧ (if flt (Engine.overlapX st_aa st_bb) (Engine.overlapY st_aa st_bb)
                then vx p' else vy p') = F32.zero).
Proof.
  apply (C7_static_pair_keeps_positions staticWorld 1 2 st_aa st_bb st_ac st_ac
           Transform0 st_bt); vm_compute; reflexivity.
Defined.

Example staticWorld_resolved :
  Engine.aabbIntersect st_aa st_bb = true
  ∧ flt (Engine.overlapX st_aa st_bb) (Engine.overlapY st_aa st_bb) = true
  ∧ getPhysics (Engine.resolveCollision 1 2 st_aa st_bb staticWorld) 1
    = Some (set_vx F32.zero st_p)
  ∧ getPhysics (Engine.resolveCollision 1 2 st_aa st_bb staticWorld) 2
    = Some (set_vx F32.zero st_p).
Proof. vm_compute. repeat split; reflexivity. Qed.

(** ** What the phases of a fixed update preserve *)

Lemma foldl_preserves {S A B : Type} (Q : S → A) (f : S → B → S) (l : list B) (s : S) :
  (∀ s b, Q (f s b) = Q s) → Q (foldl f s l) = Q s.
Proof.
  intros Hf. revert s. induction l as [|b l IH]; intros s; simpl; [done|].
  by rewrite IH, Hf.
Qed.

Section SolvePreserves.
Context {A : Type} (Q : World.t → A).
Hypothesis HmodT : ∀ f id w, Q (modTransform f id w) = Q w.
Hypothesis HmodP : ∀ f id w, Q (modPhysics f id w) = Q w.

Lemma resolveCollision_preserves a b aa bb w :
  Q (Engine.resolveCollision a b aa bb w) = Q w.
Proof using HmodT HmodP.
  unfold Engine.resolveCollision, Engine.resolveX, Engine.resolveY.
  repeat case_match; rewrite ?HmodP, ?HmodT; reflexivity.
Qed.

Lemma solveInner_preserves a aa bs w : Q (Engine.solveInner a aa bs w) = Q w.
Proof using HmodT HmodP.
  revert w. induction bs as [|b bs IH]; intros w; simpl; [done|].
  rewrite IH. repeat case_match; try done. apply resolveCollision_preserves.
Qed.

Lemma solveOuter_preserves ents w : Q (Engine.solveOuter ents w) = Q w.
Proof using HmodT HmodP.
  revert w. induction ents as [|a ents IH]; intros w; simpl; [done|].
  rewrite IH. repeat case_match; try done. apply solveInner_preserves.
Qed.

Lemma collisionSolve_preserves w : Q (Engine.collisionSolve w) = Q w.
Proof using HmodT HmodP. apply solveOuter_preserves. Qed.

Lemma integrate_preserves dt w id : Q (Engine.integrate dt w id) = Q w.
Proof using HmodT HmodP.
  unfold Engine.integrate. repeat case_match; rewrite ?HmodT, ?HmodP; reflexivity.
Qed.

Lemma integrateAll_preserves dt w : Q (Engine.integrateAll dt w) = Q w.
Proof using HmodT HmodP.
  unfold Engine.integrateAll. apply foldl_preserves. intros. apply integrate_preserves.
Qed.
End SolvePreserves.

Lemma entities_collisionSolve w :
  World.entities (Engine.collisionSolve w) = World.entities w.
Proof.
  apply (collisionSolve_preserves World.entities);
    intros; [apply entities_modTransform | apply entities_modPhysics].
Qed.

Lemma entities_integrateAll dt w :
  World.entities (Engine.integrateAll dt w) = World.entities w.
Proof.
  apply (integrateAll_preserves World.entities);
    intros; [apply entities_modTransform | apply entities_modPhysics].
Qed.

Lemma getAnimatedSprite_collisionSolve w id :
  getAnimatedSprite (Engine.collisionSolve w) id = getAnimatedSprite w id.
Proof.
  apply (collisionSolve_preserves (λ w, getAnimatedSprite w id));
    intros; [apply getAnimatedSprite_modTransform | apply getAnimatedSprite_modPhysics].
Qed.

Lemma getAnimatedSprite_integrateAll dt w id :
  getAnimatedSprite (Engine.integrateAll dt w) id = getAnimatedSprite w id.
Proof.
  apply (integrateAll_preserves (λ w, getAnimatedSprite w id));
    intros; [apply getAnimatedSprite_modTransform | apply getAnimatedSprite_modPhysics].
Qed.

Lemma entities_playerControl pid e :
  World.entities (Engine.world (Engine.playerControl pid e))
  = World.entities (Engine.world e).
Proof.
  unfold Engine.playerControl, Engine.playSound.
  repeat case_match; simpl; autorewrite with store; try reflexivity.
Qed.

Lemma entities_scriptStep dt e id :
  World.entities (Engine.world (Engine.scriptStep dt e id))
  = World.entities (Engine.world e).
Proof.
  unfold Engine.scriptStep, Engine.callUpdate.
  repeat case_match; try reflexivity. apply entities_playerControl.
Qed.

Lemma entities_runScripts dt e :
  World.entities (Engine.world (Engine.runScripts dt e))
  = World.entities (Engine.world e).
Proof.
  unfold Engine.runScripts.
  apply (foldl_preserves (λ e, World.entities (Engine.world e))).
  intros. apply entities_scriptStep.
Qed.

(** ** Animation *)

Lemma animate_fold_other dt ents w id :
  id ∉ ents →
  getAnimatedSprite (foldl (Engine.animate dt) w ents) id = getAnimatedSprite w id.
Proof.
  revert w. induction ents as [|a ents IH]; intros w Hid; simpl; [done|].
  apply not_elem_of_cons in Hid as [Hne Hid]. rewrite IH by done.
  unfold Engine.animate. rewrite getAnimatedSprite_modAnimatedSprite.
  by rewrite decide_False.
Qed.

Lemma animate_fold_once dt ents w id s :
  NoDup ents → id ∈ ents →
  getAnimatedSprite w id = Some s →
  getAnimatedSprite (foldl (Engine.animate dt) w ents) id
  = Some (set_anim (Engine.advance dt (anim s)) s).
Proof.
  revert w. induction ents as [|a ents IH]; intros w Hnd Hin Hs; simpl.
  - by apply elem_of_nil in Hin.
  - apply NoDup_cons in Hnd as [Ha Hnd].
    destruct (decide (id = a)) as [->|Hne].
    + rewrite animate_fold_other by done.
      unfold Engine.animate. rewrite getAnimatedSprite_modAnimatedSprite.
      rewrite decide_True by done. by rewrite Hs.
    + apply elem_of_cons in Hin as [?|Hin]; [done|].
      apply IH; [done..|].
      unfold Engine.animate. rewrite getAnimatedSprite_modAnimatedSprite.
      by rewrite decide_False.
Qed.

Lemma fixedUpdate_animates dt e id s :
  NoDup (World.entities (Engine.world e)) →
  id ∈ World.entities (Engine.world e) →
  getAnimatedSprite (Engine.world (Engine.runScripts dt e)) id = Some s →
  getAnimatedSprite (Engine.world (Engine.fixedUpdate dt e)) id
  = Some (set_anim (Engine.advance dt (anim s)) s).
Proof.
  intros Hnd Hin Hs. unfold Engine.fixedUpdate. simpl.
  unfold Engine.animateAll, World.all.
  rewrite entities_collisionSolve, entities_integrateAll, entities_runScripts.
  apply animate_fold_once; [done..|].
  by rewrite getAnimatedSprite_collisionSolve, getAnimatedSprite_integrateAll.
Qed.

Lemma wrap32_id (z : Z) : INT_MIN ≤ z ≤ INT_MAX → wrap32 z = z.
Proof.
  unfold wrap32, INT_MIN, INT_MAX. intros H.
  rewrite Z.mod_small by lia. lia.
Qed.

Lemma nextFrame_range (a : Animation) :
  -1 ≤ current a < INT_MAX →
  0 ≤ Engine.nextFrame a < Z.max 1 (frameCount a).
Proof.
  intros H. unfold Engine.nextFrame, int_rem.
  rewrite wrap32_id by (unfold INT_MIN, INT_MAX in *; lia).
  apply Z.rem_bound_pos; lia.
Qed.

Lemma nextFrame_mod (a : Animation) :
  1 ≤ frameCount a → 0 ≤ current a < INT_MAX →
  Engine.nextFrame a = (current a + 1) mod frameCount a.
Proof.
  intros Hf H. unfold Engine.nextFrame, int_rem.
  rewrite wrap32_id by (unfold INT_MIN, INT_MAX in *; lia).
  rewrite Z.max_r by lia. apply Z.rem_mod_nonneg; lia.
Qed.

Lemma advance_spec (dt : spec_float) (a : Animation) :
  Engine.advance dt a
  = if fge (F64.add (timer a) dt) (F64.ofFloat (frameTime a))
    then mkAnimation (frameCount a) (frameTime a) (loop a) (Engine.nextFrame a) F64.zero
    else mkAnimation (frameCount a) (frameTime a) (loop a) (current a)
           (F64.add (timer a) dt).
Proof. unfold Engine.advance. simpl. by case_match. Qed.

(** C6: a fixed update advances the animation of every entity with an
    animated sprite once: [dt] is added to the timer and, when the timer
    has reached [frameTime], the timer is reset to 0 and the frame index
    becomes [(current + 1) % max(1, frameCount)], which is
    [(current + 1) mod frameCount] for a frame count of at least 1 and a
    non-negative index.  With four frames of 0.1 s, 21 updates of 1/60 s
    advance the frame by exactly 3 modulo 4: the index changes at updates
    7, 14 and 21. *)
Theorem C6_animation_advance (dt : spec_float) (e : Engine.t) (id : Z) (s : AnimatedSprite) :
  NoDup (World.entities (Engine.world e)) →
  id ∈ World.entities (Engine.world e) →
  getAnimatedSprite (Engine.world (Engine.runScripts dt e)) id = Some s →
  getAnimatedSprite (Engine.world (Engine.fixedUpdate dt e)) id
    = Some (set_anim (Engine.advance dt (anim s)) s)
  ∧ Engine.advance dt (anim s)
    = (if fge (F64.add (timer (anim s)) dt) (F64.ofFloat (frameTime (anim s)))
       then mkAnimation (frameCount (anim s)) (frameTime (anim s)) (loop (anim s))
              (int_rem (wrap32 (current (anim s) + 1)) (Z.max 1 (frameCount (anim s))))
              F64.zero
       else mkAnimation (frameCount (anim s)) (frameTime (anim s)) (loop (anim s))
              (current (anim s)) (F64.add (timer (anim s)) dt))
  ∧ (1 ≤ frameCount (anim s) → 0 ≤ current (anim s) < INT_MAX →
     int_rem (wrap32 (current (anim s) + 1)) (Z.max 1 (frameCount (anim s)))
     = (current (anim s) + 1) mod frameCount (anim s))
  ∧ Forall (λ c0, currentAfter 21 c0 = Some ((c0 + 3) mod 4)) [0; 1; 2; 3]
  ∧ map (λ n, currentAfter n 0) (seq 1 21)
    = map Some [0; 0; 0; 0; 0; 0; 1; 1; 1; 1; 1; 1; 1; 2; 2; 2; 2; 2; 2; 2; 3].
Proof.
  intros Hnd Hin Hs. split; [|split; [|split; [|split]]].
  - by apply fixedUpdate_animates.
  - apply advance_spec.
  - apply nextFrame_mod.
  - repeat constructor; vm_compute; reflexivity.
  - vm_compute. reflexivity.
Qed.

Lemma C6_witness :
  let s := animSprite 0 in
  getAnimatedSprite (Engine.world (Engine.fixedUpdate Engine.fixedDt (animEngine 0))) 1
    = Some (set_anim (Engine.advance Engine.fixedDt (anim s)) s)
  ∧ Engine.advance Engine.fixedDt (anim s)
    = (if fge (F64.add (timer (anim s)) Engine.fixedDt) (F64.ofFloat (frameTime (anim s)))
       then mkAnimation (frameCount (anim s)) (frameTime (anim s)) (loop (anim s))
              (int_rem (wrap32 (current (anim s) + 1)) (Z.max 1 (frameCount (anim s))))
              F64.zero
       else mkAnimation (frameCount (anim s)) (frameTime (anim s)) (loop (anim s))
              (current (anim s)) (F64.add (timer (anim s)) Engine.fixedDt))
  ∧ (1 ≤ frameCount (anim s) → 0 ≤ current (anim s) < INT_MAX →
     int_rem (wrap32 (current (anim s) + 1)) (Z.max 1 (frameCount (anim s)))
     = (current (anim s) + 1) mod frameCount (anim s))
  ∧ Forall (λ c0, currentAfter 21 c0 = Some ((c0 + 3) mod 4)) [0; 1; 2; 3]
  ∧ map (λ n, currentAfter n 0) (seq 1 21)
    = map Some [0; 0; 0; 0; 0; 0; 1; 1; 1; 1; 1; 1; 1; 2; 2; 2; 2; 2; 2; 2; 3].
Proof.
  apply (C6_animation_advance Engine.fixedDt (animEngine 0) 1 (animSprite 0)).
  - vm_compute. apply NoDup_singleton.
  - vm_compute. apply list_elem_of_here.
  - vm_compute. reflexivity.
Defined.

(** C9 (as amended): the divisor of the frame advance is
    [max(1, frameCount)], at least 1 whatever the frame count, so the
    remainder is never taken by zero; and for a current index of at least
    -1 (below [INT_MAX]) the new index lies in [0, max(1, frameCount)). *)
Theorem C9_frame_advance_in_range (dt : spec_float) (a : Animation) :
  -1 ≤ current a < INT_MAX →
  1 ≤ Z.max 1 (frameCount a)
  ∧ 0 ≤ Engine.nextFrame a < Z.max 1 (frameCount a)
  ∧ (fge (F64.add (timer a) dt) (F64.ofFloat (frameTime a)) = true →
     current (Engine.advance dt a) = Engine.nextFrame a
     ∧ 0 ≤ current (Engine.advance dt a) < Z.max 1 (frameCount a))
  ∧ (fge (F64.add (timer a) dt) (F64.ofFloat (frameTime a)) = false →
     current (Engine.advance dt a) = current a).
Proof.
  intros Hc. pose proof (nextFrame_range a Hc) as Hr.
  split; [lia|]. split; [exact Hr|]. rewrite advance_spec.
  split; intros ->; simpl; [split; [reflexivity | exact Hr] | reflexivity].
Qed.

Lemma C9_witness :
  1 ≤ Z.max 1 (frameCount emptyAnim)
  ∧ 0 ≤ Engine.nextFrame emptyAnim < Z.max 1 (frameCount emptyAnim)
  ∧ (fge (F64.add (timer emptyAnim) Engine.fixedDt)
         (F64.ofFloat (frameTime emptyAnim)) = true →
     current (Engine.advance Engine.fixedDt emptyAnim) = Engine.nextFrame emptyAnim
     ∧ 0 ≤ current (Engine.advance Engine.fixedDt emptyAnim)
         < Z.max 1 (frameCount emptyAnim))
  ∧ (fge (F64.add (timer emptyAnim) Engine.fixedDt)
         (F64.ofFloat (frameTime emptyAnim)) = false →
     current (Engine.advance Engine.fixedDt emptyAnim) = current emptyAnim).
Proof.
  apply (C9_frame_advance_in_range Engine.fixedDt emptyAnim).
  vm_compute. split; [discriminate | reflexivity].
Defined.

Example emptyAnim_advance :
  current (Engine.advance Engine.fixedDt emptyAnim) = 0.
Proof. vm_compute. reflexivity. Qed.

(** C9 (counterexample): four frames, current index -6 and a timer that
    has reached the frame time: the advance stores [-5 % 4 = -1], outside
    [0, 4). *)
Lemma C9_counterexample :
  let a := mkAnimation 4 (F32.lit 1 10) true (-6) (F64.lit 1 10) in
  INT_MIN ≤ current a ≤ INT_MAX
  ∧ fge (F64.add (timer a) Engine.fixedDt) (F64.ofFloat (frameTime a)) = true
  ∧ current (Engine.advance Engine.fixedDt a) = -1
  ∧ ¬ (0 ≤ current (Engine.advance Engine.fixedDt a) < Z.max 1 (frameCount a)).
Proof.
  intros a.
  assert (Hc : current (Engine.advance Engine.fixedDt a) = -1) by (vm_compute; reflexivity).
  split; [vm_compute; split; discriminate|].
  split; [vm_compute; reflexivity|].
  split; [exact Hc|]. rewrite Hc. lia.
Qed.

(** ** The camera *)

Lemma cam_playerControl pid e : cam (Engine.playerControl pid e) = cam e.
Proof.
  unfold Engine.playerControl, Engine.playSound. repeat case_match; reflexivity.
Qed.

Lemma cam_scriptStep dt e id : cam (Engine.scriptStep dt e id) = cam e.
Proof.
  unfold Engine.scriptStep, Engine.callUpdate.
  repeat case_match; try reflexivity. apply cam_playerControl.
Qed.

Lemma cam_fixedUpdate dt e : cam (Engine.fixedUpdate dt e) = cam e.
Proof.
  unfold Engine.fixedUpdate, Engine.runScripts.
  change (cam (foldl (Engine.scriptStep dt) e (World.all (Engine.world e))) = cam e).
  apply foldl_preserves. intros. apply cam_scriptStep.
Qed.

Lemma cam_fixedLoop fuel acc e acc' e' n :
  Engine.fixedLoop fuel acc e = Some (acc', e', n) → cam e' = cam e.
Proof.
  revert acc e acc' e' n.
  induction fuel as [|fuel IH]; intros acc e acc' e' n; simpl.
  - case_match; [discriminate|]. by intros [= _ <- _].
  - case_match.
    + destruct (Engine.fixedLoop fuel _ _) as [[[a1 e1] n1]|] eqn:Hl; [|discriminate].
      intros [= _ <- _]. rewrite (IH _ _ _ _ _ Hl). apply cam_fixedUpdate.
    + by intros [= _ <- _].
Qed.

Lemma findTracked_Some w ents tr :
  Engine.findTracked w ents = Some tr →
  ∃ pre id post, ents = pre ++ id :: post
                 ∧ Forall (untracked w) pre
                 ∧ is_Some (getPhysics w id) ∧ getTransform w id = Some tr.
Proof.
  induction ents as [|a ents IH]; simpl; [discriminate|].
  destruct (getPhysics w a) as [p|] eqn:Hp.
  - destruct (getTransform w a) as [t|] eqn:Ht.
    + intros [= <-]. exists [], a, ents. by rewrite Hp.
    + intros H. destruct (IH H) as (pre & id & post & -> & Hpre & Hrest).
      exists (a :: pre), id, post. split; [done|]. split; [|done].
      constructor; [by right | done].
  - intros H. destruct (IH H) as (pre & id & post & -> & Hpre & Hrest).
    exists (a :: pre), id, post. split; [done|]. split; [|done].
    constructor; [by left | done].
Qed.

Lemma findTracked_first w pre id post p tr :
  Forall (untracked w) pre →
  getPhysics w id = Some p → getTransform w id = Some tr →
  Engine.findTracked w (pre ++ id :: post) = Some tr.
Proof.
  intros Hpre Hp Ht. induction Hpre as [|a pre [Ha|Ha] _ IH]; simpl.
  - by rewrite Hp, Ht.
  - by rewrite Ha.
  - rewrite Ha. by destruct (getPhysics w a).
Qed.

(** ** The particle pool: emission *)

Lemma deadCount_app l1 l2 : deadCount (l1 ++ l2) = (deadCount l1 + deadCount l2)%nat.
Proof. unfold deadCount. by rewrite List.filter_app, length_app. Qed.
Lemma liveCount_app l1 l2 : liveCount (l1 ++ l2) = (liveCount l1 + liveCount l2)%nat.
Proof. unfold liveCount. by rewrite List.filter_app, length_app. Qed.

Lemma deadCount_cons p l :
  deadCount (p :: l) = ((if ParticleSystem.isFree p then 1 else 0) + deadCount l)%nat.
Proof. unfold deadCount. simpl. by destruct (ParticleSystem.isFree p). Qed.
Lemma liveCount_cons p l :
  liveCount (p :: l) = ((if ParticleSystem.isLive p then 1 else 0) + liveCount l)%nat.
Proof. unfold liveCount. simpl. by destruct (ParticleSystem.isLive p). Qed.

Lemma deadCount_none pool :
  Forall (λ p, ParticleSystem.isFree p = false) pool → deadCount pool = 0%nat.
Proof.
  unfold deadCount. induction 1 as [|p pool Hp _ IH]; simpl; [done|]. by rewrite Hp.
Qed.

Lemma findFreeFrom_spec (i : Z) (pool : ParticleSystem.t) :
  (ParticleSystem.findFreeFrom i pool = -1
   ∧ Forall (λ p, ParticleSystem.isFree p = false) pool)
  ∨ (∃ pre p post,
       pool = pre ++ p :: post
       ∧ Forall (λ p, ParticleSystem.isFree p = false) pre
       ∧ ParticleSystem.isFree p = true
       ∧ ParticleSystem.findFreeFrom i pool = i + Z.of_nat (length pre))
  ∨ i < 0.
Proof.
  destruct (decide (i < 0)) as [|Hi]; [by right; right|].
  revert i Hi. induction pool as [|q pool IH]; intros i Hi; simpl.
  - left. by split.
  - destruct (ParticleSystem.isFree q) eqn:Hq.
    + right; left. exists [], q, pool. repeat split; [constructor | done | simpl; lia].
    + destruct (IH (i + 1)) as [[H1 H2]|[(pre & p & post & -> & Hpre & Hp & Hf)|?]];
        [lia | | | lia].
      * left. split; [done | by constructor].
      * right; left. exists (q :: pre), p, post.
        repeat split; [by constructor | done |].
        rewrite Hf. simpl length. lia.
Qed.

(** The lives [emit] draws, 300 to 1099 ms, are positive floats. *)
Lemma life_positive (k : Z) :
  300 ≤ k < 1100 →
  flt F32.zero (F32.ofZ k) = true ∧ fge F32.zero (F32.ofZ k) = false.
Proof.
  intros Hk.
  assert (Hall : forallb (λ k, flt F32.zero (F32.ofZ k) && negb (fge F32.zero (F32.ofZ k)))
                   (seqZ 300 800) = true) by (vm_compute; reflexivity).
  rewrite forallb_forall in Hall.
  specialize (Hall k). rewrite <- list_elem_of_In, elem_of_seqZ in Hall.
  specialize (Hall ltac:(lia)). apply andb_prop in Hall as [H1 H2].
  split; [done|]. by apply negb_true_iff.
Qed.

Section EmitProperties.
Context {Rng : Type}.
Variable rand : Rng → Z * Rng.
Variable RAND_MAX : Z.
Variables cosf sinf : spec_float → spec_float.
(** [rand] returns a value between 0 and [RAND_MAX]. *)
Hypothesis rand_range : ∀ g, 0 ≤ fst (rand g) ≤ RAND_MAX.

Local Abbreviation spawn := (ParticleSystem.spawn rand RAND_MAX cosf sinf).
Local Abbreviation emitLoop := (ParticleSystem.emitLoop rand RAND_MAX cosf sinf).

Lemma spawn_live x y g :
  ParticleSystem.isLive (fst (spawn x y g)) = true
  ∧ ParticleSystem.isFree (fst (spawn x y g)) = false.
Proof using rand_range.
  unfold ParticleSystem.spawn.
  destruct (rand g) as [r1 g1]. destruct (rand g1) as [r2 g2].
  destruct (rand g2) as [r3 g3] eqn:Hr3. simpl.
  unfold ParticleSystem.isLive, ParticleSystem.isFree. simpl.
  apply life_positive. pose proof (rand_range g2) as Hr. rewrite Hr3 in Hr. simpl in Hr.
  unfold int_rem. pose proof (Z.rem_bound_pos r3 800). lia.
Qed.

Lemma emitLoop_length k x y st :
  length (fst (emitLoop k x y st)) = length (fst st).
Proof using Type.
  revert st. induction k as [|k IH]; intros st; simpl; [done|].
  case_match; [done|]. destruct (spawn x y (snd st)) as [p g].
  rewrite IH. simpl. apply length_insert.
Qed.

Lemma emitLoop_counts k x y st :
  let pool' := fst (emitLoop k x y st) in
  deadCount pool' = (deadCount (fst st) - k)%nat
  ∧ liveCount pool' = (liveCount (fst st) + Nat.min k (deadCount (fst st)))%nat
  ∧ (∀ i p, fst st !! i = Some p → ParticleSystem.isFree p = false → pool' !! i = Some p).
Proof using rand_range.
  revert st. induction k as [|k IH]; intros [pool g]; cbv zeta;
    cbn [ParticleSystem.emitLoop fst snd].
  { split; [lia|]. split; [lia|]. done. }
  unfold ParticleSystem.findFree.
  destruct (findFreeFrom_spec 0 pool)
    as [[Hf Hall]|[(pre & p & post & -> & Hpre & Hp & Hf)|?]]; [| |lia].
  - rewrite Hf. cbn [Z.ltb Z.compare fst]. rewrite (deadCount_none _ Hall).
    split; [lia|]. split; [lia|]. done.
  - rewrite Hf. destruct (0 + Z.of_nat (length pre) <? 0) eqn:Hlt; [lia|].
    destruct (spawn x y g) as [q g'] eqn:Hq.
    pose proof (spawn_live x y g) as [Hlive Hnfree]. rewrite Hq in Hlive, Hnfree.
    simpl in Hlive, Hnfree.
    replace (Z.to_nat (0 + Z.of_nat (length pre))) with (length pre + 0)%nat by lia.
    rewrite insert_app_r. cbn [insert list_insert fst].
    destruct (IH (pre ++ q :: post, g')) as (Hd & Hl & Hk). cbn [fst] in Hd, Hl, Hk.
    rewrite Hd, Hl. rewrite !deadCount_app, !liveCount_app, !deadCount_cons, !liveCount_cons.
    rewrite Hnfree, Hp, Hlive, (fge_not_flt _ _ Hp : ParticleSystem.isLive p = false).
    rewrite (deadCount_none _ Hpre).
    split; [lia|]. split; [lia|].
    intros i p0 Hi Hp0. apply Hk; [|done].
    destruct (decide (i = length pre)) as [->|Hne].
    + rewrite list_lookup_middle in Hi by done. congruence.
    + destruct (decide (i < length pre)%nat).
      * rewrite lookup_app_l in Hi |- * by done. done.
      * rewrite lookup_app_r in Hi |- * by lia.
        destruct (i - length pre)%nat as [|j] eqn:Hj; [lia|]. done.
Qed.
End EmitProperties.

Lemma emitLoop_full {Rng : Type} (rand : Rng → Z * Rng) (RAND_MAX : Z)
    (cosf sinf : spec_float → spec_float) k x y (st : ParticleSystem.t * Rng) :
  deadCount (fst st) = 0%nat →
  ParticleSystem.emitLoop rand RAND_MAX cosf sinf k x y st = st.
Proof.
  intros H0. destruct k as [|k]; [done|]. cbn [ParticleSystem.emitLoop].
  unfold ParticleSystem.findFree.
  destruct (findFreeFrom_spec 0 (fst st))
    as [[Hf Hall]|[(pre & p & post & Heq & Hpre & Hp & Hf)|?]]; [| |lia].
  - by rewrite Hf.
  - rewrite Heq, deadCount_app, deadCount_cons, Hp in H0. lia.
Qed.

(** C5: [emit(x, y, N)] on a pool with [F < N] dead slots makes exactly [F]
    particles live: the live count grows by [F], no dead slot is left, the
    slots that were not dead keep their particle, and the [N - F] requests
    left are dropped.  The pool keeps its size for every [N], and a pool
    with no dead slot is returned as it was. *)
Theorem C5_emit_fills_dead_slots {Rng : Type} (rand : Rng → Z * Rng) (RAND_MAX : Z)
    (cosf sinf : spec_float → spec_float) (x y : spec_float) (n : Z)
    (pool : ParticleSystem.t) (g : Rng) :
  (∀ g, 0 ≤ fst (rand g) ≤ RAND_MAX) →
  Z.of_nat (deadCount pool) < n →
  let emit := ParticleSystem.emit rand RAND_MAX cosf sinf x y in
  let pool' := fst (emit n (pool, g)) in
  liveCount pool' = (liveCount pool + deadCount pool)%nat
  ∧ deadCount pool' = 0%nat
  ∧ (∀ i p, pool !! i = Some p → ParticleSystem.isFree p = false → pool' !! i = Some p)
  ∧ (∀ m, length (fst (emit m (pool, g))) = length pool)
  ∧ (deadCount pool = 0%nat → ∀ m, emit m (pool, g) = (pool, g)).
Proof.
  intros Hrand Hn emit pool'. unfold pool', emit, ParticleSystem.emit.
  destruct (emitLoop_counts rand RAND_MAX cosf sinf Hrand (Z.to_nat n) x y (pool, g))
    as (Hd & Hl & Hk). cbn [fst] in Hd, Hl, Hk.
  split; [rewrite Hl; lia|]. split; [rewrite Hd; lia|]. split; [exact Hk|].
  split.
  - intros m. apply (emitLoop_length rand RAND_MAX cosf sinf).
  - intros H0 m. by apply emitLoop_full.
Qed.

Lemma lcg_range (g : Z) : 0 ≤ fst (lcg g) ≤ 2 ^ 31 - 1.
Proof. simpl. pose proof (Z.mod_pos_bound g (2 ^ 31)). lia. Qed.

Lemma C5_witness :
  let emit := ParticleSystem.emit lcg (2 ^ 31 - 1) id id (F32.ofZ 1) (F32.ofZ 2) in
  let pool := [deadParticle; liveParticle; deadParticle] in
  let pool' := fst (emit 5 (pool, 42)) in
  liveCount pool' = (liveCount pool + deadCount pool)%nat
  ∧ deadCount pool' = 0%nat
  ∧ (∀ i p, pool !! i = Some p → ParticleSystem.isFree p = false → pool' !! i = Some p)
  ∧ (∀ m, length (fst (emit m (pool, 42))) = length pool)
  ∧ (deadCount pool = 0%nat → ∀ m, emit m (pool, 42) = (pool, 42)).
Proof.
  apply (C5_emit_fills_dead_slots lcg (2 ^ 31 - 1) id id (F32.ofZ 1) (F32.ofZ 2) 5
           [deadParticle; liveParticle; deadParticle] 42).
  - exact lcg_range.
  - vm_compute. reflexivity.
Defined.

Example emit_into_three_slots :
  let pool' := fst (ParticleSystem.emit lcg (2 ^ 31 - 1) id id (F32.ofZ 1) (F32.ofZ 2) 5
                      ([deadParticle; liveParticle; deadParticle], 42)) in
  deadCount [deadParticle; liveParticle; deadParticle] = 2%nat
  ∧ liveCount pool' = 3%nat ∧ length pool' = 3%nat
  ∧ pool' !! 1%nat = Some liveParticle.
Proof. vm_compute. repeat split; reflexivity. Qed.

Example emit_into_full_pool :
  ParticleSystem.emit lcg (2 ^ 31 - 1) id id (F32.ofZ 1) (F32.ofZ 2) 5
    ([liveParticle; liveParticle], 42)
  = ([liveParticle; liveParticle], 42).
Proof. vm_compute. reflexivity. Qed.

(** ** The ground flag *)


Lemma boxOf_box t c : Contact.boxOf t c = Engine.box t c.
Proof. reflexivity. Qed.


















(** The body of [tieWorld] lands on the static box below it: the pass sets
    the flag that was false. *)
Example tieWorld_grounded :
  passCalls tieWorld = [mkCall 1 2 tie_aa tie_bb]
  ∧ Contact.below tie_aa tie_bb = true
  ∧ onGround <$> getPhysics tieWorld 1 = Some false
  ∧ onGround <$> getPhysics (Engine.collisionSolve tieWorld) 1 = Some true.
Proof. vm_compute. repeat split; reflexivity. Qed.

(** Two coincident boxes: the delta is zero, neither body is below the
    other, and the pass sets the flag of the second. *)
Example level_centres_ground_the_second :
  let aa := Engine.box Transform0 tie_ac in
  passCalls levelWorld = [mkCall 1 2 aa aa]
  ∧ Contact.dy aa aa = F32.zero
  ∧ Contact.below aa aa = false ∧ Contact.above aa aa = false
  ∧ onGround <$> getPhysics levelWorld 2 = Some false
  ∧ onGround <$> getPhysics (Engine.collisionSolve levelWorld) 1 = Some false
  ∧ onGround <$> getPhysics (Engine.collisionSolve levelWorld) 2 = Some true.
Proof. vm_compute. repeat split; reflexivity. Qed.

(** ** Rounding in binary64, as far as the accumulator needs it *)

Lemma digits2_bounds (p : positive) :
  2 ^ (Z.pos (digits2_pos p) - 1) ≤ Z.pos p < 2 ^ Z.pos (digits2_pos p).
Proof.
  induction p as [p IH|p IH|]; simpl digits2_pos.
  - rewrite Pos2Z.inj_succ. replace (Z.succ (Z.pos (digits2_pos p)) - 1)
      with (Z.succ (Z.pos (digits2_pos p) - 1)) by lia.
    rewrite !Z.pow_succ_r by lia. lia.
  - rewrite Pos2Z.inj_succ. replace (Z.succ (Z.pos (digits2_pos p)) - 1)
      with (Z.succ (Z.pos (digits2_pos p) - 1)) by lia.
    rewrite !Z.pow_succ_r by lia. lia.
  - simpl. lia.
Qed.

Lemma digits2_unique (p : positive) (n : Z) :
  2 ^ (n - 1) ≤ Z.pos p < 2 ^ n → Z.pos (digits2_pos p) = n.
Proof.
  intros [Hlo Hhi]. pose proof (digits2_bounds p) as [Dlo Dhi].
  assert (Hn : 0 < n).
  { destruct (Z_lt_le_dec 0 n) as [|Hle]; [done|].
    assert (2 ^ n ≤ 2 ^ 0) by (apply Z.pow_le_mono_r; lia). simpl in *. lia. }
  assert (n - 1 < Z.pos (digits2_pos p)).
  { apply (Z.pow_lt_mono_r_iff 2); lia. }
  assert (Z.pos (digits2_pos p) - 1 < n).
  { apply (Z.pow_lt_mono_r_iff 2); lia. }
  lia.
Qed.

Lemma iter_xO_value (m d : positive) : Z.pos (Pos.iter xO m d) = Z.pos m * 2 ^ Z.pos d.
Proof.
  induction d as [|d IH] using Pos.peano_ind.
  - simpl. lia.
  - rewrite Pos.iter_succ, Pos2Z.inj_xO, IH, Pos2Z.inj_succ, Z.pow_succ_r by lia. lia.
Qed.

Lemma shl_align_value (mx : positive) (ex ex' : Z) :
  ex' ≤ ex →
  Z.pos (fst (shl_align mx ex ex')) = Z.pos mx * 2 ^ (ex - ex')
  ∧ ex' = snd (shl_align mx ex ex').
Proof.
  intros Hle. unfold shl_align. destruct (ex' - ex) as [|d|d] eqn:Hd; simpl.
  - replace (ex - ex') with 0 by lia. simpl. lia.
  - lia.
  - rewrite iter_xO_value. replace (ex - ex') with (Z.pos d) by lia. done.
Qed.

Lemma shr_1_m (mrs : shr_record) :
  0 ≤ shr_m mrs → shr_m (shr_1 mrs) = shr_m mrs / 2.
Proof.
  destruct mrs as [[|[p|p|]|p] r s]; cbn [shr_1 shr_m]; intros H; try lia.
  - reflexivity.
  - apply (Z.div_unique _ 2 _ 1); lia.
  - apply (Z.div_unique _ 2 _ 0); lia.
  - reflexivity.
Qed.

Lemma round_nearest_even_bounds (m : Z) (l : location) :
  m ≤ round_nearest_even m l ≤ m + 1.
Proof. destruct l as [|[]]; simpl; try lia. destruct (Z.even m); lia. Qed.

(** Rounding a mantissa that already has 53 bits changes nothing. *)
Lemma round_aux_exact (mz : positive) (ez : Z) :
  Z.pos (digits2_pos mz) = 53 → -1074 ≤ ez ≤ 971 →
  binary_round_aux 53 1024 false (Z.pos mz) ez loc_Exact = S754_finite false mz ez.
Proof.
  intros Hd He.
  assert (Hshift : fexp 53 1024 (Zdigits2 (Z.pos mz) + ez) - ez = 0).
  { unfold fexp, emin, Zdigits2. rewrite Hd. lia. }
  unfold binary_round_aux, shr_fexp. rewrite Hshift. simpl.
  rewrite Hd.
  replace (fexp 53 1024 (53 + ez) - ez) with 0 by (unfold fexp, emin; lia).
  simpl. destruct (ez <=? _) eqn:H; [done | apply Z.leb_gt in H; lia].
Qed.

Lemma iter_shr_1_m (p : positive) (mrs : shr_record) :
  0 ≤ shr_m mrs → shr_m (SpecFloat.iter_pos shr_1 p mrs) = shr_m mrs / 2 ^ Z.pos p.
Proof.
  revert mrs. induction p as [p IH|p IH|]; intros mrs Hm; cbn [SpecFloat.iter_pos].
  - assert (H1 : 0 ≤ shr_m (shr_1 mrs)).
    { rewrite shr_1_m by done. apply Z.div_pos; lia. }
    assert (H2 : 0 ≤ shr_m (SpecFloat.iter_pos shr_1 p (shr_1 mrs))).
    { rewrite IH by done. apply Z.div_pos; lia. }
    rewrite IH, IH, shr_1_m by done. rewrite !Z.div_div by lia.
    f_equal. assert (Hp : Z.pos p~1 = Z.pos p + Z.pos p + 1) by lia.
    rewrite Hp, !Z.pow_add_r by lia. change (2 ^ 1) with 2. lia.
  - assert (H2 : 0 ≤ shr_m (SpecFloat.iter_pos shr_1 p mrs)).
    { rewrite IH by done. apply Z.div_pos; lia. }
    rewrite IH, IH by done. rewrite !Z.div_div by lia.
    f_equal. assert (Hp : Z.pos p~0 = Z.pos p + Z.pos p) by lia.
    rewrite Hp, !Z.pow_add_r by lia. lia.
  - by apply shr_1_m.
Qed.

(** Rounding a mantissa of [53 + s] bits, [s] from 1 to 3, at exponent -58:
    the result has 53 bits and exceeds the exact value by at most [2^s]
    units of [2^-58]. *)
Lemma round_aux_shift (K : positive) (s : positive) :
  (s = 1 ∨ s = 2 ∨ s = 3)%positive →
  Z.pos (digits2_pos K) = 53 + Z.pos s →
  ∃ m' e', binary_round_aux 53 1024 false (Z.pos K) (-58) loc_Exact = S754_finite false m' e'
           ∧ Z.pos (digits2_pos m') = 53 ∧ -58 ≤ e'
           ∧ Z.pos m' * 2 ^ (e' + 58) ≤ Z.pos K + 8.
Proof.
  intros Hs Hd. pose proof (digits2_bounds K) as HK. rewrite Hd in HK.
  set (mrs := SpecFloat.iter_pos shr_1 s (Build_shr_record (Z.pos K) false false)).
  assert (Hm1 : shr_m mrs = Z.pos K / 2 ^ Z.pos s).
  { unfold mrs. by rewrite iter_shr_1_m. }
  assert (Hpow : 2 ^ (53 + Z.pos s - 1) = 2 ^ 52 * 2 ^ Z.pos s
                 ∧ 2 ^ (53 + Z.pos s) = 2 ^ 53 * 2 ^ Z.pos s
                 ∧ 0 < 2 ^ Z.pos s ≤ 8).
  { destruct Hs as [->|[->| ->]]; simpl; lia. }
  destruct Hpow as (Hp1 & Hp2 & Hp3). rewrite Hp1, Hp2 in HK.
  assert (Hm1b : 2 ^ 52 ≤ shr_m mrs < 2 ^ 53).
  { rewrite Hm1. split.
    - apply Z.div_le_lower_bound; lia.
    - apply Z.div_lt_upper_bound; lia. }
  assert (Hm1v : shr_m mrs * 2 ^ Z.pos s ≤ Z.pos K).
  { rewrite Hm1. rewrite Z.mul_comm. apply Z.mul_div_le. lia. }
  pose proof (round_nearest_even_bounds (shr_m mrs) (loc_of_shr_record mrs)) as Hr.
  set (m2 := round_nearest_even (shr_m mrs) (loc_of_shr_record mrs)) in *.
  assert (Hstep1 : shr_fexp 53 1024 (Z.pos K) (-58) loc_Exact = (mrs, -58 + Z.pos s)).
  { unfold shr_fexp, Zdigits2. rewrite Hd.
    replace (fexp 53 1024 (53 + Z.pos s + -58) - -58) with (Z.pos s)
      by (unfold fexp, emin; lia).
    reflexivity. }
  unfold binary_round_aux. rewrite Hstep1. fold m2.
  destruct (Z_lt_le_dec m2 (2 ^ 53)) as [Hlt|Hge].
  - destruct m2 as [|q|q] eqn:Hq; [lia| |lia].
    assert (Hdq : Z.pos (digits2_pos q) = 53) by (apply digits2_unique; simpl; lia).
    unfold shr_fexp, Zdigits2. rewrite Hdq.
    replace (fexp 53 1024 (53 + (-58 + Z.pos s)) - (-58 + Z.pos s)) with 0
      by (unfold fexp, emin; lia).
    simpl shr. cbn iota beta. simpl shr_m.
    destruct (-58 + Z.pos s <=? 1024 - 53) eqn:Hle; [|apply Z.leb_gt in Hle; lia].
    exists q, (-58 + Z.pos s). split; [reflexivity|]. split; [done|]. split; [lia|].
    replace (-58 + Z.pos s + 58) with (Z.pos s) by lia. nia.
  - assert (Hm2 : m2 = 2 ^ 53) by lia. rewrite Hm2.
    exists (2 ^ 52)%positive, (-58 + Z.pos s + 1).
    split; [|split; [reflexivity|split; [lia|]]].
    + destruct Hs as [->|[->| ->]]; vm_compute; reflexivity.
    + replace (-58 + Z.pos s + 1 + 58) with (Z.succ (Z.pos s)) by lia.
      rewrite Z.pow_succ_r by lia.
      assert (shr_m mrs = 2 ^ 53 - 1) by lia.
      change (Z.pos (2 ^ 52)) with (2 ^ 52). nia.
Qed.

(** ** The fixed-step accumulator *)

Lemma fixedLoop_accLoop fuel acc e :
  (λ r, (fst (fst r), snd r)) <$> Engine.fixedLoop fuel acc e = accLoop fuel acc.
Proof.
  revert acc e. induction fuel as [|fuel IH]; intros acc e; simpl.
  - by case_match.
  - case_match; [|done]. rewrite <- (IH _ (Engine.fixedUpdate Engine.fixedDt e)).
    by destruct (Engine.fixedLoop fuel _ _) as [[[a1 e1] n1]|].
Qed.

Lemma accLoop_fuel fuel fuel' acc r :
  accLoop fuel acc = Some r → (fuel ≤ fuel')%nat → accLoop fuel' acc = Some r.
Proof.
  revert fuel' acc r. induction fuel as [|fuel IH]; intros fuel' acc r; simpl.
  - case_match; [discriminate|]. intros <- _. destruct fuel'; simpl; by case_match.
  - case_match eqn:Hge.
    + destruct (accLoop fuel _) as [[a1 n1]|] eqn:Hl; [|discriminate].
      intros <- Hle. destruct fuel' as [|fuel']; [lia|]. simpl. rewrite Hge.
      by rewrite (IH fuel' _ _ Hl) by lia.
    + intros <- _. destruct fuel'; simpl; by rewrite Hge.
Qed.

Lemma fixedDt_eq : Engine.fixedDt = S754_finite false fixedDt_m (-58).
Proof. vm_compute. reflexivity. Qed.
Lemma maxAccum_eq : Engine.maxAccum = S754_finite false (2 ^ 52) (-54).
Proof. vm_compute. reflexivity. Qed.

Lemma pos_compare_cont_Eq (a b : positive) : Pos.compare_cont Eq a b = (Z.pos a ?= Z.pos b).
Proof. reflexivity. Qed.

Lemma acc_start (a : spec_float) :
  F64.valid a = true → fgt a Engine.maxAccum = false → fge a Engine.fixedDt = true →
  accInv 0 a.
Proof.
  rewrite fixedDt_eq, maxAccum_eq. unfold F64.valid, fgt, fge, SFltb, SFleb.
  destruct a as [s|s| |s m e]; try (destruct s); try (simpl; discriminate).
  unfold SFcompare, valid_binary, bounded, canonical_mantissa, fexp, emin, F64.prec, F64.emax.
  rewrite !pos_compare_cont_Eq. intros Hv Hmax Hd.
  apply andb_prop in Hv as [Hc _]. apply Z.eqb_eq in Hc.
  assert (He : -58 ≤ e).
  { revert Hd. destruct (Z.compare_spec (-58) e); [lia | lia | discriminate]. }
  assert (Hdig : Z.pos (digits2_pos m) = 53) by lia.
  pose proof (digits2_bounds m) as Hb. rewrite Hdig in Hb.
  exists m, e. repeat split; [done | done |].
  revert Hmax. destruct (Z.compare_spec (-54) e) as [<-| |He54]; [|discriminate|].
  - destruct (Z.compare_spec (Z.pos (2 ^ 52)) (Z.pos m)) as [Hm|Hm|Hm];
      [|discriminate|]; intros _; change (2 ^ (-54 + 58)) with 16;
      change (2 ^ (53 - 1)) with (Z.pos (2 ^ 52)) in Hb;
      change (2 ^ 56) with (Z.pos (2 ^ 52) * 16); lia.
  - intros _. change (2 ^ 53) with 9007199254740992 in Hb.
    change (2 ^ 56) with 72057594037927936.
    assert (e = -58 ∨ e = -57 ∨ e = -56 ∨ e = -55) as [->|[->|[->| ->]]] by lia;
      [change (2 ^ (-58 + 58)) with 1 | change (2 ^ (-57 + 58)) with 2
       | change (2 ^ (-56 + 58)) with 4 | change (2 ^ (-55 + 58)) with 8]; lia.
Qed.

Lemma accInv_ge_fixedDt a m e :
  a = S754_finite false m e → Z.pos (digits2_pos m) = 53 → -58 ≤ e →
  fge a Engine.fixedDt = true →
  Z.pos fixedDt_m ≤ Z.pos m * 2 ^ (e + 58).
Proof.
  intros -> Hd He. rewrite fixedDt_eq. unfold fge, SFleb, SFcompare.
  rewrite pos_compare_cont_Eq.
  pose proof (digits2_bounds m) as Hb. rewrite Hd in Hb.
  change (2 ^ (53 - 1)) with 4503599627370496 in Hb.
  destruct (Z.compare_spec (-58) e) as [<-|He58|He58]; [| |discriminate].
  - change (2 ^ (-58 + 58)) with 1.
    destruct (Z.compare_spec (Z.pos fixedDt_m) (Z.pos m)); [lia | lia | discriminate].
  - intros _. assert (2 ^ 1 ≤ 2 ^ (e + 58)) by (apply Z.pow_le_mono_r; lia).
    change (2 ^ 1) with 2 in *. unfold fixedDt_m. nia.
Qed.

Lemma small_exponent_below_fixedDt (m : positive) (e : Z) :
  e < -58 → fge (S754_finite false m e) Engine.fixedDt = false.
Proof.
  intros He. rewrite fixedDt_eq. unfold fge, SFleb, SFcompare.
  by rewrite (proj2 (Z.compare_gt_iff (-58) e)) by lia.
Qed.

Lemma binary_round_bound (K : positive) :
  Z.pos K < 2 ^ 56 →
  ∃ m' e', binary_round 53 1024 false K (-58) = S754_finite false m' e'
           ∧ Z.pos (digits2_pos m') = 53
           ∧ (e' < -58 ∨ (-58 ≤ e' ∧ Z.pos m' * 2 ^ (e' + 58) ≤ Z.pos K + 8)).
Proof.
  intros HK. pose proof (digits2_bounds K) as Hb.
  set (n := Z.pos (digits2_pos K)) in *.
  assert (Hn : 1 ≤ n ≤ 56).
  { split; [unfold n; lia|].
    destruct (Z_lt_le_dec 56 n) as [Hlt|]; [|done].
    assert (2 ^ 56 ≤ 2 ^ (n - 1)) by (apply Z.pow_le_mono_r; lia). lia. }
  unfold binary_round. fold n.
  replace (fexp 53 1024 (n + -58)) with (n - 111) by (unfold fexp, emin; lia).
  destruct (Z_le_gt_dec n 53) as [Hle|Hgt].
  - destruct (shl_align_value K (-58) (n - 111)) as [Hv He]; [lia|].
    destruct (shl_align K (-58) (n - 111)) as [mz ez]. simpl in Hv, He. subst ez.
    replace (-58 - (n - 111)) with (53 - n) in Hv by lia.
    assert (Hdz : Z.pos (digits2_pos mz) = 53).
    { apply digits2_unique. rewrite Hv.
      replace (2 ^ (53 - 1)) with (2 ^ (n - 1) * 2 ^ (53 - n))
        by (rewrite <- Z.pow_add_r by lia; f_equal; lia).
      replace (2 ^ 53) with (2 ^ n * 2 ^ (53 - n))
        by (rewrite <- Z.pow_add_r by lia; f_equal; lia).
      assert (0 < 2 ^ (53 - n)) by (apply Z.pow_pos_nonneg; lia). nia. }
    rewrite round_aux_exact by (done || lia).
    exists mz, (n - 111). split; [done|]. split; [done|].
    destruct (decide (n = 53)) as [Hn53|Hn53]; [right | left; lia].
    rewrite Hn53 in *. change (2 ^ (53 - 53)) with 1 in Hv.
    change (53 - 111 + 58) with 0. change (2 ^ 0) with 1. lia.
  - assert (Hs : ∃ s : positive, (s = 1 ∨ s = 2 ∨ s = 3)%positive ∧ n = 53 + Z.pos s).
    { assert (n = 54 ∨ n = 55 ∨ n = 56) as [H|[H|H]] by lia;
        [exists 1%positive | exists 2%positive | exists 3%positive]; split; auto; lia. }
    destruct Hs as (s & Hs & Hns).
    assert (Hal : shl_align K (-58) (n - 111) = (K, -58)).
    { unfold shl_align. rewrite Hns.
      replace (53 + Z.pos s - 111 - -58) with (Z.pos s) by lia. reflexivity. }
    rewrite Hal.
    destruct (round_aux_shift K s Hs Hns) as (m' & e' & Hr & Hd & He & Hv).
    exists m', e'. split; [done|]. split; [done|]. right. by split.
Qed.

Lemma acc_step (k : Z) (a : spec_float) :
  0 ≤ k → accInv k a → fge a Engine.fixedDt = true →
  fge (F64.sub a Engine.fixedDt) Engine.fixedDt = false
  ∨ accInv (k + 1) (F64.sub a Engine.fixedDt).
Proof.
  intros Hk (m & e & Ha & Hd & He & HA) Hge.
  pose proof (accInv_ge_fixedDt a m e Ha Hd He Hge) as Hlow.
  subst a. rewrite fixedDt_eq in *.
  unfold F64.sub, SFsub, F64.prec, F64.emax. rewrite Z.min_r by lia.
  destruct (shl_align_value m e (-58) He) as [Hv _].
  replace (e - -58) with (e + 58) in Hv by lia.
  change (fst (shl_align fixedDt_m (-58) (-58))) with fixedDt_m.
  unfold cond_Zopp.
  set (A := Z.pos (fst (shl_align m e (-58)))) in *.
  assert (HA56 : A ≤ 2 ^ 56).
  { rewrite Hv. unfold fixedDt_m in HA. nia. }
  destruct (A - Z.pos fixedDt_m) as [|K|K] eqn:HK; [| |lia].
  - left. reflexivity.
  - cbn [binary_normalize].
    destruct (binary_round_bound K) as (m' & e' & Hr & Hd' & Hcase).
    { unfold fixedDt_m in *. lia. }
    rewrite Hr. destruct Hcase as [Hsmall|[He' Hv']].
    + left. rewrite <- fixedDt_eq. by apply small_exponent_below_fixedDt.
    + right. exists m', e'. split; [done|]. split; [done|]. split; [done|].
      unfold fixedDt_m in *. lia.
Qed.

Lemma accInv_15_absurd (a : spec_float) : ¬ accInv 15 a.
Proof.
  intros (m & e & _ & Hd & He & HA).
  pose proof (digits2_bounds m) as Hb. rewrite Hd in Hb.
  assert (2 ^ 0 ≤ 2 ^ (e + 58)) by (apply Z.pow_le_mono_r; lia).
  change (2 ^ 0) with 1 in *. change (2 ^ (53 - 1)) with 4503599627370496 in Hb.
  change (2 ^ 56) with 72057594037927936 in HA.
  unfold fixedDt_m in HA. nia.
Qed.

Lemma accLoop_countdown (j : nat) (k : Z) (a : spec_float) :
  0 ≤ k → k + Z.of_nat j = 15 →
  accInv k a ∨ fge a Engine.fixedDt = false →
  ∃ a' n, accLoop (S j) a = Some (a', n) ∧ (n ≤ j)%nat.
Proof.
  revert k a. induction j as [|j IH]; intros k a Hk Hkj Hinv.
  - assert (k = 15) as -> by lia.
    destruct Hinv as [Hinv|Hlt]; [by apply accInv_15_absurd in Hinv|].
    exists a, O. simpl. by rewrite Hlt.
  - cbn [accLoop]. destruct (fge a Engine.fixedDt) eqn:Hge.
    + destruct Hinv as [Hinv|?]; [|discriminate].
      destruct (IH (k + 1) (F64.sub a Engine.fixedDt)) as (a' & n & Hl & Hn);
        [lia | lia | |].
      { destruct (acc_step k a Hk Hinv Hge); [by right | by left]. }
      fold accLoop in Hl |- *. cbn [accLoop] in Hl. rewrite Hl.
      exists a', (S n). split; [done | lia].
    + exists a, O. split; [done | lia].
Qed.

(** From a valid accumulator not above 0.25 s the loop stops within 15
    fixed updates. *)
Lemma accLoop_bound (a : spec_float) :
  F64.valid a = true → fgt a Engine.maxAccum = false →
  ∃ a' n, accLoop 16 a = Some (a', n) ∧ (n ≤ 15)%nat.
Proof.
  intros Hv Hmax. apply (accLoop_countdown 15 0); [lia | lia |].
  destruct (fge a Engine.fixedDt) eqn:Hge; [left | by right].
  by apply acc_start.
Qed.

Lemma accLoop_maxAccum : ∃ a', accLoop 16 Engine.maxAccum = Some (a', 15%nat).
Proof. eexists. vm_compute. reflexivity. Qed.

Lemma clamp_bounded (a : spec_float) :
  F64.valid a = true →
  F64.valid (Engine.clamp a) = true ∧ fgt (Engine.clamp a) Engine.maxAccum = false.
Proof.
  intros Hv. unfold Engine.clamp. destruct (fgt a Engine.maxAccum) eqn:Hgt.
  - split; vm_compute; reflexivity.
  - by split.
Qed.

Lemma fixedLoop_of_accLoop fuel acc e a' n :
  accLoop fuel acc = Some (a', n) →
  ∃ e', Engine.fixedLoop fuel acc e = Some (a', e', n).
Proof.
  intros Hl. rewrite <- (fixedLoop_accLoop fuel acc e) in Hl.
  destruct (Engine.fixedLoop fuel acc e) as [[[a1 e1] n1]|]; [|discriminate].
  injection Hl as <- <-. by exists e1.
Qed.

(** A frame whose accumulator is a valid binary64 datum runs to its end on
    16 units of fuel: the fixed-update loop starts from the clamped
    accumulator, runs [n <= 15] fixed updates, and the frame is rendered
    once. *)
Lemma frame_runs (fuel : nat) (fi : Engine.FrameInput) (acc : spec_float) (e : Engine.t) :
  F64.valid (F64.add acc (Engine.elapsed fi)) = true →
  (16 ≤ fuel)%nat →
  ∃ acc' e0 e1 n,
    cam e0 = cam e
    ∧ Engine.fixedLoop fuel (Engine.clamp (F64.add acc (Engine.elapsed fi))) e0
      = Some (acc', e1, n)
    ∧ Engine.frame fuel fi (acc, e) = Some (acc', Engine.render e1, n)
    ∧ (n ≤ 15)%nat
    ∧ (fgt (F64.add acc (Engine.elapsed fi)) Engine.maxAccum = true → n = 15%nat).
Proof.
  intros Hv Hfuel. destruct (clamp_bounded _ Hv) as [Hcv Hcm].
  destruct (accLoop_bound _ Hcv Hcm) as (a' & n & Hl & Hn).
  apply (accLoop_fuel 16 fuel) in Hl; [|done].
  unfold Engine.frame.
  set (e0 := if InputState.quit _ then _ else _).
  destruct (fixedLoop_of_accLoop fuel _ e0 a' n Hl) as [e1 He1].
  exists a', e0, e1, n. rewrite He1.
  split; [unfold e0; by case_match|]. split; [done|]. split; [done|]. split; [done|].
  intros Hgt. unfold Engine.clamp in Hl. rewrite Hgt in Hl.
  destruct accLoop_maxAccum as [a15 H15].
  apply (accLoop_fuel 16 fuel) in H15; [|done]. congruence.
Qed.

Lemma fixedLoop_iter fuel acc e acc' e' n :
  Engine.fixedLoop fuel acc e = Some (acc', e', n) →
  e' = Nat.iter n (Engine.fixedUpdate Engine.fixedDt) e
  ∧ acc' = Nat.iter n (λ a, F64.sub a Engine.fixedDt) acc
  ∧ fge acc' Engine.fixedDt = false.
Proof.
  revert acc e acc' e' n. induction fuel as [|fuel IH]; intros acc e acc' e' n; simpl.
  - case_match eqn:Hge; [discriminate|]. by intros [= <- <- <-].
  - case_match eqn:Hge.
    + destruct (Engine.fixedLoop fuel _ _) as [[[a1 e1] n1]|] eqn:Hl; [|discriminate].
      intros [= <- <- <-]. destruct (IH _ _ _ _ _ Hl) as (-> & -> & Hlt).
      by rewrite !Nat.iter_succ_r.
    + by intros [= <- <- <-].
Qed.

(** Every fixed update of the loop follows a test [accumulator >= fixedDt]
    that held. *)
Lemma fixedLoop_tests fuel acc e acc' e' n :
  Engine.fixedLoop fuel acc e = Some (acc', e', n) →
  ∀ k, (k < n)%nat →
    fge (Nat.iter k (λ a, F64.sub a Engine.fixedDt) acc) Engine.fixedDt = true.
Proof.
  revert acc e acc' e' n. induction fuel as [|fuel IH]; intros acc e acc' e' n; simpl.
  - case_match eqn:Hge; [discriminate|]. intros [= <- <- <-] k Hk. lia.
  - case_match eqn:Hge.
    + destruct (Engine.fixedLoop fuel _ _) as [[[a1 e1] n1]|] eqn:Hl; [|discriminate].
      intros [= <- <- <-] k Hk. destruct k as [|k]; [exact Hge|].
      rewrite Nat.iter_succ_r. apply (IH _ _ _ _ _ Hl). lia.
    + intros [= <- <- <-] k Hk. lia.
Qed.

(** C3: in every frame the accumulator is clamped to 0.25 s before the
    fixed-update loop: a sum above 0.25 s becomes 0.25 s, any other is
    kept (0.25 is [2^52 * 2^-54] and 1/60 is [4803839602528529 * 2^-58] in
    binary64).  The frame then applies [fixedUpdate(1/60)] to the engine [n]
    times, [n <= 15], each time after the test [accumulator >= 1/60] held
    and subtracting 1/60 s, stops when the test fails, and renders once
    (16 units of fuel always suffice).  A frame in which the clamp fires
    applies exactly 15 fixed updates; a first frame of 0.5 s is one. *)
Theorem C3_at_most_15_fixed_updates (fuel : nat) (fi : Engine.FrameInput)
    (acc : spec_float) (e : Engine.t) :
  F64.valid (F64.add acc (Engine.elapsed fi)) = true →
  (16 ≤ fuel)%nat →
  let a0 := F64.add acc (Engine.elapsed fi) in
  let step := λ a, F64.sub a Engine.fixedDt in
  Engine.maxAccum = S754_finite false 4503599627370496 (-54)
  ∧ Engine.fixedDt = S754_finite false 4803839602528529 (-58)
  ∧ (fgt a0 Engine.maxAccum = true → Engine.clamp a0 = Engine.maxAccum)
  ∧ (fgt a0 Engine.maxAccum = false → Engine.clamp a0 = a0)
  ∧ (∃ n acc',
       Engine.frame fuel fi (acc, e)
       = Some (acc',
               Engine.render
                 (Nat.iter n (Engine.fixedUpdate Engine.fixedDt) (afterInput fi e)),
               n)
       ∧ (n ≤ 15)%nat
       ∧ acc' = Nat.iter n step (Engine.clamp a0)
       ∧ (∀ k, (k < n)%nat →
            fge (Nat.iter k step (Engine.clamp a0)) Engine.fixedDt = true)
       ∧ fge acc' Engine.fixedDt = false
       ∧ (fgt a0 Engine.maxAccum = true → n = 15%nat))
  ∧ (fgt (F64.add (F64.ofZ 0) (F64.lit 1 2)) Engine.maxAccum = true
     ∧ ∃ acc',
         Engine.frame 16 (Engine.mkFrameInput [] (F64.lit 1 2)) (F64.ofZ 0, e)
         = Some (acc',
                 Engine.render
                   (Nat.iter 15 (Engine.fixedUpdate Engine.fixedDt)
                      (afterInput (Engine.mkFrameInput [] (F64.lit 1 2)) e)),
                 15%nat)).
Proof.
  intros Hv Hfuel a0 step.
  assert (Hframe : ∀ fuel fi acc,
            F64.valid (F64.add acc (Engine.elapsed fi)) = true → (16 ≤ fuel)%nat →
            ∃ n acc',
              Engine.frame fuel fi (acc, e)
              = Some (acc',
                      Engine.render
                        (Nat.iter n (Engine.fixedUpdate Engine.fixedDt) (afterInput fi e)),
                      n)
              ∧ (n ≤ 15)%nat
              ∧ acc' = Nat.iter n step (Engine.clamp (F64.add acc (Engine.elapsed fi)))
              ∧ (∀ k, (k < n)%nat →
                   fge (Nat.iter k step (Engine.clamp (F64.add acc (Engine.elapsed fi))))
                     Engine.fixedDt = true)
              ∧ fge acc' Engine.fixedDt = false
              ∧ (fgt (F64.add acc (Engine.elapsed fi)) Engine.maxAccum = true →
                 n = 15%nat)).
  { clear. intros fuel fi acc Hv Hfuel.
    destruct (frame_runs fuel fi acc e Hv Hfuel)
      as (a' & e0 & e1 & n & _ & _ & Hf & Hn & H15).
    unfold Engine.frame in Hf. fold (afterInput fi e) in Hf.
    destruct (Engine.fixedLoop fuel _ (afterInput fi e)) as [[[a2 e2] n2]|] eqn:Hl;
      [|discriminate].
    injection Hf as -> He ->.
    destruct (fixedLoop_iter _ _ _ _ _ _ Hl) as (-> & Ha & Hlt).
    exists n, a'. split.
    { unfold Engine.frame. fold (afterInput fi e). by rewrite Hl. }
    split; [exact Hn|]. split; [exact Ha|].
    split; [exact (fixedLoop_tests _ _ _ _ _ _ Hl)|]. split; [exact Hlt|]. exact H15. }
  split; [vm_compute; reflexivity|]. split; [vm_compute; reflexivity|].
  split; [intros H; unfold Engine.clamp; by rewrite H|].
  split; [intros H; unfold Engine.clamp; by rewrite H|].
  split; [by apply Hframe|].
  assert (Hgt : fgt (F64.add (F64.ofZ 0) (F64.lit 1 2)) Engine.maxAccum = true)
    by (vm_compute; reflexivity).
  split; [exact Hgt|].
  destruct (Hframe 16%nat (Engine.mkFrameInput [] (F64.lit 1 2)) (F64.ofZ 0))
    as (n & acc' & Hf & _ & _ & _ & _ & H15); [vm_compute; reflexivity | lia |].
  rewrite (H15 Hgt) in Hf. by exists acc'.
Qed.

Lemma C3_witness :
  ∃ acc',
    Engine.frame 16 (Engine.mkFrameInput [] (F64.lit 1 2)) (F64.ofZ 0, camEngine)
    = Some (acc',
            Engine.render
              (Nat.iter 15 (Engine.fixedUpdate Engine.fixedDt)
                 (afterInput (Engine.mkFrameInput [] (F64.lit 1 2)) camEngine)),
            15%nat).
Proof.
  destruct (C3_at_most_15_fixed_updates 16 (Engine.mkFrameInput [] (F64.lit 1 2))
              (F64.ofZ 0) camEngine) as (_ & _ & _ & _ & _ & _ & H).
  - vm_compute. reflexivity.
  - lia.
  - exact H.
Defined.

(** The accumulator values around the clamp: 0.25 s gives 15 updates and
    leaves less than a step; a frame of 1/60 s gives one; 0.016 s none. *)
Example accLoop_examples :
  snd <$> accLoop 16 Engine.maxAccum = Some 15%nat
  ∧ snd <$> accLoop 16 Engine.fixedDt = Some 1%nat
  ∧ snd <$> accLoop 16 (F64.lit 16 1000) = Some 0%nat
  ∧ snd <$> accLoop 16 (F64.lit 24 100) = Some 14%nat.
Proof. vm_compute. repeat split; reflexivity. Qed.

(** ** The camera, frame by frame *)

(** C4 (as amended): the camera is smoothed once per rendered frame, by
    [computeCamera] called from [render], and not by the fixed update,
    which leaves it where it was.  [computeCamera] tracks the first entity
    in store order having both Physics and Transform; with the target at
    its position minus half the viewport it sets
    [cam += (target - cam) * 0.12f], and without such an entity it changes
    nothing.  From cam=(0,0) with target (100,100), one call yields
    cam=(12,12). *)
Theorem C4_camera_once_per_frame :
  (∀ dt e, cam (Engine.fixedUpdate dt e) = cam e)
  ∧ (∀ fuel fi acc e,
       F64.valid (F64.add acc (Engine.elapsed fi)) = true → (16 ≤ fuel)%nat →
       ∃ acc' e1 n, Engine.frame fuel fi (acc, e) = Some (acc', Engine.computeCamera e1, n)
                    ∧ cam e1 = cam e)
  ∧ (∀ e pre id post p tr,
       World.all (Engine.world e) = pre ++ id :: post →
       Forall (untracked (Engine.world e)) pre →
       getPhysics (Engine.world e) id = Some p →
       getTransform (Engine.world e) id = Some tr →
       let targetX := F32.sub (tr_x tr) (F32.div (F32.ofZ (Engine.screenW e)) (F32.ofZ 2)) in
       let targetY := F32.sub (tr_y tr) (F32.div (F32.ofZ (Engine.screenH e)) (F32.ofZ 2)) in
       cam (Engine.computeCamera e)
       = (F32.add (Engine.camX e) (F32.mul (F32.sub targetX (Engine.camX e)) (F32.lit 12 100)),
          F32.add (Engine.camY e) (F32.mul (F32.sub targetY (Engine.camY e)) (F32.lit 12 100))))
  ∧ (∀ e, Forall (untracked (Engine.world e)) (World.all (Engine.world e)) →
          Engine.computeCamera e = e)
  ∧ (cam camEngine = (F32.ofZ 0, F32.ofZ 0)
     ∧ cam (Engine.computeCamera camEngine) = (F32.ofZ 12, F32.ofZ 12)).
Proof.
  split; [|split; [|split; [|split]]].
  - apply cam_fixedUpdate.
  - intros fuel fi acc e Hv Hfuel.
    destruct (frame_runs fuel fi acc e Hv Hfuel) as (a' & e0 & e1 & n & H0 & Hl & Hf & _).
    exists a', e1, n. split; [exact Hf|].
    by rewrite (cam_fixedLoop _ _ _ _ _ _ Hl).
  - intros e pre id post p tr Hall Hpre Hp Ht. unfold Engine.computeCamera.
    rewrite Hall, (findTracked_first _ _ _ _ p tr) by done. reflexivity.
  - intros e Hall. unfold Engine.computeCamera.
    destruct (Engine.findTracked _ _) as [tr|] eqn:Hf; [|done].
    apply findTracked_Some in Hf as (pre & id & post & Heq & _ & [p Hp] & Ht).
    rewrite Heq in Hall. apply Forall_app in Hall as [_ Hall].
    apply Forall_cons in Hall as [[Hid|Hid] _]; congruence.
  - split; vm_compute; reflexivity.
Qed.

(** C4 (counterexample): with cam=(0,0) and the target at (100,100), one
    fixed update leaves the camera at (0,0); it is the rendering of a frame
    that moves it to (12,12), once, whether the frame ran no fixed update
    or fifteen (the body falls meanwhile, so only the x of the camera is
    compared after the fifteen). *)
Lemma C4_counterexample :
  cam camEngine = (F32.ofZ 0, F32.ofZ 0)
  ∧ (∃ tr, Engine.findTracked (Engine.world camEngine) (World.all (Engine.world camEngine))
           = Some tr
           ∧ F32.sub (tr_x tr) (F32.div (F32.ofZ (Engine.screenW camEngine)) (F32.ofZ 2))
             = F32.ofZ 100
           ∧ F32.sub (tr_y tr) (F32.div (F32.ofZ (Engine.screenH camEngine)) (F32.ofZ 2))
             = F32.ofZ 100)
  ∧ cam (Engine.fixedUpdate Engine.fixedDt camEngine) = (F32.ofZ 0, F32.ofZ 0)
  ∧ cam (Engine.fixedUpdate Engine.fixedDt camEngine) ≠ (F32.ofZ 12, F32.ofZ 12)
  ∧ (λ r, (cam (snd (fst r)), snd r))
      <$> Engine.frame 16 (Engine.mkFrameInput [] (F64.ofZ 0)) (F64.ofZ 0, camEngine)
    = Some ((F32.ofZ 12, F32.ofZ 12), 0%nat)
  ∧ (λ r, (Engine.camX (snd (fst r)), snd r))
      <$> Engine.frame 16 (Engine.mkFrameInput [] (F64.lit 1 2)) (F64.ofZ 0, camEngine)
    = Some (F32.ofZ 12, 15%nat).
Proof.
  split; [vm_compute; reflexivity|].
  split; [eexists; repeat split; vm_compute; reflexivity|].
  split; [vm_compute; reflexivity|].
  split; [vm_compute; discriminate|].
  split; vm_compute; reflexivity.
Qed.

Lemma C4_witness :
  cam (Engine.computeCamera camEngine)
  = (F32.add (Engine.camX camEngine)
       (F32.mul (F32.sub (F32.sub (F32.ofZ 740)
                            (F32.div (F32.ofZ (Engine.screenW camEngine)) (F32.ofZ 2)))
                   (Engine.camX camEngine)) (F32.lit 12 100)),
     F32.add (Engine.camY camEngine)
       (F32.mul (F32.sub (F32.sub (F32.ofZ 460)
                            (F32.div (F32.ofZ (Engine.screenH camEngine)) (F32.ofZ 2)))
                   (Engine.camY camEngine)) (F32.lit 12 100))).
Proof.
  apply (proj1 (proj2 (proj2 C4_camera_once_per_frame)) camEngine [] 1 [] Physics0
           (mkTransform (F32.ofZ 740) (F32.ofZ 460) F32.zero F32.one F32.one)).
  - vm_compute. reflexivity.
  - constructor.
  - vm_compute. reflexivity.
  - vm_compute. reflexivity.
Defined.

(* ================================================================== *)
(** * Further properties of the program *)

(** ** The entity store *)

Lemma storeOk_empty : storeOk World.empty.
Proof. split; [apply NoDup_nil_2 | constructor]. Qed.

(** X1: [create] hands out an id that is not in the store, appends it to
    the entity list, leaves the components alone and keeps the store
    well-formed (as long as the counter has not reached [INT_MAX]). *)
Theorem X1_create_fresh (w : World.t) :
  storeOk w → World.nextId w < INT_MAX → INT_MIN ≤ World.nextId w →
  let id := fst (World.create w) in
  let w' := snd (World.create w) in
  (id ∉ World.entities w)
  ∧ World.entities w' = World.entities w ++ [id]
  ∧ World.components w' = World.components w
  ∧ World.nextId w' = id + 1
  ∧ storeOk w'.
Proof.
  intros [Hnd Hlt] Hmax Hmin. cbn [World.create fst snd World.entities World.components World.nextId].
  assert (Hfresh : World.nextId w ∉ World.entities w).
  { intros Hin. rewrite Forall_forall in Hlt. specialize (Hlt _ Hin). lia. }
  rewrite wrap32_id by (unfold INT_MIN, INT_MAX in *; lia).
  split; [done|]. split; [done|]. split; [done|]. split; [done|]. split.
  - apply NoDup_app. split; [done|]. split; [|apply NoDup_singleton].
    intros x Hx Hx'. apply list_elem_of_singleton in Hx'. by subst.
  - apply Forall_app. split.
    + eapply Forall_impl; [exact Hlt|]. simpl. intros; lia.
    + constructor; [simpl; lia | constructor].
Qed.

Lemma X1_witness :
  let id := fst (World.create World.empty) in
  let w' := snd (World.create World.empty) in
  (id ∉ World.entities World.empty)
  ∧ World.entities w' = World.entities World.empty ++ [id]
  ∧ World.components w' = World.components World.empty
  ∧ World.nextId w' = id + 1
  ∧ storeOk w'.
Proof.
  apply (X1_create_fresh World.empty).
  - exact storeOk_empty.
  - vm_compute. reflexivity.
  - vm_compute. discriminate.
Defined.

(** X2: [destroy] removes the entity and all its components, keeps the
    other entities in their order with their components, never lowers the
    id counter, and keeps the store well-formed; so the id is not handed
    out again by the next [create]. *)
Theorem X2_destroy_removes (w : World.t) (id : Z) :
  storeOk w →
  let w' := World.destroy id w in
  (id ∉ World.entities w')
  ∧ (∀ name, World.get w' id name = None)
  ∧ (∀ id' name, id' ≠ id → World.get w' id' name = World.get w id' name)
  ∧ World.entities w' = filter (λ e, e ≠ id) (World.entities w)
  ∧ storeOk w'
  ∧ (id ∈ World.entities w → fst (World.create w') ≠ id).
Proof.
  intros [Hnd Hlt] w'. unfold w', World.destroy, World.get. simpl.
  split; [|split; [|split; [|split; [|split]]]].
  - rewrite list_elem_of_filter. tauto.
  - intros name. by rewrite lookup_delete_eq.
  - intros id' name Hne. by rewrite lookup_delete_ne.
  - done.
  - split; simpl.
    + by apply NoDup_filter.
    + rewrite Forall_forall in Hlt |- *. intros x Hx.
      apply list_elem_of_filter in Hx as [_ Hx]. by apply Hlt.
  - intros Hin. rewrite Forall_forall in Hlt. specialize (Hlt _ Hin). lia.
Qed.

Lemma X2_witness :
  let w' := World.destroy 1 tieWorld in
  (1 ∉ World.entities w')
  ∧ (∀ name, World.get w' 1 name = None)
  ∧ (∀ id' name, id' ≠ 1 → World.get w' id' name = World.get tieWorld id' name)
  ∧ World.entities w' = filter (λ e, e ≠ 1) (World.entities tieWorld)
  ∧ storeOk w'
  ∧ (1 ∈ World.entities tieWorld → fst (World.create w') ≠ 1).
Proof.
  apply (X2_destroy_removes tieWorld 1).
  split; vm_compute.
  - apply NoDup_cons. split; [|apply NoDup_singleton].
    intros H. apply list_elem_of_singleton in H. discriminate.
  - repeat constructor.
Defined.

(** X3: [add] then [get] answers the component added, whether or not the
    entity was created and whatever was stored under that name before; every
    other slot of the store, the entity list and the counter are unchanged. *)
Theorem X3_add_get (w : World.t) (id : Z) (name : string) (c : Component) :
  World.get (World.add id name c w) id name = Some c
  ∧ (∀ id' name', (id', name') ≠ (id, name) →
       World.get (World.add id name c w) id' name' = World.get w id' name')
  ∧ World.entities (World.add id name c w) = World.entities w
  ∧ World.nextId (World.add id name c w) = World.nextId w.
Proof.
  split; [|split; [|split]]; try reflexivity.
  - rewrite get_add. by rewrite decide_True.
  - intros id' name' Hne. rewrite get_add. rewrite decide_False; [done|].
    intros [-> ->]. by apply Hne.
Qed.

(** ** Input *)

Lemma update_snoc evs e st :
  InputState.update (evs ++ [e]) st = InputState.handle (InputState.update evs st) e.
Proof. unfold InputState.update. by rewrite foldl_app. Qed.

Lemma down_handle st e s :
  InputState.down (InputState.handle st e) s = keyAfter s (InputState.down st s) e.
Proof.
  unfold InputState.down. destruct e as [|s'|s'| | | |]; simpl; try reflexivity.
  - case_decide as H; [subst; by rewrite lookup_insert_eq | by rewrite lookup_insert_ne].
  - case_decide as H; [subst; by rewrite lookup_insert_eq | by rewrite lookup_insert_ne].
Qed.

Lemma quit_handle st e :
  InputState.quit (InputState.handle st e) = InputState.quit st || isQuit e.
Proof. destruct e; simpl; by rewrite ?orb_false_r, ?orb_true_r. Qed.

Lemma quit_update evs st :
  InputState.quit (InputState.update evs st) = InputState.quit st || existsb isQuit evs.
Proof.
  revert st. induction evs as [|e evs IH]; intros st; simpl.
  - by rewrite orb_false_r.
  - unfold InputState.update in *. simpl. rewrite IH, quit_handle.
    by rewrite orb_assoc.
Qed.

(** X4: after [update] the state of a key is the one its own last
    KEYDOWN/KEYUP event left (its state before when the events do not
    mention it), whatever happened to the other keys; a key that never had
    an event is up; and the quit flag is set by a QUIT event and never
    cleared. *)
Theorem X4_update_keys (evs : list Event) (st : InputState.t) (s : Z) :
  InputState.down (InputState.update evs st) s = foldl (keyAfter s) (InputState.down st s) evs
  ∧ InputState.down (InputState.update (evs ++ [EKeyDown s]) st) s = true
  ∧ InputState.down (InputState.update (evs ++ [EKeyUp s]) st) s = false
  ∧ InputState.down InputState.init s = false
  ∧ InputState.quit (InputState.update evs st) = InputState.quit st || existsb isQuit evs.
Proof.
  assert (Hd : ∀ evs st, InputState.down (InputState.update evs st) s
                         = foldl (keyAfter s) (InputState.down st s) evs).
  { clear. intros evs. induction evs as [|e evs IH]; intros st; simpl; [done|].
    unfold InputState.update in *. simpl. by rewrite IH, down_handle. }
  split; [apply Hd|]. split; [|split; [|split]].
  - rewrite update_snoc, down_handle. simpl. by rewrite decide_True.
  - rewrite update_snoc, down_handle. simpl. by rewrite decide_True.
  - reflexivity.
  - apply quit_update.
Qed.

(** X5: an action that was never bound is not down, whatever keys are
    held, and binding an action leaves the answer for every other action
    as it was. *)
Theorem X5_actionDown_unbound (st : InputState.t) (m : InputMap.t)
    (action other : string) (key : Z) :
  InputMap.actionDown st InputMap.empty action = false
  ∧ (m !! action = None → InputMap.actionDown st m action = false)
  ∧ (other ≠ action →
     InputMap.actionDown st (InputMap.bind other key m) action
     = InputMap.actionDown st m action).
Proof.
  unfold InputMap.actionDown, InputMap.bind, InputMap.empty.
  split; [by rewrite lookup_empty|]. split.
  - by intros ->.
  - intros Hne. by rewrite lookup_insert_ne.
Qed.

(** ** The particle pool: construction, search and emission *)

Lemma init_all_free (maxP : Z) :
  Forall (λ p, ParticleSystem.isFree p = true ∧ ParticleSystem.isLive p = false)
    (ParticleSystem.init maxP).
Proof.
  unfold ParticleSystem.init. apply Forall_replicate. split; vm_compute; reflexivity.
Qed.

Lemma update_free_pool dt pool :
  Forall (λ p, ParticleSystem.isFree p = true) pool → ParticleSystem.update dt pool = pool.
Proof.
  unfold ParticleSystem.update. induction 1 as [|p pool Hp _ IH]; simpl; [done|].
  by rewrite step_free, IH.
Qed.

(** X6: a pool constructed with [maxP >= 0] slots has exactly [maxP]
    slots, all of them dead and none live; [update] leaves it as it is for
    every [dt], and [findFree] answers slot 0 when there is one and -1 for
    an empty pool. *)
Theorem X6_fresh_pool (maxP : Z) (dt : spec_float) :
  0 ≤ maxP →
  let pool := ParticleSystem.init maxP in
  Z.of_nat (length pool) = maxP
  ∧ Z.of_nat (deadCount pool) = maxP
  ∧ liveCount pool = 0%nat
  ∧ ParticleSystem.update dt pool = pool
  ∧ ParticleSystem.findFree pool = (if decide (maxP = 0) then -1 else 0).
Proof.
  intros Hn pool. pose proof (init_all_free maxP) as Hall. fold pool in Hall.
  assert (Hlen : Z.of_nat (length pool) = maxP).
  { unfold pool, ParticleSystem.init. rewrite length_replicate. lia. }
  assert (Hcount : deadCount pool = length pool ∧ liveCount pool = 0%nat).
  { clear -Hall. induction Hall as [|p l [Hf Hl] _ [IH1 IH2]]; [done|].
    rewrite deadCount_cons, liveCount_cons, Hf, Hl, IH1, IH2. done. }
  destruct Hcount as [Hd Hl].
  split; [done|]. split; [lia|]. split; [done|]. split.
  - apply update_free_pool. eapply Forall_impl; [exact Hall|]. by intros p [? _].
  - unfold pool, ParticleSystem.init. case_decide as H0.
    + rewrite H0. reflexivity.
    + destruct (Z.to_nat maxP) as [|k] eqn:Hk; [lia|]. reflexivity.
Qed.

Lemma X6_witness :
  let pool := ParticleSystem.init 2048 in
  Z.of_nat (length pool) = 2048
  ∧ Z.of_nat (deadCount pool) = 2048
  ∧ liveCount pool = 0%nat
  ∧ ParticleSystem.update Engine.fixedDt pool = pool
  ∧ ParticleSystem.findFree pool = (if decide (2048 = 0) then -1 else 0).
Proof. apply (X6_fresh_pool 2048 Engine.fixedDt). lia. Defined.

(** X7: [findFree] answers -1 exactly when no slot is dead; otherwise it
    answers the index of a dead slot inside the pool, and every slot before
    it is not dead. *)
Theorem X7_findFree_lowest (pool : ParticleSystem.t) :
  (ParticleSystem.findFree pool = -1
   ↔ Forall (λ p, ParticleSystem.isFree p = false) pool)
  ∧ (ParticleSystem.findFree pool ≠ -1 →
     0 ≤ ParticleSystem.findFree pool < Z.of_nat (length pool)
     ∧ (∃ p, pool !! Z.to_nat (ParticleSystem.findFree pool) = Some p
             ∧ ParticleSystem.isFree p = true)
     ∧ (∀ (j : nat) q, Z.of_nat j < ParticleSystem.findFree pool →
          pool !! j = Some q → ParticleSystem.isFree q = false)).
Proof.
  unfold ParticleSystem.findFree.
  destruct (findFreeFrom_spec 0 pool)
    as [[Hf Hall]|[(pre & p & post & -> & Hpre & Hp & Hf)|?]]; [| |lia].
  - rewrite Hf. split; [done|]. by intros [].
  - rewrite Hf. split.
    + split; [lia|]. intros Hall. apply Forall_app in Hall as [_ Hall].
      apply Forall_cons in Hall as [Hp' _]. congruence.
    + intros _. split; [rewrite length_app; simpl; lia|]. split.
      * exists p. split; [|done].
        replace (Z.to_nat (0 + Z.of_nat (length pre))) with (length pre) by lia.
        by apply list_lookup_middle.
      * intros j q Hj Hq. rewrite lookup_app_l in Hq by lia.
        rewrite Forall_forall in Hpre. apply Hpre. by eapply list_elem_of_lookup_2.
Qed.

(** X8: [emit(x, y, n)] with [0 <= n] not above the number of dead slots
    makes exactly [n] particles live and leaves [dead - n] dead slots; the
    first particle goes into the lowest dead slot, at (x, y) with age 0; and
    a call with [n <= 0] changes nothing. *)
Theorem X8_emit_within_capacity {Rng : Type} (rand : Rng → Z * Rng) (RAND_MAX : Z)
    (cosf sinf : spec_float → spec_float) (x y : spec_float) (n : Z)
    (pool : ParticleSystem.t) (g : Rng) :
  (∀ g, 0 ≤ fst (rand g) ≤ RAND_MAX) →
  1 ≤ n ≤ Z.of_nat (deadCount pool) →
  let emit := ParticleSystem.emit rand RAND_MAX cosf sinf x y in
  let pool' := fst (emit n (pool, g)) in
  Z.of_nat (liveCount pool') = Z.of_nat (liveCount pool) + n
  ∧ Z.of_nat (deadCount pool') = Z.of_nat (deadCount pool) - n
  ∧ (∃ p, pool' !! Z.to_nat (ParticleSystem.findFree pool) = Some p
          ∧ p_x p = x ∧ p_y p = y ∧ age p = F32.zero ∧ ParticleSystem.isLive p = true)
  ∧ (∀ m, m ≤ 0 → emit m (pool, g) = (pool, g)).
Proof.
  intros Hrand Hn emit pool'. unfold pool', emit, ParticleSystem.emit.
  destruct (emitLoop_counts rand RAND_MAX cosf sinf Hrand (Z.to_nat n) x y (pool, g))
    as (Hd & Hl & Hk). cbn [fst] in Hd, Hl, Hk.
  split; [rewrite Hl; lia|]. split; [rewrite Hd; lia|]. split.
  - destruct (Z.to_nat n) as [|k] eqn:Hnk; [lia|]. cbn [ParticleSystem.emitLoop fst snd].
    assert (Hr : 0 ≤ ParticleSystem.findFree pool < Z.of_nat (length pool)).
    { unfold ParticleSystem.findFree.
      destruct (findFreeFrom_spec 0 pool)
        as [[_ Hno]|[(pre & p & post & -> & _ & _ & Hf)|?]]; [| |lia].
      - apply deadCount_none in Hno. lia.
      - rewrite Hf, length_app. simpl. lia. }
    destruct (ParticleSystem.findFree pool <? 0) eqn:Hlt; [lia|].
    destruct (ParticleSystem.spawn rand RAND_MAX cosf sinf x y g) as [q g'] eqn:Hq.
    pose proof (spawn_live rand RAND_MAX cosf sinf Hrand x y g) as [Hlive Hnfree].
    rewrite Hq in Hlive, Hnfree. simpl in Hlive, Hnfree.
    destruct (emitLoop_counts rand RAND_MAX cosf sinf Hrand k x y
                (<[Z.to_nat (ParticleSystem.findFree pool) := q]> pool, g'))
      as (_ & _ & Hkeep). cbn [fst] in Hkeep.
    exists q. split.
    + apply Hkeep; [|done]. apply list_lookup_insert_eq. lia.
    + assert (Hqx : q = fst (ParticleSystem.spawn rand RAND_MAX cosf sinf x y g))
        by (by rewrite Hq).
      unfold ParticleSystem.spawn in Hqx.
      destruct (rand g) as [r1 g1]. destruct (rand g1) as [r2 g2].
      destruct (rand g2) as [r3 g3]. simpl in Hqx. subst q. done.
  - intros m Hm. destruct (Z.to_nat m) eqn:Hz; [done | lia].
Qed.

Lemma X8_witness :
  let emit := ParticleSystem.emit lcg (2 ^ 31 - 1) id id (F32.ofZ 1) (F32.ofZ 2) in
  let pool := [deadParticle; liveParticle; deadParticle] in
  let pool' := fst (emit 2 (pool, 42)) in
  Z.of_nat (liveCount pool') = Z.of_nat (liveCount pool) + 2
  ∧ Z.of_nat (deadCount pool') = Z.of_nat (deadCount pool) - 2
  ∧ (∃ p, pool' !! Z.to_nat (ParticleSystem.findFree pool) = Some p
          ∧ p_x p = F32.ofZ 1 ∧ p_y p = F32.ofZ 2 ∧ age p = F32.zero
          ∧ ParticleSystem.isLive p = true)
  ∧ (∀ m, m ≤ 0 → emit m (pool, 42) = (pool, 42)).
Proof.
  apply (X8_emit_within_capacity lcg (2 ^ 31 - 1) id id (F32.ofZ 1) (F32.ofZ 2) 2
           [deadParticle; liveParticle; deadParticle] 42).
  - exact lcg_range.
  - vm_compute. split; discriminate.
Defined.

(** ** The collision pass as a whole *)

(** Whatever relation between worlds is reflexive, transitive and kept by
    each [resolveCollision] is kept by the whole pass. *)
Section SolveRel.
Variable R : World.t → World.t → Prop.
Hypothesis R_refl : ∀ w, R w w.
Hypothesis R_trans : ∀ w1 w2 w3, R w1 w2 → R w2 w3 → R w1 w3.
Hypothesis R_step : ∀ a b aa bb w, R w (Engine.resolveCollision a b aa bb w).

Lemma solveInner_rel a aa bs w : R w (Engine.solveInner a aa bs w).
Proof using R_refl R_trans R_step.
  revert w. induction bs as [|b bs IH]; intros w; simpl; [apply R_refl|].
  repeat case_match; try apply IH.
  eapply R_trans; [apply R_step | apply IH].
Qed.

Lemma solveOuter_rel ents w : R w (Engine.solveOuter ents w).
Proof using R_refl R_trans R_step.
  revert w. induction ents as [|a ents IH]; intros w; simpl; [apply R_refl|].
  repeat case_match; try apply IH.
  eapply R_trans; [apply solveInner_rel | apply IH].
Qed.

Lemma collisionSolve_rel w : R w (Engine.collisionSolve w).
Proof using R_refl R_trans R_step. apply solveOuter_rel. Qed.
End SolveRel.

Lemma getCollider_resolveCollision a b aa bb w id :
  getCollider (Engine.resolveCollision a b aa bb w) id = getCollider w id.
Proof.
  apply (resolveCollision_preserves (λ w, getCollider w id));
    intros; [apply getCollider_modTransform | apply getCollider_modPhysics].
Qed.

(** X9: the intersection test is symmetric, and boxes that only touch along
    an edge intersect. *)
Theorem X9_aabbIntersect_symmetric (a b : AABB) :
  Engine.aabbIntersect a b = Engine.aabbIntersect b a
  ∧ Engine.aabbIntersect (mkAABB (F32.ofZ 0) (F32.ofZ 0) (F32.ofZ 64) (F32.ofZ 64))
      (mkAABB (F32.ofZ 64) (F32.ofZ 0) (F32.ofZ 64) (F32.ofZ 64)) = true.
Proof.
  split; [|vm_compute; reflexivity]. unfold Engine.aabbIntersect. f_equal.
  destruct (flt (F32.add (bx_x a) (bx_w a)) (bx_x b)),
    (flt (F32.add (bx_x b) (bx_w b)) (bx_x a)),
    (flt (F32.add (bx_y a) (bx_h a)) (bx_y b)),
    (flt (F32.add (bx_y b) (bx_h b)) (bx_y a)); reflexivity.
Qed.

Lemma resolveCollision_keeps_static a b aa bb w id :
  (∀ c, getCollider w id = Some c → isStatic c = true) →
  getTransform (Engine.resolveCollision a b aa bb w) id = getTransform w id.
Proof.
  intros Hst. unfold Engine.resolveCollision.
  destruct (getCollider w a) as [ac|] eqn:Hac; [|done].
  destruct (getTransform w a) as [ta|]; [|done].
  destruct (getCollider w b) as [bc|] eqn:Hbc; [|done].
  destruct (getTransform w b) as [tb|]; [|done].
  assert (Ha : id = a → isStatic ac = true) by (intros ->; by apply Hst).
  assert (Hb : id = b → isStatic bc = true) by (intros ->; by apply Hst).
  unfold Engine.resolveX, Engine.resolveY.
  destruct (isStatic ac) eqn:Hsa, (isStatic bc) eqn:Hsb; simpl;
    case_match; autorewrite with store; repeat case_decide; subst;
    try reflexivity; first [specialize (Ha eq_refl) | specialize (Hb eq_refl)];
    discriminate.
Qed.

(** X10: a collision pass never moves a static body: the Transform of an
    entity whose collider is static, or that has no collider, is the same
    after [collisionSolve] as before. *)
Theorem X10_static_bodies_never_move (w : World.t) (id : Z) :
  (∀ c, getCollider w id = Some c → isStatic c = true) →
  getTransform (Engine.collisionSolve w) id = getTransform w id.
Proof.
  intros Hst.
  apply (collisionSolve_rel
           (λ w1 w2, (∀ c, getCollider w1 id = Some c → isStatic c = true) →
                     (∀ c, getCollider w2 id = Some c → isStatic c = true)
                     ∧ getTransform w2 id = getTransform w1 id)); [| | |exact Hst].
  - intros w1 H. by split.
  - intros w1 w2 w3 H12 H23 H1. destruct (H12 H1) as [H2 E12].
    destruct (H23 H2) as [H3 E23]. split; [done | congruence].
  - intros a b aa bb w1 H1. split.
    + intros c. rewrite getCollider_resolveCollision. apply H1.
    + by apply resolveCollision_keeps_static.
Qed.

Lemma X10_witness :
  getTransform (Engine.collisionSolve tieWorld) 2 = getTransform tieWorld 2.
Proof.
  apply (X10_static_bodies_never_move tieWorld 2).
  intros c. vm_compute. intros [= <-]. reflexivity.
Defined.

Lemma velocityZeroed_refl p : velocityZeroed p p.
Proof. unfold velocityZeroed. tauto. Qed.

Lemma velocityZeroed_trans p1 p2 p3 :
  velocityZeroed p1 p2 → velocityZeroed p2 p3 → velocityZeroed p1 p3.
Proof.
  unfold velocityZeroed. intros (Hx & Hy & -> & -> & -> & -> & Hg).
  intros (Hx' & Hy' & -> & -> & -> & -> & Hg').
  split; [destruct Hx as [<-|?], Hx' as [E|?]; auto; rewrite E; auto|].
  split; [destruct Hy as [<-|?], Hy' as [E|?]; auto; rewrite E; auto|].
  repeat split; auto.
Qed.

Lemma passRel_refl id w : passRel id w w.
Proof.
  unfold passRel. split.
  - destruct (getPhysics w id); constructor. apply velocityZeroed_refl.
  - destruct (getTransform w id); constructor. by unfold onlyMoved.
Qed.

Lemma passRel_trans id w1 w2 w3 : passRel id w1 w2 → passRel id w2 w3 → passRel id w1 w3.
Proof.
  unfold passRel. intros [P12 T12] [P23 T23]. split.
  - destruct P12 as [p1 p2 H12|]; inversion P23 as [? p3 H23|]; subst; constructor.
    by eapply velocityZeroed_trans.
  - destruct T12 as [t1 t2 (?&?&?)|]; inversion T23 as [? t3 (?&?&?)|]; subst; constructor.
    unfold onlyMoved. repeat split; congruence.
Qed.

Lemma passRel_resolveCollision id a b aa bb w :
  passRel id w (Engine.resolveCollision a b aa bb w).
Proof.
  unfold Engine.resolveCollision.
  repeat case_match; try apply passRel_refl; subst;
    unfold passRel, Engine.resolveX, Engine.resolveY; cbv zeta.
  - split; repeat case_match; autorewrite with store; repeat case_decide;
      try (destruct (getPhysics w id); constructor; unfold velocityZeroed; simpl; tauto);
      destruct (getTransform w id); constructor; unfold onlyMoved; simpl; tauto.
  - split; repeat case_match; autorewrite with store; repeat case_decide;
      try (destruct (getPhysics w id); constructor; unfold velocityZeroed; simpl;
           repeat case_match; simpl; tauto);
      destruct (getTransform w id); constructor; unfold onlyMoved; simpl; tauto.
Qed.

(** X11: a collision pass never creates or destroys an entity and never
    changes a collider, a script or an animated sprite.  Of a Physics
    component it changes nothing but the velocity, each coordinate of which
    is kept or set to zero, and the ground flag, which it may only set; of
    a Transform it changes nothing but the position; and it neither adds
    nor removes either component. *)
Theorem X11_pass_frame (w : World.t) (id : Z) :
  World.entities (Engine.collisionSolve w) = World.entities w
  ∧ getCollider (Engine.collisionSolve w) id = getCollider w id
  ∧ getScript (Engine.collisionSolve w) id = getScript w id
  ∧ getAnimatedSprite (Engine.collisionSolve w) id = getAnimatedSprite w id
  ∧ option_Forall2 velocityZeroed (getPhysics w id) (getPhysics (Engine.collisionSolve w) id)
  ∧ option_Forall2 onlyMoved (getTransform w id) (getTransform (Engine.collisionSolve w) id).
Proof.
  split; [apply entities_collisionSolve|].
  split; [apply (collisionSolve_preserves (λ w, getCollider w id));
          intros; [apply getCollider_modTransform | apply getCollider_modPhysics]|].
  split; [apply (collisionSolve_preserves (λ w, getScript w id));
          intros; [apply getScript_modTransform | apply getScript_modPhysics]|].
  split; [apply getAnimatedSprite_collisionSolve|].
  apply (collisionSolve_rel (passRel id)).
  - apply passRel_refl.
  - apply passRel_trans.
  - apply passRel_resolveCollision.
Qed.

Lemma solveInner_noOverlap a ta ac bs w :
  getCollider w a = Some ac → getTransform w a = Some ta →
  (∀ b bc tb, b ∈ bs → getCollider w b = Some bc → getTransform w b = Some tb →
     Engine.aabbIntersect (Engine.box ta ac) (Engine.box tb bc) = false) →
  Engine.solveInner a (Engine.box ta ac) bs w = w.
Proof.
  intros Hac Hta. induction bs as [|b bs IH]; intros Hno; simpl; [done|].
  assert (Hrest : Engine.solveInner a (Engine.box ta ac) bs w = w).
  { apply IH. intros b' bc tb Hb'. apply Hno. by right. }
  destruct (getCollider w b) as [bc|] eqn:Hbc; [|done].
  destruct (getTransform w b) as [tb|] eqn:Htb; [|done].
  rewrite (Hno b bc tb) by (done || by left). done.
Qed.

(** X12: when no two different entities have intersecting boxes the
    collision pass changes nothing at all. *)
Theorem X12_pass_without_overlap (w : World.t) :
  NoDup (World.entities w) → noOverlap w → Engine.collisionSolve w = w.
Proof.
  intros Hnd Hno. unfold Engine.collisionSolve, World.all.
  assert (Hgen : ∀ ents, NoDup ents → ents ⊆ World.entities w →
                         Engine.solveOuter ents w = w).
  { clear Hnd. induction ents as [|a ents IH]; intros Hnd Hsub; simpl; [done|].
    apply NoDup_cons in Hnd as [Ha Hnd].
    assert (Hrest : Engine.solveOuter ents w = w).
    { apply IH; [done|]. intros x Hx. apply Hsub. by right. }
    destruct (getCollider w a) as [ac|] eqn:Hac; [|done].
    destruct (getTransform w a) as [ta|] eqn:Hta; [|done].
    rewrite solveInner_noOverlap; [done..|].
    intros b bc tb Hb Hbc Htb.
    apply (Hno a b ac ta bc tb); try done.
    - apply Hsub. by left.
    - apply Hsub. by right.
    - intros ->. done. }
  by apply Hgen.
Qed.

Lemma X12_witness : Engine.collisionSolve apartWorld = apartWorld.
Proof.
  apply X12_pass_without_overlap.
  - vm_compute. apply NoDup_cons. split; [|apply NoDup_singleton].
    intros H. apply list_elem_of_singleton in H. discriminate.
  - intros a b ac ta bc tb Ha Hb Hab Hac Hta Hbc Htb.
    assert (Hents : World.entities apartWorld = [1; 2]) by (vm_compute; reflexivity).
    assert (Ec : ∀ i, i = 1 ∨ i = 2 → getCollider apartWorld i = Some tie_ac)
      by (intros i [->| ->]; vm_compute; reflexivity).
    assert (Et1 : getTransform apartWorld 1 = Some Transform0) by (vm_compute; reflexivity).
    assert (Et2 : getTransform apartWorld 2
                  = Some (mkTransform (F32.ofZ 100) (F32.ofZ 0) F32.zero F32.one F32.one))
      by (vm_compute; reflexivity).
    rewrite Hents in Ha, Hb.
    apply elem_of_cons in Ha as [->|Ha]; [|apply list_elem_of_singleton in Ha as ->];
      (apply elem_of_cons in Hb as [->|Hb]; [|apply list_elem_of_singleton in Hb as ->]);
      try done; rewrite Ec in Hac, Hbc by auto; rewrite ?Et1, ?Et2 in Hta, Htb;
      simplify_eq; vm_compute; reflexivity.
Defined.

(** ** Physics integration *)

Lemma integrate_self dt w id ph tr :
  getPhysics w id = Some ph → getTransform w id = Some tr →
  getPhysics (Engine.integrate dt w id) id = Some (integratedPhysics dt ph)
  ∧ getTransform (Engine.integrate dt w id) id = Some (integratedTransform dt ph tr).
Proof.
  intros Hp Ht. unfold Engine.integrate. rewrite Hp, Ht.
  autorewrite with store. rewrite !decide_True by done. by rewrite Hp, Ht.
Qed.

Lemma integrate_other dt w a id :
  a ≠ id →
  getPhysics (Engine.integrate dt w a) id = getPhysics w id
  ∧ getTransform (Engine.integrate dt w a) id = getTransform w id.
Proof.
  intros Hne. unfold Engine.integrate.
  repeat case_match; autorewrite with store; rewrite ?decide_False by done; done.
Qed.

Lemma integrate_untracked dt w a : untracked w a → Engine.integrate dt w a = w.
Proof.
  unfold Engine.integrate. intros [->| ->]; [done|]. by destruct (getPhysics w a).
Qed.

Lemma integrate_fold_other dt ents w id :
  id ∉ ents ∨ untracked w id →
  getPhysics (foldl (Engine.integrate dt) w ents) id = getPhysics w id
  ∧ getTransform (foldl (Engine.integrate dt) w ents) id = getTransform w id.
Proof.
  revert w. induction ents as [|a ents IH]; intros w Hid; simpl; [done|].
  destruct (decide (a = id)) as [->|Hne].
  - destruct Hid as [Hid|Hun]; [exfalso; apply Hid; by left|].
    rewrite integrate_untracked by done. apply IH. by right.
  - destruct (integrate_other dt w a id Hne) as [Ep Et].
    destruct (IH (Engine.integrate dt w a)) as [Ep' Et'].
    + destruct Hid as [Hid|Hun]; [left | right].
      * intros Hin. apply Hid. by right.
      * unfold untracked. by rewrite Ep, Et.
    + by rewrite Ep', Et', Ep, Et.
Qed.

(** X13: the integration phase of a fixed update steps every entity of the
    store that has both a Physics and a Transform exactly once: gravity is
    added to [vy] whatever the ground flag says, then the accelerations,
    then the position moves by the new velocity.  An entity that lacks one
    of the two components, or is not in the entity list, keeps both as they
    were. *)
Theorem X13_integrate_once (dt : spec_float) (w : World.t) (id : Z)
    (ph : Physics) (tr : Transform) :
  NoDup (World.entities w) → id ∈ World.entities w →
  getPhysics w id = Some ph → getTransform w id = Some tr →
  getPhysics (Engine.integrateAll dt w) id = Some (integratedPhysics dt ph)
  ∧ getTransform (Engine.integrateAll dt w) id = Some (integratedTransform dt ph tr)
  ∧ onGround (integratedPhysics dt ph) = onGround ph
  ∧ (∀ id', id' ∉ World.entities w ∨ untracked w id' →
       getPhysics (Engine.integrateAll dt w) id' = getPhysics w id'
       ∧ getTransform (Engine.integrateAll dt w) id' = getTransform w id').
Proof.
  intros Hnd Hin Hp Ht. unfold Engine.integrateAll, World.all.
  assert (Hgen : ∀ ents w, NoDup ents → id ∈ ents →
            getPhysics w id = Some ph → getTransform w id = Some tr →
            getPhysics (foldl (Engine.integrate dt) w ents) id = Some (integratedPhysics dt ph)
            ∧ getTransform (foldl (Engine.integrate dt) w ents) id
              = Some (integratedTransform dt ph tr)).
  { clear. induction ents as [|a ents IH]; intros w Hnd Hin Hp Ht; simpl.
    - by apply elem_of_nil in Hin.
    - apply NoDup_cons in Hnd as [Ha Hnd].
      destruct (decide (a = id)) as [->|Hne].
      + destruct (integrate_self dt w id ph tr Hp Ht) as [Ep Et].
        destruct (integrate_fold_other dt ents (Engine.integrate dt w id) id) as [Ep' Et'];
          [by left|]. by rewrite Ep', Et'.
      + apply elem_of_cons in Hin as [?|Hin]; [congruence|].
        destruct (integrate_other dt w a id Hne) as [Ep Et].
        apply IH; [done | done | by rewrite Ep | by rewrite Et]. }
  destruct (Hgen _ w Hnd Hin Hp Ht) as [E1 E2].
  split; [done|]. split; [done|]. split; [reflexivity|].
  intros id'. apply integrate_fold_other.
Qed.

Lemma X13_witness :
  getPhysics (Engine.integrateAll Engine.fixedDt tieWorld) 1
    = Some (integratedPhysics Engine.fixedDt tie_ap)
  ∧ getTransform (Engine.integrateAll Engine.fixedDt tieWorld) 1
    = Some (integratedTransform Engine.fixedDt tie_ap Transform0)
  ∧ onGround (integratedPhysics Engine.fixedDt tie_ap) = onGround tie_ap
  ∧ (∀ id', id' ∉ World.entities tieWorld ∨ untracked tieWorld id' →
       getPhysics (Engine.integrateAll Engine.fixedDt tieWorld) id' = getPhysics tieWorld id'
       ∧ getTransform (Engine.integrateAll Engine.fixedDt tieWorld) id'
         = getTransform tieWorld id').
Proof.
  apply (X13_integrate_once Engine.fixedDt tieWorld 1 tie_ap Transform0).
  - vm_compute. apply NoDup_cons. split; [|apply NoDup_singleton].
    intros H. apply list_elem_of_singleton in H. discriminate.
  - vm_compute. apply list_elem_of_here.
  - vm_compute. reflexivity.
  - vm_compute. reflexivity.
Defined.

(** ** What a fixed update leaves alone *)

Section ScriptsPreserve.
Context {A : Type} (Q : Engine.t → A).
Hypothesis Hworld : ∀ w e, Q (Engine.set_world w e) = Q e.
Hypothesis Hplayed : ∀ l e, Q (Engine.set_played l e) = Q e.

Lemma playerControl_keeps pid e : Q (Engine.playerControl pid e) = Q e.
Proof using Hworld Hplayed.
  unfold Engine.playerControl, Engine.playSound.
  repeat case_match; rewrite ?Hworld, ?Hplayed, ?Hworld; reflexivity.
Qed.

Lemma runScripts_keeps dt e : Q (Engine.runScripts dt e) = Q e.
Proof using Hworld Hplayed.
  unfold Engine.runScripts. apply foldl_preserves. intros e' id.
  unfold Engine.scriptStep, Engine.callUpdate.
  repeat case_match; try reflexivity. apply playerControl_keeps.
Qed.

Lemma fixedUpdate_keeps dt e :
  (∀ p e, Q (Engine.set_particles p e) = Q e) → Q (Engine.fixedUpdate dt e) = Q e.
Proof using Hworld Hplayed.
  intros Hpart. unfold Engine.fixedUpdate. by rewrite Hpart, Hworld, runScripts_keeps.
Qed.
End ScriptsPreserve.

Section ScriptsPreserveWorld.
Context {A : Type} (Q : World.t → A).
Hypothesis HmodP : ∀ f id w, Q (modPhysics f id w) = Q w.
Hypothesis HmodA : ∀ f id w, Q (modAnimatedSprite f id w) = Q w.

Lemma playerControl_world_keeps pid e :
  Q (Engine.world (Engine.playerControl pid e)) = Q (Engine.world e).
Proof using HmodP HmodA.
  unfold Engine.playerControl, Engine.playSound.
  repeat case_match; simpl; rewrite ?HmodA, ?HmodP, ?HmodP; reflexivity.
Qed.

Lemma runScripts_world_keeps dt e :
  Q (Engine.world (Engine.runScripts dt e)) = Q (Engine.world e).
Proof using HmodP HmodA.
  unfold Engine.runScripts.
  apply (foldl_preserves (λ e, Q (Engine.world e))). intros e' id.
  unfold Engine.scriptStep, Engine.callUpdate.
  repeat case_match; try reflexivity. apply playerControl_world_keeps.
Qed.

Lemma fixedUpdate_world_keeps dt e :
  (∀ f id w, Q (modTransform f id w) = Q w) →
  Q (Engine.world (Engine.fixedUpdate dt e)) = Q (Engine.world e).
Proof using HmodP HmodA.
  intros HmodT. unfold Engine.fixedUpdate. simpl. unfold Engine.animateAll.
  rewrite (foldl_preserves Q) by (intros; apply HmodA).
  rewrite (collisionSolve_preserves Q), (integrateAll_preserves Q) by done.
  apply runScripts_world_keeps.
Qed.
End ScriptsPreserveWorld.

(** ** The unchecked casts *)

Ltac valid_mod :=
  intros; unfold validTransform, validPhysics, validCollider, validScript,
    validAnimatedSprite, modTransform, modPhysics, modAnimatedSprite;
  unfold_getters;
  repeat case_match; try reflexivity; simplify_eq;
  match goal with
  | H : context [World.get (World.add _ _ _ _) _ _] |- _ => rewrite get_add in H
  end;
  case_decide; destruct_and?; simplify_eq; congruence.

Section ValidMod.
Variables (w : World.t) (id id' : Z).

Lemma validTransform_modTransform f :
  validTransform (modTransform f id w) id' = validTransform w id'.
Proof. valid_mod. Qed.
Lemma validTransform_modPhysics f :
  validTransform (modPhysics f id w) id' = validTransform w id'.
Proof. valid_mod. Qed.
Lemma validTransform_modAnimatedSprite f :
  validTransform (modAnimatedSprite f id w) id' = validTransform w id'.
Proof. valid_mod. Qed.
Lemma validPhysics_modTransform f :
  validPhysics (modTransform f id w) id' = validPhysics w id'.
Proof. valid_mod. Qed.
Lemma validPhysics_modPhysics f :
  validPhysics (modPhysics f id w) id' = validPhysics w id'.
Proof. valid_mod. Qed.
Lemma validPhysics_modAnimatedSprite f :
  validPhysics (modAnimatedSprite f id w) id' = validPhysics w id'.
Proof. valid_mod. Qed.
Lemma validCollider_modTransform f :
  validCollider (modTransform f id w) id' = validCollider w id'.
Proof. valid_mod. Qed.
Lemma validCollider_modPhysics f :
  validCollider (modPhysics f id w) id' = validCollider w id'.
Proof. valid_mod. Qed.
Lemma validCollider_modAnimatedSprite f :
  validCollider (modAnimatedSprite f id w) id' = validCollider w id'.
Proof. valid_mod. Qed.
Lemma validScript_modTransform f :
  validScript (modTransform f id w) id' = validScript w id'.
Proof. valid_mod. Qed.
Lemma validScript_modPhysics f :
  validScript (modPhysics f id w) id' = validScript w id'.
Proof. valid_mod. Qed.
Lemma validScript_modAnimatedSprite f :
  validScript (modAnimatedSprite f id w) id' = validScript w id'.
Proof. valid_mod. Qed.
Lemma validAnimatedSprite_modTransform f :
  validAnimatedSprite (modTransform f id w) id' = validAnimatedSprite w id'.
Proof. valid_mod. Qed.
Lemma validAnimatedSprite_modPhysics f :
  validAnimatedSprite (modPhysics f id w) id' = validAnimatedSprite w id'.
Proof. valid_mod. Qed.
Lemma validAnimatedSprite_modAnimatedSprite f :
  validAnimatedSprite (modAnimatedSprite f id w) id' = validAnimatedSprite w id'.
Proof. valid_mod. Qed.
End ValidMod.

Lemma forallb_pointwise {A} (f g : A → bool) (l : list A) :
  (∀ a, f a = g a) → forallb f l = forallb g l.
Proof. intros H. induction l as [|a l IH]; simpl; [done|]. by rewrite H, IH. Qed.

Lemma castsValid_ext (w w' : World.t) :
  World.all w' = World.all w →
  (∀ id, validTransform w' id = validTransform w id) →
  (∀ id, validPhysics w' id = validPhysics w id) →
  (∀ id, validCollider w' id = validCollider w id) →
  (∀ id, validScript w' id = validScript w id) →
  (∀ id, validAnimatedSprite w' id = validAnimatedSprite w id) →
  (∀ id, getScript w' id = getScript w id) →
  castsValid w' = castsValid w.
Proof.
  intros Hall HT HP HC HS HA Hscr. unfold castsValid. rewrite Hall. f_equal.
  - apply forallb_pointwise. intros id. unfold loopCastsValid.
    by rewrite HT, HP, HC, HS, HA.
  - rewrite (map_ext (capturedBy w') (capturedBy w)).
    2:{ intros id. unfold capturedBy. by rewrite Hscr. }
    apply forallb_pointwise. intros id. unfold playerCastsValid. by rewrite HT, HP, HA.
Qed.

Lemma castsValid_modTransform f id w : castsValid (modTransform f id w) = castsValid w.
Proof.
  apply castsValid_ext; intros.
  - apply entities_modTransform.
  - apply validTransform_modTransform.
  - apply validPhysics_modTransform.
  - apply validCollider_modTransform.
  - apply validScript_modTransform.
  - apply validAnimatedSprite_modTransform.
  - apply getScript_modTransform.
Qed.

Lemma castsValid_modPhysics f id w : castsValid (modPhysics f id w) = castsValid w.
Proof.
  apply castsValid_ext; intros.
  - apply entities_modPhysics.
  - apply validTransform_modPhysics.
  - apply validPhysics_modPhysics.
  - apply validCollider_modPhysics.
  - apply validScript_modPhysics.
  - apply validAnimatedSprite_modPhysics.
  - apply getScript_modPhysics.
Qed.

Lemma castsValid_modAnimatedSprite f id w :
  castsValid (modAnimatedSprite f id w) = castsValid w.
Proof.
  apply castsValid_ext; intros.
  - apply entities_modAnimatedSprite.
  - apply validTransform_modAnimatedSprite.
  - apply validPhysics_modAnimatedSprite.
  - apply validCollider_modAnimatedSprite.
  - apply validScript_modAnimatedSprite.
  - apply validAnimatedSprite_modAnimatedSprite.
  - apply getScript_modAnimatedSprite.
Qed.

(** No phase of a fixed update changes the type of the object in a slot:
    the casts of the next update are valid when those of this one are. *)
Lemma castsValid_fixedUpdate dt e :
  castsValid (Engine.world (Engine.fixedUpdate dt e)) = castsValid (Engine.world e).
Proof.
  apply (fixedUpdate_world_keeps castsValid); intros;
    [apply castsValid_modPhysics | apply castsValid_modAnimatedSprite
     | apply castsValid_modTransform].
Qed.

Lemma castsValid_afterScripts dt e :
  castsValid (Engine.world (afterScripts dt e)) = castsValid (Engine.world e).
Proof.
  unfold afterScripts. simpl. unfold Engine.animateAll.
  rewrite (foldl_preserves castsValid) by (intros; apply castsValid_modAnimatedSprite).
  rewrite (collisionSolve_preserves castsValid), (integrateAll_preserves castsValid);
    try done; intros;
    first [apply castsValid_modTransform | apply castsValid_modPhysics].
Qed.

Lemma afterScripts_keeps {A : Type} (Q : World.t → A) dt e :
  (∀ f id w, Q (modTransform f id w) = Q w) →
  (∀ f id w, Q (modPhysics f id w) = Q w) →
  (∀ f id w, Q (modAnimatedSprite f id w) = Q w) →
  Q (Engine.world (afterScripts dt e)) = Q (Engine.world e).
Proof.
  intros HT HP HA. unfold afterScripts. simpl. unfold Engine.animateAll.
  rewrite (foldl_preserves Q) by (intros; apply HA).
  by rewrite (collisionSolve_preserves Q), (integrateAll_preserves Q).
Qed.

(** X14: on a store on which every cast of the update is valid, a fixed
    update leaves the casts valid, never creates or destroys an entity,
    never changes a collider or a script, leaves the input state, the
    bindings, the running flag, the viewport and the loaded sounds alone,
    and the particle pool after it is the pool before advanced by [dt].
    The update is its script loop followed by the other phases: these keep
    all of the above whatever state the scripts left; the script loop does
    for the two closures the program installs, the player control and the
    empty one of the collectibles, of which none emits a particle. *)
Theorem X14_fixedUpdate_frame (dt : spec_float) (e : Engine.t) (id : Z) :
  castsValid (Engine.world e) = true →
  let e' := Engine.fixedUpdate dt e in
  castsValid (Engine.world e') = true
  ∧ keptByUpdate id e e'
  ∧ Engine.particles e' = ParticleSystem.update dt (Engine.particles e)
  ∧ e' = afterScripts dt (Engine.runScripts dt e)
  ∧ (∀ e1, castsValid (Engine.world e1) = true →
       castsValid (Engine.world (afterScripts dt e1)) = true
       ∧ keptByUpdate id e1 (afterScripts dt e1)
       ∧ Engine.particles (afterScripts dt e1)
         = ParticleSystem.update dt (Engine.particles e1)).
Proof.
  intros Hv e'. split; [unfold e'; by rewrite castsValid_fixedUpdate|].
  split.
  { unfold keptByUpdate, e'.
    split; [apply (fixedUpdate_world_keeps World.entities); intros;
            [apply entities_modPhysics | apply entities_modAnimatedSprite
             | apply entities_modTransform]|].
    split; [apply (fixedUpdate_world_keeps World.nextId); intros;
            [unfold modPhysics | unfold modAnimatedSprite | unfold modTransform];
            by case_match|].
    split; [apply (fixedUpdate_world_keeps (λ w, getCollider w id)); intros;
            [apply getCollider_modPhysics | apply getCollider_modAnimatedSprite
             | apply getCollider_modTransform]|].
    split; [apply (fixedUpdate_world_keeps (λ w, getScript w id)); intros;
            [apply getScript_modPhysics | apply getScript_modAnimatedSprite
             | apply getScript_modTransform]|].
    split; [by apply (fixedUpdate_keeps Engine.input)|].
    split; [by apply (fixedUpdate_keeps Engine.inputMap)|].
    split; [by apply (fixedUpdate_keeps Engine.running)|].
    split; [by apply (fixedUpdate_keeps (λ e, (Engine.screenW e, Engine.screenH e)))|].
    by apply (fixedUpdate_keeps Engine.sounds). }
  split.
  { unfold e', Engine.fixedUpdate. simpl. f_equal.
    by apply (runScripts_keeps Engine.particles). }
  split; [reflexivity|].
  intros e1 H1. split; [by rewrite castsValid_afterScripts|].
  split; [|reflexivity].
  unfold keptByUpdate.
  split; [apply (afterScripts_keeps World.entities); intros;
          [apply entities_modTransform | apply entities_modPhysics
           | apply entities_modAnimatedSprite]|].
  split; [apply (afterScripts_keeps World.nextId); intros;
          [unfold modTransform | unfold modPhysics | unfold modAnimatedSprite];
          by case_match|].
  split; [apply (afterScripts_keeps (λ w, getCollider w id)); intros;
          [apply getCollider_modTransform | apply getCollider_modPhysics
           | apply getCollider_modAnimatedSprite]|].
  split; [apply (afterScripts_keeps (λ w, getScript w id)); intros;
          [apply getScript_modTransform | apply getScript_modPhysics
           | apply getScript_modAnimatedSprite]|].
  repeat split.
Qed.

Lemma X14_witness :
  castsValid (Engine.world (Engine.fixedUpdate Engine.fixedDt playerEngine)) = true
  ∧ keptByUpdate 1 playerEngine (Engine.fixedUpdate Engine.fixedDt playerEngine).
Proof.
  destruct (X14_fixedUpdate_frame Engine.fixedDt playerEngine 1) as (H1 & H2 & _).
  - vm_compute. reflexivity.
  - split; [exact H1 | exact H2].
Defined.

(** ** The frame *)

Lemma frame_anatomy (fuel : nat) (fi : Engine.FrameInput)
    (acc : spec_float) (e : Engine.t) :
  F64.valid (F64.add acc (Engine.elapsed fi)) = true →
  (16 ≤ fuel)%nat →
  ∃ n acc',
    Engine.frame fuel fi (acc, e)
    = Some (acc',
            Engine.render (Nat.iter n (Engine.fixedUpdate Engine.fixedDt) (afterInput fi e)),
            n)
    ∧ (n ≤ 15)%nat
    ∧ acc' = Nat.iter n (λ a, F64.sub a Engine.fixedDt)
               (Engine.clamp (F64.add acc (Engine.elapsed fi)))
    ∧ fge acc' Engine.fixedDt = false.
Proof.
  intros Hv Hfuel. destruct (clamp_bounded _ Hv) as [Hcv Hcm].
  destruct (accLoop_bound _ Hcv Hcm) as (a' & n & Hl & Hn).
  apply (accLoop_fuel 16 fuel) in Hl; [|done].
  destruct (fixedLoop_of_accLoop fuel _ (afterInput fi e) a' n Hl) as [e1 He1].
  destruct (fixedLoop_iter _ _ _ _ _ _ He1) as (-> & Ha & Hlt).
  exists n, a'. split; [|done].
  unfold Engine.frame. fold (afterInput fi e). by rewrite He1.
Qed.

(** X15: a frame whose accumulator is a valid binary64 datum runs to its
    end on 16 units of fuel and is made of: the events applied (a pending
    quit clears [running]), then [n <= 15] fixed updates of 1/60 s, then one
    rendering.  The accumulator it leaves is the clamped one less [n] steps
    and is below one step. *)
Theorem X15_frame_anatomy (fuel : nat) (fi : Engine.FrameInput)
    (acc : spec_float) (e : Engine.t) :
  F64.valid (F64.add acc (Engine.elapsed fi)) = true →
  (16 ≤ fuel)%nat →
  ∃ n acc',
    Engine.frame fuel fi (acc, e)
    = Some (acc',
            Engine.render (Nat.iter n (Engine.fixedUpdate Engine.fixedDt) (afterInput fi e)),
            n)
    ∧ (n ≤ 15)%nat
    ∧ acc' = Nat.iter n (λ a, F64.sub a Engine.fixedDt)
               (Engine.clamp (F64.add acc (Engine.elapsed fi)))
    ∧ fge acc' Engine.fixedDt = false.
Proof.
  intros Hv Hfuel.
  destruct (frame_anatomy fuel fi acc e Hv Hfuel) as (n & acc' & H).
  by exists n, acc'.
Qed.

Lemma X15_witness :
  ∃ n acc',
    Engine.frame 16 (Engine.mkFrameInput [] (F64.lit 1 2)) (F64.ofZ 0, camEngine)
    = Some (acc',
            Engine.render (Nat.iter n (Engine.fixedUpdate Engine.fixedDt)
                             (afterInput (Engine.mkFrameInput [] (F64.lit 1 2)) camEngine)),
            n)
    ∧ (n ≤ 15)%nat
    ∧ acc' = Nat.iter n (λ a, F64.sub a Engine.fixedDt)
               (Engine.clamp (F64.add (F64.ofZ 0)
                                (Engine.elapsed (Engine.mkFrameInput [] (F64.lit 1 2)))))
    ∧ fge acc' Engine.fixedDt = false.
Proof.
  apply (X15_frame_anatomy 16 (Engine.mkFrameInput [] (F64.lit 1 2)) (F64.ofZ 0) camEngine).
  - vm_compute. reflexivity.
  - lia.
Defined.

Lemma running_iter n e :
  Engine.running (Nat.iter n (Engine.fixedUpdate Engine.fixedDt) e) = Engine.running e.
Proof.
  induction n as [|n IH]; simpl; [done|].
  rewrite <- IH. by apply (fixedUpdate_keeps Engine.running).
Qed.

Lemma running_render e : Engine.running (Engine.render e) = Engine.running e.
Proof. unfold Engine.render, Engine.computeCamera. by case_match. Qed.

(** X16: a frame that receives a QUIT event still runs its fixed updates
    and its rendering and ends with [running] false; [run] then stops: the
    frames after it are not run, whatever they hold. *)
Theorem X16_quit_stops_run (fuel : nat) (fi : Engine.FrameInput)
    (rest : list Engine.FrameInput) (acc : spec_float) (e : Engine.t) :
  F64.valid (F64.add acc (Engine.elapsed fi)) = true →
  (16 ≤ fuel)%nat →
  Engine.running e = true →
  existsb isQuit (Engine.events fi) = true →
  ∃ acc' e' n,
    Engine.frame fuel fi (acc, e) = Some (acc', e', n)
    ∧ Engine.running e' = false
    ∧ InputState.quit (Engine.input e') = true
    ∧ Engine.runFrames fuel (fi :: rest) (acc, e) = Some (acc', e').
Proof.
  intros Hv Hfuel Hrun Hq.
  destruct (frame_anatomy fuel fi acc e Hv Hfuel) as (n & acc' & Hf & _).
  set (e' := Engine.render (Nat.iter n (Engine.fixedUpdate Engine.fixedDt) (afterInput fi e)))
    in *.
  assert (Hquit : InputState.quit (Engine.input (afterInput fi e)) = true
                  ∧ Engine.running (afterInput fi e) = false).
  { unfold afterInput. simpl.
    assert (Hu : InputState.quit (InputState.update (Engine.events fi) (Engine.input e)) = true).
    { rewrite quit_update, Hq. apply orb_true_r. }
    rewrite Hu. by split. }
  destruct Hquit as [Hqi Hrf].
  exists acc', e', n. split; [done|].
  assert (Hr' : Engine.running e' = false).
  { unfold e'. by rewrite running_render, running_iter. }
  split; [done|]. split.
  - unfold e', Engine.render, Engine.computeCamera.
    assert (Hin : ∀ k x, Engine.input (Nat.iter k (Engine.fixedUpdate Engine.fixedDt) x)
                         = Engine.input x).
    { induction k as [|k IH]; intros x; simpl; [done|].
      rewrite <- (IH x). by apply (fixedUpdate_keeps Engine.input). }
    case_match; simpl; by rewrite Hin.
  - cbn [Engine.runFrames snd]. rewrite Hrun, Hf.
    destruct rest as [|fi' rest']; cbn [Engine.runFrames snd]; [done|]. by rewrite Hr'.
Qed.

Lemma X16_witness :
  ∃ acc' e' n,
    Engine.frame 16 (Engine.mkFrameInput [EQuit] (F64.ofZ 0))
      (F64.ofZ 0, Engine.set_running true camEngine) = Some (acc', e', n)
    ∧ Engine.running e' = false
    ∧ InputState.quit (Engine.input e') = true
    ∧ Engine.runFrames 16
        (Engine.mkFrameInput [EQuit] (F64.ofZ 0) :: [Engine.mkFrameInput [] (F64.lit 1 2)])
        (F64.ofZ 0, Engine.set_running true camEngine) = Some (acc', e').
Proof.
  apply (X16_quit_stops_run 16 (Engine.mkFrameInput [EQuit] (F64.ofZ 0))
           [Engine.mkFrameInput [] (F64.lit 1 2)] (F64.ofZ 0)
           (Engine.set_running true camEngine)).
  - vm_compute. reflexivity.
  - lia.
  - reflexivity.
  - reflexivity.
Defined.

(** ** The player script *)

(** X17: the player script, run for a player that has a Transform and a
    Physics and whose "sprite" slot is empty or holds an AnimatedSprite (so
    that the cast of the script is valid), sets the horizontal velocity
    from the keys alone: -240 when LEFT or A is held (also when RIGHT or D
    is held too), else 240 when RIGHT or D is held, else 0.  It jumps only
    from the ground: with SPACE or W held and the ground flag set, [vy]
    becomes -420, the flag is cleared and the jump sound is played when it
    is loaded; otherwise [vy], the flag and the sounds played are as
    before.  The accelerations, the mass, the gravity and the Transform
    are never changed, and the "sprite" slot stays valid for the cast. *)
Theorem X17_player_velocity (pid : Z) (e : Engine.t) (tr : Transform) (ph : Physics) :
  getTransform (Engine.world e) pid = Some tr →
  getPhysics (Engine.world e) pid = Some ph →
  validAnimatedSprite (Engine.world e) pid = true →
  let e' := Engine.playerControl pid e in
  let st := Engine.input e in
  playerCastsValid (Engine.world e) pid = true
  ∧ playerCastsValid (Engine.world e') pid = true
  ∧ ∃ ph', getPhysics (Engine.world e') pid = Some ph'
    ∧ vx ph' = (if leftHeld st then F32.ofZ (-240)
                else if rightHeld st then F32.ofZ 240 else F32.zero)
    ∧ (if jumpHeld st && onGround ph
       then vy ph' = F32.ofZ (-420) ∧ onGround ph' = false
            ∧ Engine.played e'
              = Engine.played e ++ (if decide ("jump" ∈ Engine.sounds e) then ["jump"] else [])
       else vy ph' = vy ph ∧ onGround ph' = onGround ph
            ∧ Engine.played e' = Engine.played e)
    ∧ (ax ph', ay ph', mass ph', gravity ph') = (ax ph, ay ph, mass ph, gravity ph)
    ∧ getTransform (Engine.world e') pid = Some tr.
Proof.
  intros Ht Hp Hs e' st.
  assert (Hv : playerCastsValid (Engine.world e) pid = true).
  { unfold playerCastsValid. rewrite Hs.
    unfold getTransform in Ht. unfold getPhysics in Hp.
    unfold validTransform, validPhysics.
    destruct (World.get (Engine.world e) pid "transform") as [[]|]; try discriminate.
    destruct (World.get (Engine.world e) pid "physics") as [[]|]; try discriminate.
    reflexivity. }
  split; [exact Hv|]. split.
  { unfold e'. rewrite <- Hv.
    apply (playerControl_world_keeps (λ w, playerCastsValid w pid)); intros;
      unfold playerCastsValid.
    - by rewrite validTransform_modPhysics, validPhysics_modPhysics,
        validAnimatedSprite_modPhysics.
    - by rewrite validTransform_modAnimatedSprite, validPhysics_modAnimatedSprite,
        validAnimatedSprite_modAnimatedSprite. }
  unfold e', Engine.playerControl. rewrite Ht, Hp.
  fold st. fold (leftHeld st) (rightHeld st) (jumpHeld st).
  assert (Hopp : SFopp (F32.ofZ 240) = F32.ofZ (-240)) by reflexivity.
  destruct (jumpHeld st && onGround ph) eqn:Hj; unfold Engine.playSound; simpl;
    repeat case_decide; simpl; autorewrite with store; rewrite ?decide_True by done;
    rewrite Hp, Ht; simpl; eexists; (split; [reflexivity|]); simpl;
    (split; [by destruct (leftHeld st), (rightHeld st)|]);
    rewrite ?app_nil_r; done.
Qed.

Lemma X17_witness :
  let e' := Engine.playerControl 1 playerEngine in
  playerCastsValid (Engine.world e') 1 = true
  ∧ ∃ ph', getPhysics (Engine.world e') 1 = Some ph'
    ∧ vx ph' = F32.ofZ (-240) ∧ vy ph' = F32.ofZ (-420) ∧ onGround ph' = false
    ∧ getTransform (Engine.world e') 1 = Some Transform0.
Proof.
  destruct (X17_player_velocity 1 playerEngine Transform0 (set_onGround true Physics0))
    as (_ & Hv & ph' & Hp & Hvx & Hj & _ & Ht); try (vm_compute; reflexivity).
  split; [exact Hv|]. exists ph'. split; [exact Hp|].
  assert (Hl : leftHeld (Engine.input playerEngine) = true) by (vm_compute; reflexivity).
  assert (Hjmp : jumpHeld (Engine.input playerEngine)
                 && onGround (set_onGround true Physics0) = true)
    by (vm_compute; reflexivity).
  rewrite Hl in Hvx. rewrite Hjmp in Hj. destruct Hj as (Hvy & Hg & _).
  split; [exact Hvx|]. split; [exact Hvy|]. split; [exact Hg|]. exact Ht.
Defined.

Example playerEngine_step :
  leftHeld (Engine.input playerEngine) = true
  ∧ rightHeld (Engine.input playerEngine) = true
  ∧ getPhysics (Engine.world (Engine.playerControl 1 playerEngine)) 1
    = Some (mkPhysics (F32.ofZ (-240)) (F32.ofZ (-420)) F32.zero F32.zero F32.one
              (F32.ofZ 900) false).
Proof. vm_compute. repeat split; reflexivity. Qed.

(** X18: the player script picks the frame time of the player's animated
    sprite from its keys, 0.12 s when a left or right key is held and 0.4 s
    otherwise, and leaves the rest of the sprite alone.  It touches no other
    entity's Physics or sprite, no Transform, collider or script at all, and
    neither particles, camera nor input. *)
Theorem X18_player_animation (pid : Z) (e : Engine.t) (tr : Transform) (ph : Physics)
    (s : AnimatedSprite) :
  getTransform (Engine.world e) pid = Some tr →
  getPhysics (Engine.world e) pid = Some ph →
  getAnimatedSprite (Engine.world e) pid = Some s →
  let e' := Engine.playerControl pid e in
  let st := Engine.input e in
  getAnimatedSprite (Engine.world e') pid
    = Some (set_anim (set_frameTime (if leftHeld st || rightHeld st
                                     then F32.lit 12 100 else F32.lit 4 10) (anim s)) s)
  ∧ (∀ id, id ≠ pid →
       getPhysics (Engine.world e') id = getPhysics (Engine.world e) id
       ∧ getAnimatedSprite (Engine.world e') id = getAnimatedSprite (Engine.world e) id)
  ∧ (∀ id, getTransform (Engine.world e') id = getTransform (Engine.world e) id
           ∧ getCollider (Engine.world e') id = getCollider (Engine.world e) id
           ∧ getScript (Engine.world e') id = getScript (Engine.world e) id)
  ∧ World.entities (Engine.world e') = World.entities (Engine.world e)
  ∧ Engine.particles e' = Engine.particles e
  ∧ cam e' = cam e
  ∧ Engine.input e' = Engine.input e.
Proof.
  intros Ht Hp Hs e' st.
  split; [|split; [|split; [|split; [|split; [|split]]]]].
  - unfold e', Engine.playerControl. rewrite Ht, Hp.
    fold st. fold (leftHeld st) (rightHeld st) (jumpHeld st).
    assert (Hm : ∀ l r : bool, fgt (fabs (if l then SFopp (F32.ofZ 240)
                                   else if r then F32.ofZ 240 else F32.ofZ 0)) (F32.ofZ 1)
                        = l || r) by (intros [] []; reflexivity).
    rewrite Hm.
    destruct (jumpHeld st && onGround ph); unfold Engine.playSound; simpl;
      repeat case_decide; simpl; autorewrite with store; rewrite ?decide_True by done;
      by rewrite Hs.
  - intros id Hne. unfold e', Engine.playerControl, Engine.playSound. rewrite Ht, Hp.
    repeat case_match; simpl; autorewrite with store; rewrite ?decide_False by done; done.
  - intros id. split; [|split].
    + apply (playerControl_world_keeps (λ w, getTransform w id)); intros;
        [apply getTransform_modPhysics | apply getTransform_modAnimatedSprite].
    + apply (playerControl_world_keeps (λ w, getCollider w id)); intros;
        [apply getCollider_modPhysics | apply getCollider_modAnimatedSprite].
    + apply (playerControl_world_keeps (λ w, getScript w id)); intros;
        [apply getScript_modPhysics | apply getScript_modAnimatedSprite].
  - apply entities_playerControl.
  - by apply (playerControl_keeps Engine.particles).
  - apply cam_playerControl.
  - by apply (playerControl_keeps Engine.input).
Qed.

Lemma X18_witness :
  let e' := Engine.playerControl 1 playerEngine in
  let st := Engine.input playerEngine in
  getAnimatedSprite (Engine.world e') 1
    = Some (set_anim (set_frameTime (if leftHeld st || rightHeld st
                                     then F32.lit 12 100 else F32.lit 4 10)
                        (anim (animSprite 0))) (animSprite 0))
  ∧ (∀ id, id ≠ 1 →
       getPhysics (Engine.world e') id = getPhysics (Engine.world playerEngine) id
       ∧ getAnimatedSprite (Engine.world e') id
         = getAnimatedSprite (Engine.world playerEngine) id)
  ∧ (∀ id, getTransform (Engine.world e') id = getTransform (Engine.world playerEngine) id
           ∧ getCollider (Engine.world e') id = getCollider (Engine.world playerEngine) id
           ∧ getScript (Engine.world e') id = getScript (Engine.world playerEngine) id)
  ∧ World.entities (Engine.world e') = World.entities (Engine.world playerEngine)
  ∧ Engine.particles e' = Engine.particles playerEngine
  ∧ cam e' = cam playerEngine
  ∧ Engine.input e' = Engine.input playerEngine.
Proof.
  apply (X18_player_animation 1 playerEngine Transform0 (set_onGround true Physics0)
           (animSprite 0)); vm_compute; reflexivity.
Defined.

(** ** The demo scene *)

(** X19: on an empty store [createDemoScene] creates 87 entities with the
    ids 1 to 87 in order and leaves the store well-formed.  The 80 tiles
    (ids 1 to 80) are the static colliders; the player (81) and the five
    collectibles (83 to 87) are the moving ones; the player is the only
    entity with a Physics, so it is the one the camera tracks, at (100,100);
    and the background music is started exactly when it is loaded. *)
Theorem X19_demo_scene (e : Engine.t) :
  Engine.world e = World.empty →
  let w := Engine.world (createDemoScene e) in
  World.entities w = seqZ 1 87
  ∧ World.nextId w = 88
  ∧ storeOk w
  ∧ withCollider true w = seqZ 1 80
  ∧ withCollider false w = 81 :: seqZ 83 5
  ∧ withPhysics w = [81]
  ∧ Engine.findTracked w (World.all w)
    = Some (mkTransform (F32.ofZ 100) (F32.ofZ 100) F32.zero F32.one F32.one)
  ∧ getScript w 81 = Some (mkScript (Some (PlayerControl 81)) None)
  ∧ Engine.played (createDemoScene e)
    = Engine.played e ++ (if decide ("bg" ∈ Engine.sounds e) then ["bg"] else []).
Proof.
  intros Hw.
  assert (Ew : Engine.world (createDemoScene e) = demoWorld World.empty).
  { unfold createDemoScene, Engine.playSound. rewrite Hw. by case_match. }
  cbv zeta. rewrite Ew.
  split; [vm_compute; reflexivity|]. split; [vm_compute; reflexivity|].
  split.
  { assert (Hents : World.entities (demoWorld World.empty) = seqZ 1 87)
      by (vm_compute; reflexivity).
    assert (Hnext : World.nextId (demoWorld World.empty) = 88) by (vm_compute; reflexivity).
    unfold storeOk. rewrite Hents, Hnext. split.
    - apply NoDup_seqZ.
    - apply Forall_forall. intros x Hx. apply elem_of_seqZ in Hx. lia. }
  split; [vm_compute; reflexivity|]. split; [vm_compute; reflexivity|].
  split; [vm_compute; reflexivity|]. split; [vm_compute; reflexivity|].
  split; [vm_compute; reflexivity|].
  unfold createDemoScene, Engine.playSound. simpl.
  case_decide; simpl; by rewrite ?app_nil_r.
Qed.

Lemma X19_witness :
  let w := Engine.world (createDemoScene (Engine.init 1280 720)) in
  World.entities w = seqZ 1 87
  ∧ World.nextId w = 88
  ∧ storeOk w
  ∧ withCollider true w = seqZ 1 80
  ∧ withCollider false w = 81 :: seqZ 83 5
  ∧ withPhysics w = [81]
  ∧ Engine.findTracked w (World.all w)
    = Some (mkTransform (F32.ofZ 100) (F32.ofZ 100) F32.zero F32.one F32.one)
  ∧ getScript w 81 = Some (mkScript (Some (PlayerControl 81)) None)
  ∧ Engine.played (createDemoScene (Engine.init 1280 720))
    = Engine.played (Engine.init 1280 720)
      ++ (if decide ("bg" ∈ Engine.sounds (Engine.init 1280 720)) then ["bg"] else []).
Proof. apply (X19_demo_scene (Engine.init 1280 720)). reflexivity. Defined.

(** ** The sprites of the demo scene *)

Lemma castsValid_miscast (w : World.t) (id : Z) :
  id ∈ World.all w → validAnimatedSprite w id = false → castsValid w = false.
Proof.
  intros Hin Hs. unfold castsValid.
  destruct (forallb (loopCastsValid w) (World.all w)) eqn:Hf; [|done].
  rewrite forallb_forall in Hf. apply list_elem_of_In in Hin.
  specialize (Hf id Hin). unfold loopCastsValid in Hf. rewrite Hs in Hf.
  by rewrite !andb_false_r in Hf.
Qed.

(** X20: a listed entity whose "sprite" slot holds an object that is not an
    AnimatedSprite makes every fixed update undefined.  Scripts, integration
    and collision pass leave the slot and the entity list as they are, so
    the animation loop reaches the entity and casts its sprite to an
    AnimatedSprite it is not.  The demo scene is such a store: the 80 tiles
    and the 5 collectibles carry a plain Sprite, which is the object the
    loop casts first, while every other cast of the first fixed update,
    those of the player script included, is valid. *)
Theorem X20_demo_sprites_miscast (dt : spec_float) (e : Engine.t) (id : Z) :
  id ∈ World.all (Engine.world e) →
  validAnimatedSprite (Engine.world e) id = false →
  let w1 := Engine.collisionSolve
              (Engine.integrateAll dt (Engine.world (Engine.runScripts dt e))) in
  (castsValid (Engine.world e) = false
   ∧ World.all w1 = World.all (Engine.world e)
   ∧ validAnimatedSprite w1 id = false
   ∧ Engine.world (Engine.fixedUpdate dt e) = Engine.animateAll dt w1)
  ∧ (let w := Engine.world demoEngine in
     miscastSprites w = seqZ 1 80 ++ seqZ 83 5
     ∧ (∀ id, id ∈ miscastSprites w → ∃ s, World.get w id "sprite" = Some (CSprite s))
     ∧ forallb (λ id, validScript w id && validPhysics w id
                      && validTransform w id && validCollider w id) (World.all w) = true
     ∧ concat (map (capturedBy w) (World.all w)) = [81]
     ∧ playerCastsValid w 81 = true
     ∧ miscastSprites demoAtAnimation = miscastSprites w
     ∧ head (World.all demoAtAnimation) = Some 1).
Proof.
  intros Hin Hs w1. split.
  - split; [by apply (castsValid_miscast _ id)|].
    assert (Hkeep : ∀ {A} (Q : World.t → A),
              (∀ f id w, Q (modTransform f id w) = Q w) →
              (∀ f id w, Q (modPhysics f id w) = Q w) →
              (∀ f id w, Q (modAnimatedSprite f id w) = Q w) →
              Q w1 = Q (Engine.world e)).
    { intros A Q HT HP HA. unfold w1.
      rewrite (collisionSolve_preserves Q), (integrateAll_preserves Q) by done.
      by apply runScripts_world_keeps. }
    split.
    { apply (Hkeep _ World.entities); intros;
        [apply entities_modTransform | apply entities_modPhysics
         | apply entities_modAnimatedSprite]. }
    split; [|reflexivity].
    rewrite <- Hs.
    apply (Hkeep _ (λ w, validAnimatedSprite w id)); intros;
      [apply validAnimatedSprite_modTransform | apply validAnimatedSprite_modPhysics
       | apply validAnimatedSprite_modAnimatedSprite].
  - cbv zeta.
    assert (Hm : miscastSprites (Engine.world demoEngine) = seqZ 1 80 ++ seqZ 83 5)
      by (vm_compute; reflexivity).
    split; [exact Hm|]. split.
    { assert (Hall : forallb (λ id, match World.get (Engine.world demoEngine) id "sprite" with
                                    | Some (CSprite _) => true
                                    | _ => false
                                    end) (seqZ 1 80 ++ seqZ 83 5) = true)
        by (vm_compute; reflexivity).
      intros i Hi. rewrite Hm in Hi. rewrite forallb_forall in Hall.
      apply list_elem_of_In in Hi. specialize (Hall i Hi). cbv beta in Hall.
      clear Hm Hi.
      destruct (World.get (Engine.world demoEngine) i "sprite") as [[]|];
        try discriminate Hall. by eexists. }
    split; [vm_compute; reflexivity|]. split; [vm_compute; reflexivity|].
    split; [vm_compute; reflexivity|]. split; vm_compute; reflexivity.
Qed.

Lemma X20_witness :
  castsValid (Engine.world demoEngine) = false
  ∧ validAnimatedSprite demoAtAnimation 1 = false.
Proof.
  destruct (X20_demo_sprites_miscast Engine.fixedDt demoEngine 1)
    as ((Hc & _ & Hs & _) & _).
  - assert (H : World.all (Engine.world demoEngine) = seqZ 1 87)
      by (vm_compute; reflexivity).
    rewrite H. apply elem_of_seqZ. lia.
  - vm_compute. reflexivity.
  - split; [exact Hc | exact Hs].
Defined.

(* ------------------------------------------------------------------ *)
(** ** Text files, resources and audio *)

Section StrLemmas.

Lemma getlineAll_app d a cur b :
  d ∉ a →
  Str.getlineAll d cur (a ++ d :: b) = (rev cur ++ a) :: Str.getlineAll d [] b.
Proof.
  revert cur. induction a as [|c a IH]; intros cur Hd; simpl.
  - rewrite Ascii.eqb_refl, app_nil_r. reflexivity.
  - apply not_elem_of_cons in Hd as [Hc Ha].
    destruct (Ascii.eqb_spec c d) as [->|_]; [congruence|].
    rewrite IH by done. simpl. rewrite <- app_assoc. reflexivity.
Qed.

Lemma getlines_unlines ls :
  Forall (λ l, Str.NL ∉ l) ls → Str.getlines (unlines ls) = ls.
Proof.
  unfold Str.getlines, unlines.
  induction 1 as [|l ls Hl _ IH]; simpl; [reflexivity|].
  rewrite <- app_assoc. simpl. rewrite getlineAll_app by done.
  simpl. by rewrite IH.
Qed.

Lemma ffno_None s i : allBlank s → Str.find_first_not_of i s = None.
Proof.
  intros H. revert i. induction H as [|c s Hc _ IH]; intros i; simpl; [done|].
  rewrite Hc. apply IH.
Qed.

Lemma ffno_app pre c post i :
  allBlank pre → Str.isBlank c = false →
  Str.find_first_not_of i (pre ++ c :: post) = Some (i + length pre)%nat.
Proof.
  intros H Hc. revert i. induction H as [|b pre Hb _ IH]; intros i; simpl.
  - rewrite Hc. f_equal. lia.
  - rewrite Hb, IH. f_equal. lia.
Qed.

Lemma flno_blank s i best : allBlank s → Str.find_last_not_of i best s = best.
Proof.
  intros H. revert i. induction H as [|c s Hc _ IH]; intros i; simpl; [done|].
  rewrite Hc. apply IH.
Qed.

Lemma flno_app pre c post i best :
  Str.isBlank c = false → allBlank post →
  Str.find_last_not_of i best (pre ++ c :: post) = Some (i + length pre)%nat.
Proof.
  intros Hc Hp. revert i best. induction pre as [|b pre IH]; intros i best; simpl.
  - rewrite Hc, flno_blank by done. f_equal. lia.
  - rewrite IH. f_equal. lia.
Qed.

Lemma trimmed_nil : trimmed [].
Proof. split; intros c; simpl; discriminate. Qed.

Lemma trim_eq pre m post :
  allBlank pre → allBlank post → trimmed m →
  Config.trim (pre ++ m ++ post) = m.
Proof.
  intros Hpre Hpost [Hh Hl]. unfold Config.trim.
  destruct m as [|c m].
  - simpl. rewrite ffno_None; [done|]. by apply Forall_app.
  - assert (Hc : Str.isBlank c = false) by (by apply Hh).
    destruct (exists_last (l := c :: m)) as (m0 & c' & Hm); [done|].
    assert (Hc' : Str.isBlank c' = false).
    { apply Hl. rewrite Hm. apply last_snoc. }
    assert (E1 : Str.find_first_not_of 0 (pre ++ (c :: m) ++ post)
                 = Some (length pre)).
    { simpl app. by rewrite ffno_app. }
    assert (E2 : Str.find_last_not_of 0 None (pre ++ (c :: m) ++ post)
                 = Some (length pre + length m0)%nat).
    { rewrite Hm, <- app_assoc. simpl app. rewrite app_assoc.
      rewrite flno_app by done. by rewrite length_app. }
    rewrite E1, E2. unfold Str.substr.
    rewrite drop_app_length.
    replace (length pre + length m0 - length pre + 1)%nat with (length (c :: m)).
    2:{ rewrite Hm, length_app. simpl. lia. }
    by rewrite take_app_length.
Qed.

Lemma trim_decompose s :
  ∃ pre m post, s = pre ++ m ++ post ∧ allBlank pre ∧ allBlank post ∧ trimmed m.
Proof.
  induction s as [|c s (pre & m & post & -> & Hpre & Hpost & Hm)].
  - exists [], [], []. repeat split; try constructor; simpl; discriminate.
  - destruct (Str.isBlank c) eqn:Hc.
    + exists (c :: pre), m, post. repeat split; try done.
      * by constructor.
      * apply Hm. * apply Hm.
    + destruct m as [|d m].
      * exists [], [c], (pre ++ post). simpl. repeat split.
        -- constructor. -- by apply Forall_app.
        -- intros ? [= <-]. done. -- intros ? [= <-]. done.
      * exists [], (c :: pre ++ d :: m), post. simpl. repeat split.
        -- by rewrite <- app_assoc.
        -- constructor. -- done.
        -- intros ? [= <-]. done.
        -- intros c'. destruct Hm as [_ Hl]. intros H. apply Hl.
           rewrite <- H. clear.
           change (c :: pre ++ d :: m) with ((c :: pre) ++ d :: m).
           rewrite last_app.
           destruct (last (d :: m)) eqn:E; [done|].
           by apply last_None in E.
Qed.

Lemma trim_spec s :
  ∃ pre post, s = pre ++ Config.trim s ++ post
              ∧ allBlank pre ∧ allBlank post ∧ trimmed (Config.trim s).
Proof.
  destruct (trim_decompose s) as (pre & m & post & -> & Hpre & Hpost & Hm).
  exists pre, post. rewrite trim_eq by done. done.
Qed.

Lemma trim_trimmed s : trimmed (Config.trim s).
Proof. destruct (trim_spec s) as (? & ? & _ & _ & _ & H). exact H. Qed.

Lemma trim_id m : trimmed m → Config.trim m = m.
Proof.
  intros H.
  pose proof (trim_eq [] m [] ltac:(constructor) ltac:(constructor) H) as E.
  simpl in E. by rewrite app_nil_r in E.
Qed.

End StrLemmas.

Section ConfigLemmas.

Lemma last_app_cons {A} (l1 : list A) x l2 :
  last (l1 ++ x :: l2) = last (x :: l2).
Proof.
  rewrite last_app. destruct (last (x :: l2)) eqn:E; [done|].
  by apply last_None in E.
Qed.

Lemma find_None c i s : c ∉ s → Str.find c i s = None.
Proof.
  revert i. induction s as [|d s IH]; intros i H; simpl; [done|].
  apply not_elem_of_cons in H as [Hd Hs].
  destruct (Ascii.eqb_spec d c); [congruence|]. by apply IH.
Qed.

Lemma find_app c i pre post :
  c ∉ pre → Str.find c i (pre ++ c :: post) = Some (i + length pre)%nat.
Proof.
  revert i. induction pre as [|d pre IH]; intros i H; simpl.
  - rewrite Ascii.eqb_refl. f_equal. lia.
  - apply not_elem_of_cons in H as [Hd Hs].
    destruct (Ascii.eqb_spec d c); [congruence|].
    rewrite IH by done. f_equal. lia.
Qed.

Lemma find_Some c i s eq :
  Str.find c i s = Some eq →
  ∃ pre post, s = pre ++ c :: post ∧ (c ∉ pre) ∧ eq = (i + length pre)%nat.
Proof.
  revert i. induction s as [|d s IH]; intros i; simpl; [done|].
  destruct (Ascii.eqb_spec d c) as [->|Hd].
  - intros [= <-]. exists [], s. repeat split; [apply not_elem_of_nil|simpl; lia].
  - intros H. apply IH in H as (pre & post & -> & Hpre & ->).
    exists (d :: pre), post. repeat split.
    + apply not_elem_of_cons. split; congruence.
    + simpl. lia.
Qed.

Lemma loadLine_ignored data line :
  ignoredLine line → Config.loadLine data line = data.
Proof.
  unfold ignoredLine, Config.loadLine.
  destruct (Config.trim line) as [|c l]; [done|].
  intros [H|[H|H]]; [done| |].
  - simpl in H. injection H as ->. reflexivity.
  - destruct (Ascii.eqb c "#"); [done|]. by rewrite find_None.
Qed.

Lemma chars_str s : chars (str s) = s.
Proof. apply String.list_ascii_of_string_of_list_ascii. Qed.

Lemma str_chars s : str (chars s) = s.
Proof. apply String.string_of_list_ascii_of_string. Qed.

(** A line either changes nothing or stores one well-formed entry. *)
Lemma loadLine_entry data line :
  Config.loadLine data line = data
  ∨ ∃ k v, Config.loadLine data line = <[str k := str v]> data
           ∧ wellFormedEntry k v.
Proof.
  unfold Config.loadLine.
  pose proof (trim_trimmed line) as [Hh _].
  destruct (Config.trim line) as [|c l] eqn:El; [by left|].
  destruct (Ascii.eqb_spec c "#") as [|Hc]; [by left|].
  destruct (Str.find "=" 0 (c :: l)) as [eq|] eqn:Ef; [|by left].
  right. eexists _, _. split; [reflexivity|].
  apply find_Some in Ef as (pre & post & E & Hpre & ->). simpl.
  unfold Str.substr. rewrite E, drop_0, take_app_length.
  split; [apply trim_trimmed|]. split; [apply trim_trimmed|].
  destruct (trim_spec pre) as (p1 & p2 & Ep & Hp1 & Hp2 & Ht).
  split.
  - intros Hin. apply Hpre. rewrite Ep.
    rewrite !elem_of_app. auto.
  - destruct pre as [|d pre]; [by vm_compute|].
    injection E as <- _.
    assert (Hd : Str.isBlank c = false) by (by apply Hh).
    destruct p1 as [|b p1].
    2:{ injection Ep as -> _. apply Forall_cons in Hp1 as [Hb _]. congruence. }
    destruct (Config.trim (c :: pre)) as [|k0 k].
    + simpl in Ep. rewrite <- Ep in Hp2.
      apply Forall_cons in Hp2 as [Hb _]. congruence.
    + injection Ep as <- _. simpl. congruence.
Qed.

Lemma unlines_snoc ls l : unlines (ls ++ [l]) = unlines ls ++ l ++ [Str.NL].
Proof. unfold unlines. rewrite map_app, concat_app. simpl. by rewrite app_nil_r. Qed.

Lemma load_lines ls data :
  ls ≠ [] → Forall (λ l, Str.NL ∉ l) ls →
  Config.load (unlines ls) data = (true, foldl Config.loadLine data ls).
Proof.
  intros Hne Hls. unfold Config.load.
  rewrite getlines_unlines by done.
  destruct ls as [|l ls]; [done|].
  unfold unlines. simpl. by destruct l.
Qed.

Lemma loadLine_trimmed data line c l eq :
  Config.trim line = c :: l → c ≠ "#"%char →
  Str.find "=" 0 (c :: l) = Some eq →
  Config.loadLine data line
  = <[str (Config.trim (Str.substr 0 eq (c :: l)))
      := str (Config.trim (Str.substrFrom (eq + 1) (c :: l)))]> data.
Proof.
  intros Ht Hc Hf. unfold Config.loadLine. rewrite Ht.
  destruct (Ascii.eqb_spec c "#"); [done|]. by rewrite Hf.
Qed.

(** The line [p1 k p2 = p3 v p4], blanks around a key and a value. *)
Lemma loadLine_assign data p1 k p2 p3 v p4 :
  allBlank p1 → allBlank p2 → allBlank p3 → allBlank p4 →
  trimmed k → k ≠ [] → trimmed v →
  "="%char ∉ k → head k ≠ Some "#"%char →
  Config.loadLine data (p1 ++ k ++ p2 ++ "="%char :: p3 ++ v ++ p4)
  = <[str k := str v]> data.
Proof.
  intros H1 H2 H3 H4 Hk Hne Hv Heq Hhash.
  assert (Hb : ∀ p, allBlank p → "="%char ∉ p).
  { intros p Hp Hin. eapply Forall_forall in Hp; [|exact Hin]. by vm_compute in Hp. }
  assert (∃ r post, allBlank post
            ∧ p3 ++ v ++ p4 = r ++ post
            ∧ trimmed (k ++ p2 ++ "="%char :: r)
            ∧ Config.trim r = v) as (r & post & Hpost & Er & Htr & Hr).
  { assert (Hhd : ∀ r c, head (k ++ p2 ++ "="%char :: r) = Some c →
                         Str.isBlank c = false).
    { intros r c. destruct k as [|k0 k]; [done|]. simpl. apply Hk. }
    destruct v as [|v0 v'].
    - exists [], (p3 ++ p4). repeat split.
      + by apply Forall_app.
      + apply Hhd.
      + intros c. rewrite !app_assoc, last_snoc. by intros [= <-].
    - exists (p3 ++ v0 :: v'), p4. repeat split.
      + done.
      + by rewrite <- app_assoc.
      + apply Hhd.
      + intros c Hl. apply Hv. rewrite <- Hl.
        replace (k ++ p2 ++ "="%char :: p3 ++ v0 :: v')
          with ((k ++ p2 ++ "="%char :: p3) ++ v0 :: v')
          by (by rewrite <- !app_assoc).
        by rewrite last_app_cons.
      + pose proof (trim_eq p3 (v0 :: v') [] H3 ltac:(constructor) Hv) as E.
        by rewrite app_nil_r in E. }
  replace (p1 ++ k ++ p2 ++ "="%char :: p3 ++ v ++ p4)
    with (p1 ++ (k ++ p2 ++ "="%char :: r) ++ post).
  2:{ rewrite Er, <- !app_assoc. reflexivity. }
  assert (Ef : Str.find "=" 0 ((k ++ p2) ++ "="%char :: r)
               = Some (length (k ++ p2))).
  { rewrite find_app; [done|].
    rewrite elem_of_app. intros [?|?]; [by apply Heq|]. by apply (Hb p2). }
  destruct k as [|k0 k']; [done|].
  assert (Hk0 : k0 ≠ "#"%char) by (simpl in Hhash; congruence).
  rewrite (loadLine_trimmed data _ k0 (k' ++ p2 ++ "="%char :: r)
             (length ((k0 :: k') ++ p2))); try done.
  2:{ by rewrite trim_eq. }
  2:{ rewrite <- Ef. by rewrite <- app_assoc. }
  remember (k0 :: k') as K.
  replace (k0 :: k' ++ p2 ++ "="%char :: r) with ((K ++ p2) ++ "="%char :: r)
    by (by rewrite HeqK, <- app_assoc).
  unfold Str.substr, Str.substrFrom.
  rewrite drop_0, take_app_length.
  replace (length (K ++ p2) + 1)%nat with (length ((K ++ p2) ++ ["="%char])).
  2:{ rewrite !length_app. simpl. lia. }
  replace ((K ++ p2) ++ "="%char :: r) with (((K ++ p2) ++ ["="%char]) ++ r)
    by (by rewrite <- app_assoc).
  rewrite drop_app_length, Hr.
  pose proof (trim_eq [] K p2 ltac:(constructor) H2 Hk) as E. simpl in E.
  by rewrite E.
Qed.

End ConfigLemmas.

Section ConfigTheorems.

Lemma foldl_loadLine_entries ls data k v :
  foldl Config.loadLine data ls !! k = Some v →
  data !! k = Some v ∨ wellFormedEntry (chars k) (chars v).
Proof.
  revert data. induction ls as [|l ls IH]; intros data; simpl; [by left|].
  intros H. apply IH in H as [H|H]; [|by right].
  destruct (loadLine_entry data l) as [E|(k' & v' & E & Hwf)];
    rewrite E in H; [by left|].
  destruct (decide (k = str k')) as [->|Hk].
  - rewrite lookup_insert_eq in H. injection H as <-.
    right. by rewrite !chars_str.
  - rewrite lookup_insert_ne in H by done. by left.
Qed.

Lemma digit_not_space c : isDigit c → isspace c = false.
Proof.
  unfold isDigit, digitVal, isspace. intros [x H].
  destruct (_ && _) eqn:E in H; [|done]. lia.
Qed.

Lemma digit_not_sign c : isDigit c → c ≠ "-"%char ∧ c ≠ "+"%char.
Proof. intros [x H]. split; intros ->; by vm_compute in H. Qed.

Lemma skipSpace_app ws s :
  Forall (λ c, isspace c = true) ws → skipSpace (ws ++ s) = skipSpace s.
Proof. induction 1 as [|c ws Hc _ IH]; simpl; [done|]. by rewrite Hc. Qed.

Lemma digitsVal_app ds rest st acc :
  Forall isDigit ds → (∀ c, head rest = Some c → digitVal c = None) →
  digitsVal st acc (ds ++ rest)
  = match ds with
    | [] => if st then Some acc else None
    | _ => Some (foldl (λ a c, a * 10 + default 0 (digitVal c)) acc ds)
    end.
Proof.
  intros Hds Hrest. revert st acc.
  induction Hds as [|d ds [x Hd] _ IH]; intros st acc; simpl.
  - destruct rest as [|c rest]; [done|]. simpl. by rewrite (Hrest c).
  - rewrite Hd, IH. simpl. by destruct ds.
Qed.

Lemma parseLong_numeral ws sgn ds rest :
  numeral ws sgn ds rest →
  parseLong (ws ++ sgn ++ ds ++ rest)
  = match ds with
    | [] => None
    | _ => Some (if decide (sgn = ["-"%char]) then - decimal ds else decimal ds)
    end.
Proof.
  intros (Hws & Hsgn & Hds & Hrest & Hcanon). unfold parseLong.
  rewrite skipSpace_app by done.
  destruct Hsgn as [-> | [-> | ->]]; simpl app.
  - assert (Hs : skipSpace (ds ++ rest) = ds ++ rest).
    { destruct ds as [|d ds].
      - destruct rest as [|c rest]; [done|]. simpl.
        destruct (Hcanon eq_refl eq_refl c eq_refl) as [Hsp _].
        by rewrite Hsp.
      - simpl. apply Forall_cons in Hds as [Hd _].
        by rewrite digit_not_space. }
    rewrite Hs.
    destruct (ds ++ rest) as [|c r] eqn:E.
    + apply app_eq_nil in E as [-> _]. done.
    + assert (Hc : c ≠ "-"%char ∧ c ≠ "+"%char).
      { destruct ds as [|d ds].
        - simpl in E. subst rest.
          by destruct (Hcanon eq_refl eq_refl c eq_refl) as (_ & ? & ?).
        - injection E as -> _. apply Forall_cons in Hds as [Hd _].
          by apply digit_not_sign. }
      destruct Hc as [H1 H2].
      destruct (Ascii.eqb_spec c "-"); [done|].
      destruct (Ascii.eqb_spec c "+"); [done|].
      rewrite <- E, digitsVal_app by done.
      destruct ds; [done|]. repeat case_decide; done.
  - change (skipSpace ("-"%char :: ds ++ rest)) with ("-"%char :: ds ++ rest).
    simpl. rewrite digitsVal_app by done.
    destruct ds; [done|]. repeat case_decide; done.
  - change (skipSpace ("+"%char :: ds ++ rest)) with ("+"%char :: ds ++ rest).
    simpl. rewrite digitsVal_app by done.
    destruct ds; [done|]. repeat case_decide; done.
Qed.

End ConfigTheorems.

(** X21: (Config::load).  A file in which every line is blank, a comment
    (first non-blank character ['#']) or has no ['='] is read, the
    result being [true] unless the text is empty, and stores nothing. *)
Theorem X21_load_passes_over (txt : text) (data : Config.t) :
  Forall ignoredLine (Str.getlines txt) →
  Config.load txt data = (bool_decide (txt ≠ []), data).
Proof.
  intros H. unfold Config.load.
  assert (E : foldl Config.loadLine data (Str.getlines txt) = data).
  { revert data. induction H as [|l ls Hl _ IH]; intros data; simpl; [done|].
    by rewrite loadLine_ignored. }
  rewrite E. destruct txt; [by rewrite bool_decide_eq_false_2 by (by intros ?)|].
  by rewrite bool_decide_eq_true_2.
Qed.

Lemma X21_witness :
  Config.load commentsOnly Config.empty
  = (bool_decide (commentsOnly ≠ []), Config.empty).
Proof.
  apply X21_load_passes_over.
  assert (E : Str.getlines commentsOnly
              = [txt "# nothing here"; []; txt "novalue"; txt "   "])
    by (vm_compute; reflexivity).
  rewrite E. repeat apply List.Forall_cons; [| | | |apply List.Forall_nil];
    unfold ignoredLine.
  - right; left. vm_compute. reflexivity.
  - left. vm_compute. reflexivity.
  - right; right. vm_compute. intros H.
    repeat (apply elem_of_cons in H as [H|H]; [discriminate|]).
    by apply elem_of_nil in H.
  - left. vm_compute. reflexivity.
Defined.

(** X22: (Config::load).  Whatever [load] adds to the configuration is a
    trimmed key with a trimmed value: no blank at either end of either,
    no ['='] in the key, and the key does not start with ['#'].  Entries
    it does not add are those that were there. *)
Theorem X22_load_entries_well_formed (txt : text) (data : Config.t)
    (k v : string) :
  snd (Config.load txt data) !! k = Some v →
  data !! k = Some v ∨ wellFormedEntry (chars k) (chars v).
Proof.
  unfold Config.load. destruct txt as [|c txt]; [by left|].
  apply foldl_loadLine_entries.
Qed.

Lemma X22_witness :
  (Config.empty : Config.t) !! "title"%string = Some "My Game"%string
  ∨ wellFormedEntry (chars "title") (chars "My Game").
Proof.
  apply (X22_load_entries_well_formed configSample Config.empty).
  vm_compute. reflexivity.
Defined.

(** X23: (Config::load, Config::get, Config::getInt).  When the last line
    of the file is [key = value], with any blanks around the key and the
    value, [get] returns exactly the value, whatever earlier lines and
    the configuration held for the key: the last assignment wins.  With
    an empty value [get] returns the empty string, not its default,
    while [getInt] returns its default. *)
Theorem X23_last_assignment_wins (before : list text)
    (p1 k p2 p3 v p4 : text) (data : Config.t) (def : string) (n : Z) :
  Forall (λ l, Str.NL ∉ l) before →
  padding p1 → padding p2 → padding p3 → padding p4 →
  validKey k → validValue v →
  let file := unlines (before ++ [p1 ++ k ++ p2 ++ "="%char :: p3 ++ v ++ p4]) in
  let data' := snd (Config.load file data) in
  fst (Config.load file data) = true
  ∧ Config.get (str k) def data' = str v
  ∧ (v = [] → Config.getInt (str k) n data' = StoiOk n).
Proof.
  intros Hb [B1 N1] [B2 N2] [B3 N3] [B4 N4] (Hk & Hne & Heq & Hhash & Nk)
    [Hv Nv] file data'.
  assert (E : Config.load file data
              = (true, <[str k := str v]> (foldl Config.loadLine data before))).
  { unfold file. rewrite load_lines.
    - by rewrite foldl_app; simpl; rewrite loadLine_assign.
    - by destruct before.
    - apply Forall_app. split; [done|]. constructor; [|constructor].
      rewrite !elem_of_app, elem_of_cons, !elem_of_app.
      intros [?|[?|[?|[?|[?|[?|?]]]]]]; done. }
  unfold data'. rewrite E. simpl. split; [done|].
  unfold Config.getInt, Config.get. rewrite lookup_insert_eq.
  split; [done|]. intros ->. reflexivity.
Qed.

Lemma X23_witness :
  let file := unlines ([txt "width=1"; txt "# size"]
                       ++ [txt " " ++ txt "width" ++ txt " " ++ "="%char
                           :: txt "  " ++ txt "800" ++ []]) in
  Config.get "width" "640" (snd (Config.load file Config.empty)) = "800"%string.
Proof.
  apply (X23_last_assignment_wins [txt "width=1"; txt "# size"]
           (txt " ") (txt "width") (txt " ") (txt "  ") (txt "800") []
           Config.empty "640"%string 0).
  - repeat constructor; vm_compute; intros H;
      repeat (apply elem_of_cons in H as [H|H]; [discriminate|]);
      by apply elem_of_nil in H.
  - split; [repeat constructor|]. vm_compute; intros H;
      repeat (apply elem_of_cons in H as [H|H]; [discriminate|]);
      by apply elem_of_nil in H.
  - split; [repeat constructor|]. vm_compute; intros H;
      repeat (apply elem_of_cons in H as [H|H]; [discriminate|]);
      by apply elem_of_nil in H.
  - split; [repeat constructor|]. vm_compute; intros H;
      repeat (apply elem_of_cons in H as [H|H]; [discriminate|]);
      by apply elem_of_nil in H.
  - split; [constructor|]. apply not_elem_of_nil.
  - repeat split; try (intros c [= <-]; reflexivity); try discriminate;
      vm_compute; intros H;
      repeat (apply elem_of_cons in H as [H|H]; [discriminate|]);
      by apply elem_of_nil in H.
  - repeat split; try (intros c [= <-]; reflexivity);
      vm_compute; intros H;
      repeat (apply elem_of_cons in H as [H|H]; [discriminate|]);
      by apply elem_of_nil in H.
Defined.

(** X24: (Config::getInt, std::stoi).  For a stored value made of white
    space, an optional sign, decimal digits and anything after them,
    [getInt] returns the number the digits denote and ignores what
    follows; it throws [out_of_range] when the number does not fit an
    [int] and [invalid_argument] when there is no digit. *)
Theorem X24_getInt_reads_number (data : Config.t) (k : string)
    (ws sgn ds rest : text) (def : Z) :
  numeral ws sgn ds rest →
  ws ++ sgn ++ ds ++ rest ≠ [] →
  data !! k = Some (str (ws ++ sgn ++ ds ++ rest)) →
  Config.getInt k def data = numeralValue sgn ds.
Proof.
  intros Hnum Hne Hk. unfold Config.getInt, Config.get. rewrite Hk.
  fold (chars (str (ws ++ sgn ++ ds ++ rest))). rewrite chars_str.
  destruct (ws ++ sgn ++ ds ++ rest) as [|c s] eqn:E; [done|].
  rewrite <- E. unfold stoi. rewrite parseLong_numeral by done.
  unfold numeralValue. by destruct ds.
Qed.

Lemma X24_witness :
  Config.getInt "width" 7 (snd (Config.load configSample Config.empty))
  = StoiOk 800.
Proof.
  apply (X24_getInt_reads_number _ "width" [] [] (txt "800") (txt "px") 7).
  - split; [constructor|]. split; [by left|].
    split; [repeat apply List.Forall_cons; try apply List.Forall_nil; by eexists|].
    split; [by intros c [= <-]|].
    intros _ H. by vm_compute in H.
  - discriminate.
  - vm_compute. reflexivity.
Defined.

Section TilemapLemmas.

Lemma getlineAll_count d cur s :
  (length (Str.getlineAll d cur s)
   ≤ length s + match cur with [] => 0 | _ => 1 end)%nat.
Proof.
  revert cur. induction s as [|c s IH]; intros cur; simpl.
  - destruct cur; simpl; lia.
  - destruct (Ascii.eqb c d); simpl.
    + specialize (IH []). simpl in IH. destruct cur; lia.
    + specialize (IH (c :: cur)). simpl in IH. destruct cur; lia.
Qed.

Lemma getlineAll_pending d cur s : cur ≠ [] → Str.getlineAll d cur s ≠ [].
Proof.
  revert cur. induction s as [|c s IH]; intros cur H; simpl.
  - by destruct cur.
  - destruct (Ascii.eqb c d); [done|]. by apply IH.
Qed.

Lemma getlineAll_nonempty d s : s ≠ [] → Str.getlineAll d [] s ≠ [].
Proof.
  destruct s as [|c s]; [done|]. intros _. simpl.
  destruct (Ascii.eqb c d); [done|]. by apply getlineAll_pending.
Qed.

Lemma getlineAll_piece d cur s :
  Forall (λ p, (length p ≤ length cur + length s)%nat) (Str.getlineAll d cur s).
Proof.
  revert cur. induction s as [|c s IH]; intros cur; simpl.
  - destruct cur; [constructor|]. apply List.Forall_cons; [|constructor].
    rewrite length_rev. simpl. lia.
  - destruct (Ascii.eqb c d).
    + constructor; [rewrite length_rev; lia|].
      eapply Forall_impl; [apply IH|]. simpl. intros; lia.
    + eapply Forall_impl; [apply IH|]. simpl. intros; lia.
Qed.

(** The cells of a row: at least one, at most one per character. *)
Lemma cells_count l : l ≠ [] → (1 ≤ length (cells l) ≤ length l)%nat.
Proof.
  intros H. unfold cells. split.
  - pose proof (getlineAll_nonempty "," l H).
    destruct (Str.getlineAll "," [] l); [done|simpl; lia].
  - pose proof (getlineAll_count "," [] l). simpl in *. lia.
Qed.

Lemma tileRows_bounds txt :
  (length (tileRows txt) ≤ length txt)%nat
  ∧ Forall (λ l, l ≠ [] ∧ (length l ≤ length txt)%nat) (tileRows txt).
Proof.
  unfold tileRows, Str.getlines. split.
  - pose proof (getlineAll_count Str.NL [] txt).
    pose proof (length_filter (λ l, l ≠ []) (Str.getlineAll Str.NL [] txt)).
    simpl in *. lia.
  - apply Forall_forall. intros l [Hl Hin]%list_elem_of_filter.
    split; [done|].
    pose proof (getlineAll_piece Str.NL [] txt) as H.
    rewrite Forall_forall in H. apply H in Hin. simpl in Hin. lia.
Qed.

(** The loop of [loadCSV] from any state, while the counters fit. *)
Lemma foldl_loadRow ls tm :
  0 ≤ Tilemap.rows tm →
  Tilemap.rows tm + Z.of_nat (length ls) < 2 ^ 31 →
  Forall (λ l, Z.of_nat (length l) < 2 ^ 31) ls →
  let rs := filter (λ l, l ≠ []) ls in
  foldl Tilemap.loadRow tm ls
  = Tilemap.mk (Tilemap.rows tm + Z.of_nat (length rs))
      (if Tilemap.cols tm =? 0
       then match rs with [] => 0 | l :: _ => Z.of_nat (length (cells l)) end
       else Tilemap.cols tm)
      (Tilemap.data tm ++ map (λ l, map atoi (cells l)) rs).
Proof.
  revert tm. induction ls as [|l ls IH]; intros tm H0 Hn Hls; simpl.
  - destruct tm as [r c d]. simpl. rewrite Z.add_0_r, app_nil_r.
    by destruct (c =? 0) eqn:E; [apply Z.eqb_eq in E as ->|].
  - apply Forall_cons in Hls as [Hl Hls]. simpl in Hn.
    destruct l as [|a l].
    + rewrite filter_cons_False by (by intros ?). simpl.
      apply IH; [done|lia|done].
    + rewrite filter_cons_True by done.
      pose proof (cells_count (a :: l) ltac:(done)) as Hc.
      assert (ER : Tilemap.loadRow tm (a :: l)
                   = Tilemap.mk (Tilemap.rows tm + 1)
                       (if Tilemap.cols tm =? 0
                        then Z.of_nat (length (cells (a :: l)))
                        else Tilemap.cols tm)
                       (Tilemap.data tm ++ [map atoi (cells (a :: l))])).
      { unfold Tilemap.loadRow, cells. rewrite length_map.
        rewrite !wrap32_id; [done| |]; unfold cells in Hc;
          unfold INT_MIN, INT_MAX; simpl length in *; lia. }
      rewrite ER, IH; cbn [Tilemap.rows Tilemap.cols Tilemap.data].
      * cbn [map length]. f_equal.
        -- lia.
        -- destruct (Tilemap.cols tm =? 0) eqn:E; [|by rewrite E].
           destruct (Z.of_nat (length (cells (a :: l))) =? 0) eqn:E'; [|done].
           apply Z.eqb_eq in E'. lia.
        -- by rewrite <- app_assoc.
      * lia.
      * lia.
      * done.
Qed.

Lemma loadCSV_spec txt tm :
  txt ≠ [] → Z.of_nat (length txt) < 2 ^ 31 →
  Tilemap.loadCSV txt tm
  = (true, Tilemap.mk (Z.of_nat (length (tileRows txt)))
             (Z.of_nat (tileCols txt))
             (map (λ l, map atoi (cells l)) (tileRows txt))).
Proof.
  intros Hne Hlen. unfold Tilemap.loadCSV. destruct txt as [|c txt]; [done|].
  rewrite foldl_loadRow; simpl Tilemap.rows; simpl Tilemap.cols;
    simpl Tilemap.data.
  - unfold tileCols, tileRows. simpl (0 =? 0).
    repeat f_equal. by destruct (filter _ _).
  - done.
  - pose proof (getlineAll_count Str.NL [] (c :: txt)).
    unfold Str.getlines. simpl in *. lia.
  - pose proof (getlineAll_piece Str.NL [] (c :: txt)) as H.
    eapply Forall_impl; [exact H|]. intros p Hp. cbn beta in Hp.
    change (length (@nil ascii) + length (c :: txt))%nat
      with (length (c :: txt)) in Hp. lia.
Qed.

End TilemapLemmas.

Lemma lookup_map {A B} (f : A → B) (l : list A) (i : nat) :
  map f l !! i = f <$> l !! i.
Proof. revert i. induction l as [|x l IH]; intros [|i]; simpl; auto. Qed.

Ltac zcmp :=
  repeat match goal with
    | |- context [?a <? ?b] => destruct (Z.ltb_spec a b)
    | |- context [?a <=? ?b] => destruct (Z.leb_spec a b)
    end.

(** X25: (Tilemap::loadCSV).  For a text of less than 2^31 characters: an
    empty text gives [false] and leaves the map as it was; any other text
    gives [true] and replaces the map.  Empty lines are skipped, every
    other line is one row of [atoi]-converted cells, [rows] is their
    number and [cols] the number of cells of the first row, which is at
    least 1. *)
Theorem X25_loadCSV_shape (txt : text) (tm : Tilemap.t) :
  Z.of_nat (length txt) < 2 ^ 31 →
  Tilemap.loadCSV txt tm
  = (if decide (txt = []) then (false, tm)
     else (true, Tilemap.mk (Z.of_nat (length (tileRows txt)))
                   (Z.of_nat (tileCols txt))
                   (map (λ l, map atoi (cells l)) (tileRows txt))))
  ∧ (tileRows txt ≠ [] → (1 ≤ tileCols txt)%nat).
Proof.
  intros Hlen. split.
  - case_decide as E; [by subst|]. by apply loadCSV_spec.
  - unfold tileCols. pose proof (tileRows_bounds txt) as [_ H].
    destruct (tileRows txt) as [|l ls]; [done|]. intros _.
    apply Forall_cons in H as [[Hl _] _]. by apply cells_count.
Qed.

Lemma X25_witness :
  Tilemap.loadCSV tileSample (Tilemap.mk 7 7 [[9]])
  = (true, Tilemap.mk 2 3 [[1; 2; 3]; [4; 5; 6]]).
Proof.
  destruct (X25_loadCSV_shape tileSample (Tilemap.mk 7 7 [[9]])) as [E _].
  - vm_compute. reflexivity.
  - rewrite E. vm_compute. reflexivity.
Defined.

(** X26: (Tilemap::get after Tilemap::loadCSV).  Outside
    [0 <= r < rows], [0 <= c < cols] the result is 0.  Inside, where the
    row has a cell in column [c], it is [atoi] of that cell of the
    [r]-th non-empty line. *)
Theorem X26_get_reads_cell (txt : text) (tm0 : Tilemap.t) :
  txt ≠ [] → Z.of_nat (length txt) < 2 ^ 31 →
  let tm := snd (Tilemap.loadCSV txt tm0) in
  (∀ r c, r < 0 ∨ Tilemap.rows tm ≤ r ∨ c < 0 ∨ Tilemap.cols tm ≤ c →
          Tilemap.get r c tm = Some 0)
  ∧ (∀ (r c : nat) l cell,
       tileRows txt !! r = Some l → cells l !! c = Some cell →
       (c < tileCols txt)%nat →
       Tilemap.get (Z.of_nat r) (Z.of_nat c) tm = Some (atoi cell)).
Proof.
  intros Hne Hlen tm. unfold tm. rewrite loadCSV_spec by done.
  cbn [snd]. unfold Tilemap.get. cbn [Tilemap.rows Tilemap.cols Tilemap.data].
  split.
  - intros r c H. zcmp; try done. lia.
  - intros r c l cell Hr Hc Hlt.
    apply lookup_lt_Some in Hr as Hr'.
    zcmp; try lia. simpl.
    rewrite !Nat2Z.id, lookup_map, Hr. simpl.
    by rewrite lookup_map, Hc.
Qed.

Lemma X26_witness :
  Tilemap.get 1 2 (snd (Tilemap.loadCSV tileSample Tilemap.empty)) = Some 6.
Proof.
  destruct (X26_get_reads_cell tileSample Tilemap.empty) as [_ H].
  - discriminate.
  - vm_compute. reflexivity.
  - apply (H 1%nat 2%nat (txt "4,5,6") (txt "6")); vm_compute; first [reflexivity|lia].
Defined.

(** X27: (Tilemap::get after Tilemap::loadCSV).  [get] never reads past
    the end of a row exactly when no row has fewer cells than the first
    one; a shorter row is read out of bounds. *)
Theorem X27_get_in_bounds (txt : text) (tm0 : Tilemap.t) :
  txt ≠ [] → Z.of_nat (length txt) < 2 ^ 31 →
  let tm := snd (Tilemap.loadCSV txt tm0) in
  (∀ r c, is_Some (Tilemap.get r c tm))
  ↔ Forall (λ l, (tileCols txt ≤ length (cells l))%nat) (tileRows txt).
Proof.
  intros Hne Hlen tm. unfold tm. rewrite loadCSV_spec by done.
  cbn [snd]. unfold Tilemap.get. cbn [Tilemap.rows Tilemap.cols Tilemap.data].
  split.
  - intros H. apply Forall_lookup. intros r l Hr.
    destruct (tileCols txt) as [|n] eqn:En; [lia|].
    specialize (H (Z.of_nat r) (Z.of_nat n)).
    apply lookup_lt_Some in Hr as Hr'.
    revert H. zcmp; try lia. simpl.
    rewrite !Nat2Z.id, lookup_map, Hr. simpl.
    intros [x Hx]. apply lookup_lt_Some in Hx.
    rewrite length_map in Hx. lia.
  - intros Hall r c. zcmp; try (by eexists). simpl.
    destruct (lookup_lt_is_Some_2 (tileRows txt) (Z.to_nat r)) as [l Hl]; [lia|].
    rewrite lookup_map, Hl. simpl.
    eapply Forall_lookup_1 in Hall; [|exact Hl]. simpl in Hall.
    apply lookup_lt_is_Some_2. rewrite length_map. lia.
Qed.

Lemma X27_witness :
  (∀ r c, is_Some (Tilemap.get r c
                     (snd (Tilemap.loadCSV tileSample Tilemap.empty))))
  ↔ Forall (λ l, (tileCols tileSample ≤ length (cells l))%nat)
      (tileRows tileSample).
Proof.
  apply (X27_get_in_bounds tileSample Tilemap.empty).
  - discriminate.
  - vm_compute. reflexivity.
Defined.

(** A row shorter than the first one: the read is out of bounds. *)
Example ragged_row_read :
  Tilemap.get 1 2 (snd (Tilemap.loadCSV raggedSample Tilemap.empty)) = None.
Proof. vm_compute. reflexivity. Qed.

(** X28: (ResourceManager::loadTexture, getTexture).  A load that fails
    leaves the manager as it was.  A load that returns a texture makes
    [getTexture] return it for that id and changes no other id; from then
    on every [loadTexture] of the id returns that same texture, whatever
    path is given and whatever the files hold, and loads nothing. *)
Theorem X28_texture_cache (IMG_Load : string → option Surface)
    (CreateTexture : Surface → option Z) (id path : string)
    (rm : ResourceManager.t) :
  let r := ResourceManager.loadTexture IMG_Load CreateTexture id path rm in
  (fst r = None → snd r = rm)
  ∧ (∀ t, fst r = Some t →
       ResourceManager.getTexture id (snd r) = Some t
       ∧ (∀ id', id' ≠ id →
            ResourceManager.getTexture id' (snd r)
            = ResourceManager.getTexture id' rm)
       ∧ ResourceManager.sounds (snd r) = ResourceManager.sounds rm
       ∧ (∀ IMG_Load' CreateTexture' path',
            ResourceManager.loadTexture IMG_Load' CreateTexture' id path' (snd r)
            = (Some t, snd r))).
Proof.
  unfold ResourceManager.loadTexture, ResourceManager.getTexture.
  destruct (ResourceManager.textures rm !! id) as [t0|] eqn:E; cbn [fst snd].
  - split; [done|]. intros t [= <-]. rewrite E. repeat split; try done.
  - destruct (IMG_Load path) as [surf|]; cbn [fst snd]; [|by split].
    destruct (CreateTexture surf) as [h|]; cbn [fst snd]; [|by split].
    split; [done|]. intros t [= <-]. cbn [ResourceManager.textures].
    rewrite lookup_insert_eq. repeat split; try done.
    intros id' Hne. by rewrite lookup_insert_ne.
Qed.

(** X29: (ResourceManager::loadSound, getSound, AudioManager::playSound,
    playMusic).  With audio disabled [loadSound] returns null and loads
    nothing, even for an id [getSound] still finds.  With audio enabled,
    a sound it returns is the one [getSound] finds afterwards and the one
    every later [loadSound] of the id returns, whatever path and kind are
    asked for.  A sound first loaded as music has no chunk, so
    [playSound] does nothing with it; one first loaded as a chunk has no
    music, so [playMusic] does nothing with it. *)
Theorem X29_sound_rules (LoadMUS LoadWAV : string → option Z)
    (id path : string) (mus : bool) (rm : ResourceManager.t) :
  let r := ResourceManager.loadSound LoadMUS LoadWAV id path mus rm in
  (ResourceManager.audioEnabled rm = false → r = (None, rm))
  ∧ (fst r = None → snd r = rm)
  ∧ (∀ s, fst r = Some s →
       ResourceManager.getSound id (snd r) = Some s
       ∧ (∀ LoadMUS' LoadWAV' path' mus',
            ResourceManager.loadSound LoadMUS' LoadWAV' id path' mus' (snd r)
            = (Some s, snd r))
       ∧ (ResourceManager.getSound id rm = None →
            if mus
            then AudioManager.playSound (Some s) = []
                 ∧ ∃ m, AudioManager.playMusic (Some s) = [AudioManager.PlayMusic m]
            else AudioManager.playMusic (Some s) = []
                 ∧ ∃ c, AudioManager.playSound (Some s) = [AudioManager.PlayChannel c])).
Proof.
  unfold ResourceManager.loadSound, ResourceManager.getSound.
  destruct (ResourceManager.audioEnabled rm) eqn:Ea; cbn [negb fst snd].
  2:{ repeat split; try done. }
  destruct (ResourceManager.sounds rm !! id) as [s0|] eqn:E; cbn [fst snd].
  - split; [done|]. split; [done|]. intros s [= <-].
    rewrite Ea, E. cbn [negb]. repeat split; try done.
  - split; [done|].
    destruct mus; cbn [andb negb orb chunk music].
    + destruct (LoadMUS path) as [m|]; cbn [fst snd].
      2:{ rewrite bool_decide_eq_false_2 by (by intros [? ?]).
          cbn [andb orb negb fst snd]. by split. }
      rewrite bool_decide_eq_true_2 by (by eexists).
      cbn [andb orb negb fst snd].
      split; [done|]. intros s [= <-].
      cbn [ResourceManager.sounds ResourceManager.audioEnabled].
      rewrite lookup_insert_eq. cbn [negb].
      repeat split; try done. by eexists.
    + destruct (LoadWAV path) as [c|]; cbn [fst snd].
      2:{ rewrite bool_decide_eq_false_2 by (by intros [? ?]).
          cbn [andb orb negb fst snd]. by split. }
      rewrite bool_decide_eq_true_2 by (by eexists).
      cbn [andb orb negb fst snd].
      split; [done|]. intros s [= <-].
      cbn [ResourceManager.sounds ResourceManager.audioEnabled].
      rewrite lookup_insert_eq. cbn [negb].
      repeat split; try done. by eexists.
Qed.

Lemma loadTexture_effect (IMG_Load : string → option Surface)
    (CreateTexture : Surface → option Z) (id path : string)
    (rm : ResourceManager.t) :
  let rm' := snd (ResourceManager.loadTexture IMG_Load CreateTexture id path rm) in
  ResourceManager.sounds rm' = ResourceManager.sounds rm
  ∧ ResourceManager.audioEnabled rm' = ResourceManager.audioEnabled rm
  ∧ (∀ id', id' ≠ id →
       ResourceManager.textures rm' !! id' = ResourceManager.textures rm !! id')
  ∧ (ResourceManager.textures rm !! id = None →
       ResourceManager.textures rm' !! id
       = (surf ← IMG_Load path; h ← CreateTexture surf;
          Some (Build_Texture h (surf_w surf) (surf_h surf)))).
Proof.
  unfold ResourceManager.loadTexture.
  destruct (ResourceManager.textures rm !! id) as [t0|] eqn:E; cbn [snd].
  - repeat split; try done.
  - destruct (IMG_Load path) as [surf|]; cbn [snd mbind option_bind];
      [|by repeat split].
    destruct (CreateTexture surf) as [h|]; cbn [snd mbind option_bind];
      [|by repeat split].
    cbn [ResourceManager.textures ResourceManager.sounds
         ResourceManager.audioEnabled].
    repeat split; try done.
    + intros id' Hne. by rewrite lookup_insert_ne.
    + intros _. by rewrite lookup_insert_eq.
Qed.

Lemma loadSound_effect (LoadMUS LoadWAV : string → option Z)
    (id path : string) (mus : bool) (rm : ResourceManager.t) :
  let rm' := snd (ResourceManager.loadSound LoadMUS LoadWAV id path mus rm) in
  ResourceManager.textures rm' = ResourceManager.textures rm
  ∧ ResourceManager.audioEnabled rm' = ResourceManager.audioEnabled rm
  ∧ (∀ id', id' ≠ id →
       ResourceManager.sounds rm' !! id' = ResourceManager.sounds rm !! id')
  ∧ (ResourceManager.audioEnabled rm = true →
     ResourceManager.sounds rm !! id = None →
       ResourceManager.sounds rm' !! id
       = if mus then (λ m, Build_Sound None (Some m)) <$> LoadMUS path
         else (λ c, Build_Sound (Some c) None) <$> LoadWAV path).
Proof.
  unfold ResourceManager.loadSound.
  destruct (ResourceManager.audioEnabled rm) eqn:Ea; cbn [negb snd].
  2:{ repeat split; try done. }
  destruct (ResourceManager.sounds rm !! id) as [s0|] eqn:E; cbn [snd].
  { repeat split; try done. }
  destruct mus; cbn [andb negb orb chunk music].
  - destruct (LoadMUS path) as [m|].
    + rewrite bool_decide_eq_true_2 by (by eexists).
      cbn [andb orb negb snd ResourceManager.textures ResourceManager.sounds
           ResourceManager.audioEnabled].
      repeat split; try done.
      * intros id' Hne. by rewrite lookup_insert_ne.
      * intros _ _. by rewrite lookup_insert_eq.
    + rewrite bool_decide_eq_false_2 by (by intros [? ?]).
      cbn [andb orb negb snd]. repeat split; try done.
  - destruct (LoadWAV path) as [c|].
    + rewrite bool_decide_eq_true_2 by (by eexists).
      cbn [andb orb negb snd ResourceManager.textures ResourceManager.sounds
           ResourceManager.audioEnabled].
      repeat split; try done.
      * intros id' Hne. by rewrite lookup_insert_ne.
      * intros _ _. by rewrite lookup_insert_eq.
    + rewrite bool_decide_eq_false_2 by (by intros [? ?]).
      cbn [andb orb negb snd]. repeat split; try done.
Qed.

(** X30: (Engine::loadDefaultAssets with Engine::init and
    ResourceManager).  After the default assets are loaded, the sounds
    are exactly: "jump", a chunk, when the audio device opened and
    assets/jump.wav loads; "bg", music, when the device opened and
    assets/bg.ogg loads.  Hence the jump of the player reaches the mixer
    exactly in the first case, and without an audio device nothing ever
    does.  The texture "player" is there when its file loads and a
    texture can be made of it, with the size of the image. *)
Theorem X30_default_assets (IMG_Load : string → option Surface)
    (CreateTexture : Surface → option Z) (LoadMUS LoadWAV : string → option Z)
    (audioAvailable : bool) :
  let rm := ResourceManager.defaultResources IMG_Load CreateTexture
              LoadMUS LoadWAV audioAvailable in
  ResourceManager.getSound "jump" rm
  = (if audioAvailable
     then (λ c, Build_Sound (Some c) None) <$> LoadWAV "assets/jump.wav"%string
     else None)
  ∧ ResourceManager.getSound "bg" rm
    = (if audioAvailable
       then (λ m, Build_Sound None (Some m)) <$> LoadMUS "assets/bg.ogg"%string
       else None)
  ∧ (∀ id, id ≠ "jump"%string → id ≠ "bg"%string →
           ResourceManager.getSound id rm = None)
  ∧ AudioManager.playSound (ResourceManager.getSound "jump" rm)
    = (if audioAvailable
       then match LoadWAV "assets/jump.wav"%string with
            | Some c => [AudioManager.PlayChannel c]
            | None => []
            end
       else [])
  ∧ ResourceManager.getTexture "player" rm
    = (surf ← IMG_Load "assets/player.png"%string;
       h ← CreateTexture surf;
       Some (Build_Texture h (surf_w surf) (surf_h surf))).
Proof.
  intros rm. unfold rm, ResourceManager.defaultResources,
    ResourceManager.loadDefaultAssets, ResourceManager.getSound,
    ResourceManager.getTexture.
  set (rm0 := ResourceManager.setAudioEnabled audioAvailable
                ResourceManager.fresh).
  assert (S0 : ResourceManager.sounds rm0 = ∅) by reflexivity.
  assert (T0 : ResourceManager.textures rm0 = ∅) by reflexivity.
  assert (A0 : ResourceManager.audioEnabled rm0 = audioAvailable) by reflexivity.
  destruct (loadTexture_effect IMG_Load CreateTexture "player"
              "assets/player.png" rm0) as (S1 & A1 & O1 & T1).
  set (rm1 := snd (ResourceManager.loadTexture IMG_Load CreateTexture
                     "player" "assets/player.png" rm0)) in *.
  destruct (loadTexture_effect IMG_Load CreateTexture "tiles"
              "assets/tiles.png" rm1) as (S2 & A2 & O2 & _).
  set (rm2 := snd (ResourceManager.loadTexture IMG_Load CreateTexture
                     "tiles" "assets/tiles.png" rm1)) in *.
  destruct (loadTexture_effect IMG_Load CreateTexture "font"
              "assets/font.png" rm2) as (S3 & A3 & O3 & _).
  set (rm3 := snd (ResourceManager.loadTexture IMG_Load CreateTexture
                     "font" "assets/font.png" rm2)) in *.
  assert (E3 : ResourceManager.textures rm3 !! "player"%string
               = (surf ← IMG_Load "assets/player.png"%string;
                  h ← CreateTexture surf;
                  Some (Build_Texture h (surf_w surf) (surf_h surf)))).
  { rewrite O3, O2 by done. apply T1. rewrite T0. apply lookup_empty. }
  assert (Z3 : ResourceManager.sounds rm3 = ∅) by congruence.
  assert (B3 : ResourceManager.audioEnabled rm3 = audioAvailable) by congruence.
  clearbody rm0 rm1 rm2 rm3.
  destruct audioAvailable.
  - destruct (loadSound_effect LoadMUS LoadWAV "bg" "assets/bg.ogg" true rm3)
      as (T4 & A4 & O4 & N4).
    set (rm4 := snd (ResourceManager.loadSound LoadMUS LoadWAV
                       "bg" "assets/bg.ogg" true rm3)) in *.
    destruct (loadSound_effect LoadMUS LoadWAV "jump" "assets/jump.wav" false rm4)
      as (T5 & A5 & O5 & N5).
    set (rm5 := snd (ResourceManager.loadSound LoadMUS LoadWAV
                       "jump" "assets/jump.wav" false rm4)) in *.
    clearbody rm4 rm5.
    assert (J : ResourceManager.sounds rm5 !! "jump"%string
                = (λ c, Build_Sound (Some c) None) <$> LoadWAV "assets/jump.wav"%string).
    { apply N5; [congruence|]. rewrite O4 by done. rewrite Z3. apply lookup_empty. }
    split; [exact J|]. split.
    { rewrite O5 by done. apply N4; [done|]. rewrite Z3. apply lookup_empty. }
    split.
    { intros id H1 H2. rewrite O5, O4 by done. rewrite Z3. apply lookup_empty. }
    split.
    { rewrite J. unfold AudioManager.playSound.
      by destruct (LoadWAV "assets/jump.wav"%string). }
    by rewrite T5, T4.
  - rewrite Z3. rewrite !lookup_empty. repeat split; try done.
Qed.
